(** * qiankun sandbox subsystem: a shallow embedding and its properties

    The development follows the TypeScript sources of the sandbox
    subsystem: the legacy (diff based) sandbox, the window listener
    patcher, the activation counters and prototype patches of the dynamic
    append patcher, the lifecycle container ([mount]/[unmount]), the CSS
    scoping engine, the interval patcher, and the configuration and
    registry of apis.ts.

    Part I holds the embedding, one module per source file.  Part II holds
    the statements proved about it. *)

From stdpp Require Import gmap strings list fin_maps.
From Stdlib Require Import ZArith Ascii.

Local Open Scope string_scope.
Local Open Scope list_scope.
Local Open Scope Z_scope.

(* ===================================================================== *)
(** * Part I: the embedding *)
(* ===================================================================== *)

(** ** JavaScript values, completions, ordered maps and plain objects *)

Module Js.

(** Object identity.  Every object (the real window, a proxy, a function)
    is named by a reference; [alloc] hands out the next unused one. *)
Definition ObjRef := nat.

Definition alloc (next : ObjRef) : ObjRef * ObjRef := (next, S next).

(** [PropertyKey]: inside a proxy trap a key is a string or a symbol. *)
Inductive PropertyKey :=
| PStr (s : string)
| PSym (id : positive).

#[global] Instance PropertyKey_eq_dec : EqDecision PropertyKey.
Proof. solve_decision. Defined.

#[global] Instance PropertyKey_countable : Countable PropertyKey.
Proof.
  refine (inj_countable'
    (fun k => match k with PStr s => inl s | PSym i => inr i end)
    (fun x => match x with inl s => PStr s | inr i => PSym i end) _).
  by intros [].
Defined.

(** [typeof prop === 'symbol'] *)
Definition is_symbol (p : PropertyKey) : bool :=
  match p with PSym _ => true | PStr _ => false end.

Inductive JsValue :=
| VUndefined
| VNull
| VBool (b : bool)
| VNum (z : Z)
| VStr (s : string)
| VObj (r : ObjRef).

#[global] Instance JsValue_eq_dec : EqDecision JsValue.
Proof. solve_decision. Defined.

(** [value === undefined] *)
Definition is_undefined (v : JsValue) : bool :=
  match v with VUndefined => true | _ => false end.

(** The sources are ES modules, hence strict mode code: a failed
    assignment, deletion or definition raises [TypeError].  A computation
    over a state [S] ends normally with a result or abruptly; the state
    reached so far is kept in both cases. *)
Inductive completion (A : Type) :=
| Normal (a : A)
| ThrowTypeError.
Arguments Normal {A} a.
Arguments ThrowTypeError {A}.

Definition M (S A : Type) : Type := S -> completion A * S.

Definition ret {S A} (a : A) : M S A := fun s => (Normal a, s).

Definition bind {S A B} (m : M S A) (k : A -> M S B) : M S B :=
  fun s =>
    match m s with
    | (Normal a, s') => k a s'
    | (ThrowTypeError, s') => (ThrowTypeError, s')
    end.

Definition throw {S A} : M S A := fun s => (ThrowTypeError, s).
Definition gets {S A} (f : S -> A) : M S A := fun s => (Normal (f s), s).
Definition modify {S} (f : S -> S) : M S unit := fun s => (Normal tt, f s).
Definition when {S} (b : bool) (m : M S unit) : M S unit :=
  if b then m else ret tt.

#[global] Instance M_ret {S} : MRet (M S) := fun A => @ret S A.
#[global] Instance M_bind {S} : MBind (M S) := fun A B k m => @bind S A B m k.

(** A JavaScript [Map]: entries are kept in insertion order; [set] on a
    key already present replaces the value where the entry stands. *)
Definition JsMap (K V : Type) : Type := list (K * V).

Section JsMap.
Context {K V : Type} `{EqDecision K}.

Fixpoint jsmap_get (k : K) (m : JsMap K V) : option V :=
  match m with
  | [] => None
  | (k', v) :: m' => if decide (k = k') then Some v else jsmap_get k m'
  end.

Definition jsmap_has (k : K) (m : JsMap K V) : bool :=
  match jsmap_get k m with Some _ => true | None => false end.

Fixpoint jsmap_set (k : K) (v : V) (m : JsMap K V) : JsMap K V :=
  match m with
  | [] => [(k, v)]
  | (k', v') :: m' =>
      if decide (k = k') then (k, v) :: m' else (k', v') :: jsmap_set k v m'
  end.

(** [map.forEach((v, k) => body)] for a body that leaves [map] itself
    alone: the entries are visited in insertion order, and an exception
    raised by the body ends the loop. *)
Fixpoint jsmap_forEach {S} (body : V -> K -> M S unit) (m : JsMap K V) : M S unit :=
  match m with
  | [] => ret tt
  | (k, v) :: m' => bind (body v k) (fun _ => jsmap_forEach body m')
  end.

End JsMap.

(** An own data property of an ordinary object. *)
Record PropertyDescriptor := mkPD {
  pd_value : JsValue;
  pd_writable : bool;
  pd_enumerable : bool;
  pd_configurable : bool
}.

#[global] Instance PropertyDescriptor_eq_dec : EqDecision PropertyDescriptor.
Proof. solve_decision. Defined.

(** The attributes object handed to [defineProperty]: every field may be
    left out. *)
Record DescriptorInit := mkDI {
  di_value : option JsValue;
  di_writable : option bool;
  di_enumerable : option bool;
  di_configurable : option bool
}.

(** The shared global object is an ordinary, extensible object: the
    finite map of its own data properties, together with what it inherits
    along its prototype chain.  Accessor properties of the object itself
    are outside the model. *)
Abbreviation JsObject := (gmap PropertyKey PropertyDescriptor).

(** A property the object finds on its prototype chain: a data property,
    or an accessor with its two functions ([undefined] where one is
    missing). *)
Inductive InheritedProperty :=
| InhData (value : JsValue) (writable : bool)
| InhAccessor (getter setter : option JsValue).

(** What a value is when the code calls it. *)
Inductive Callee :=
| NotCallable
| ObjectHasOwnProperty
| OtherFunction.

#[global] Instance Callee_eq_dec : EqDecision Callee.
Proof. solve_decision. Defined.

(** What surrounds the object: the properties it inherits, and the
    functions the code reaches through it.  Of these functions
    [Object.prototype.hasOwnProperty] is modelled, by [hasOwnProperty]
    below; the body of every other function is a parameter.  Such a
    function is called with the object as [this]; it is taken to act on
    the own properties of the object only, and a getter to read them
    without an effect. *)
Class Realm := {
  inherited : gmap PropertyKey InheritedProperty;
  callee : JsValue -> Callee;
  call_getter : JsValue -> JsObject -> JsValue;
  call_setter : JsValue -> JsValue -> M JsObject unit;
  call_with_key : JsValue -> PropertyKey -> M JsObject JsValue
}.

(** [!!value] *)
Definition ToBoolean (v : JsValue) : bool :=
  match v with
  | VUndefined | VNull => false
  | VBool b => b
  | VNum z => negb (z =? 0)
  | VStr s => negb (bool_decide (s = ""))
  | VObj _ => true
  end.

(** [Object.prototype.hasOwnProperty.call(obj, p)] *)
Definition hasOwnProperty (o : JsObject) (p : PropertyKey) : bool :=
  match o !! p with Some _ => true | None => false end.

Section Realm.
Context {realm : Realm}.

(** [obj[p]]: the own property, or else the one found along the chain. *)
Definition Get (o : JsObject) (p : PropertyKey) : JsValue :=
  match o !! p with
  | Some d => pd_value d
  | None =>
      match inherited !! p with
      | Some (InhData v _) => v
      | Some (InhAccessor (Some getter) _) => call_getter getter o
      | Some (InhAccessor None _) => VUndefined
      | None => VUndefined
      end
  end.

(** [p in obj] *)
Definition HasProperty (o : JsObject) (p : PropertyKey) : bool :=
  hasOwnProperty o p || bool_decide (is_Some (inherited !! p)).

(** [obj[p] = v].  An own property is written when it is writable.
    Without an own property the chain decides: a setter found there is
    called, a read-only property or an accessor without a setter refuses
    the assignment, and otherwise the object gets a new own property with
    all attributes true.  A refused assignment throws. *)
Definition Put (p : PropertyKey) (v : JsValue) : M JsObject unit :=
  fun o =>
    match o !! p with
    | Some d =>
        if pd_writable d
        then (Normal tt, <[p := mkPD v true (pd_enumerable d) (pd_configurable d)]> o)
        else (ThrowTypeError, o)
    | None =>
        match inherited !! p with
        | Some (InhAccessor _ (Some setter)) => call_setter setter v o
        | Some (InhAccessor _ None) => (ThrowTypeError, o)
        | Some (InhData _ false) => (ThrowTypeError, o)
        | Some (InhData _ true) => (Normal tt, <[p := mkPD v true true true]> o)
        | None => (Normal tt, <[p := mkPD v true true true]> o)
        end
    end.

(** [obj.hasOwnProperty(p)] as a condition: the method is looked up on
    the object like any other property and called; calling a value that
    is not a function throws; the answer of a function other than the
    one of [Object.prototype] is coerced to a boolean. *)
Definition call_hasOwnProperty (p : PropertyKey) : M JsObject bool :=
  fun o =>
    let method := Get o (PStr "hasOwnProperty") in
    match callee method with
    | NotCallable => (ThrowTypeError, o)
    | ObjectHasOwnProperty => (Normal (hasOwnProperty o p), o)
    | OtherFunction =>
        match call_with_key method p o with
        | (Normal answer, o') => (Normal (ToBoolean answer), o')
        | (ThrowTypeError, o') => (ThrowTypeError, o')
        end
    end.

End Realm.

(** [delete obj[p]] *)
Definition Delete (p : PropertyKey) : M JsObject unit :=
  fun o =>
    match o !! p with
    | Some d => if pd_configurable d then (Normal tt, delete p o) else (ThrowTypeError, o)
    | None => (Normal tt, o)
    end.

Definition option_differs {A} `{EqDecision A} (want : option A) (have : A) : bool :=
  match want with Some x => negb (bool_decide (x = have)) | None => false end.

(** [Reflect.defineProperty(obj, p, attributes)] for data descriptors
    (ValidateAndApplyPropertyDescriptor): the answer tells whether the
    definition was accepted. *)
Definition Reflect_defineProperty (o : JsObject) (p : PropertyKey) (a : DescriptorInit)
  : bool * JsObject :=
  match o !! p with
  | None =>
      (true, <[p := mkPD (default VUndefined (di_value a))
                         (default false (di_writable a))
                         (default false (di_enumerable a))
                         (default false (di_configurable a))]> o)
  | Some d =>
      let refused :=
        negb (pd_configurable d) &&
        (option_differs (di_configurable a) false
         || option_differs (di_enumerable a) (pd_enumerable d)
         || (negb (pd_writable d) &&
             (option_differs (di_writable a) false
              || option_differs (di_value a) (pd_value d)))) in
      if refused then (false, o)
      else (true, <[p := mkPD (default (pd_value d) (di_value a))
                              (default (pd_writable d) (di_writable a))
                              (default (pd_enumerable d) (di_enumerable a))
                              (default (pd_configurable d) (di_configurable a))]> o)
  end.

(** [Object.defineProperty(obj, p, attributes)] throws where
    [Reflect.defineProperty] answers false. *)
Definition Object_defineProperty (p : PropertyKey) (a : DescriptorInit) : M JsObject unit :=
  fun o =>
    match Reflect_defineProperty o p a with
    | (true, o') => (Normal tt, o')
    | (false, o') => (ThrowTypeError, o')
    end.

(** [Object.getOwnPropertyDescriptor(obj, p)] *)
Definition getOwnPropertyDescriptor (o : JsObject) (p : PropertyKey) : option PropertyDescriptor :=
  o !! p.

(** A realm to compute in.  The object is an object literal, so that its
    chain is [Object.prototype]; three of its properties are kept: the
    methods [hasOwnProperty] and [toString] and the accessor [__proto__]
    (whose setter does nothing when it is given a value that is not an
    object).  [always_true] is a function of the guest, [() => true]. *)
Definition fn_hasOwnProperty : JsValue := VObj 10%nat.
Definition fn_toString : JsValue := VObj 11%nat.
Definition fn_get_proto : JsValue := VObj 12%nat.
Definition fn_set_proto : JsValue := VObj 13%nat.
Definition Object_prototype : JsValue := VObj 14%nat.
Definition always_true : JsValue := VObj 15%nat.

Definition object_literal : Realm := {|
  inherited :=
    {[ PStr "hasOwnProperty" := InhData fn_hasOwnProperty true;
       PStr "toString" := InhData fn_toString true;
       PStr "__proto__" := InhAccessor (Some fn_get_proto) (Some fn_set_proto) ]};
  callee := fun f =>
    if decide (f = fn_hasOwnProperty) then ObjectHasOwnProperty
    else if decide (f ∈ [fn_toString; fn_get_proto; fn_set_proto; always_true])
         then OtherFunction else NotCallable;
  call_getter := fun _ _ => Object_prototype;
  call_setter := fun _ _ => ret tt;
  call_with_key := fun f _ =>
    if decide (f = always_true) then ret (VBool true) else ret (VStr "[object Object]")
|}.

End Js.

(** ** sandbox/common.ts *)

Module Common.
Import Js.

Section Rebind.
(** [isCallable], [isBoundedFunction] and [isConstructable] come from the
    utils file, and [Function.prototype.bind] (with the copy of the own
    properties, of [prototype] and of [toString] that follows it) builds a
    new function object; they are parameters here. *)
Variables isCallable isBoundedFunction isConstructable : JsValue -> bool.
Variable boundFunction : JsValue -> ObjRef -> JsValue.

(** [functionBoundedValueMap] is the state. *)
Definition rebindTarget2Fn (target : ObjRef) (fn : JsValue)
  : M (JsMap JsValue JsValue) JsValue :=
  if isCallable fn && negb (isBoundedFunction fn) && negb (isConstructable fn) then
    cachedBoundFunction ← gets (jsmap_get fn);
    match cachedBoundFunction with
    | Some cached => mret cached
    | None =>
        let boundValue := boundFunction fn target in
        modify (jsmap_set fn boundValue);;
        mret boundValue
    end
  else mret fn.

End Rebind.
End Common.

(** ** sandbox/legacy/sandbox.ts *)

Module Legacy.
Import Js.

Record LegacySandbox := mkSandbox {
  addedPropsMapInSandbox : JsMap PropertyKey JsValue;
  modifiedPropsOriginalValueMapInSandbox : JsMap PropertyKey JsValue;
  currentUpdatedPropsValueMap : JsMap PropertyKey JsValue;
  name : string;
  proxy : ObjRef;
  globalContext : ObjRef;
  sandboxRunning : bool;
  latestSetProp : option PropertyKey
}.

(** The sandbox object together with the own properties of the object
    that [globalContext] names; what that object inherits is in the
    realm. *)
Record World := mkWorld {
  this : LegacySandbox;
  rawWindow : JsObject
}.

Definition on_window {A} (m : M JsObject A) : M World A :=
  fun w => let (r, o) := m (rawWindow w) in (r, mkWorld (this w) o).

Definition on_this (f : LegacySandbox -> LegacySandbox) : M World unit :=
  modify (fun w => mkWorld (f (this w)) (rawWindow w)).

Definition set_added (f : JsMap PropertyKey JsValue -> JsMap PropertyKey JsValue)
  (s : LegacySandbox) : LegacySandbox :=
  mkSandbox (f (addedPropsMapInSandbox s)) (modifiedPropsOriginalValueMapInSandbox s)
    (currentUpdatedPropsValueMap s) (name s) (proxy s) (globalContext s)
    (sandboxRunning s) (latestSetProp s).

Definition set_modified (f : JsMap PropertyKey JsValue -> JsMap PropertyKey JsValue)
  (s : LegacySandbox) : LegacySandbox :=
  mkSandbox (addedPropsMapInSandbox s) (f (modifiedPropsOriginalValueMapInSandbox s))
    (currentUpdatedPropsValueMap s) (name s) (proxy s) (globalContext s)
    (sandboxRunning s) (latestSetProp s).

Definition set_current (f : JsMap PropertyKey JsValue -> JsMap PropertyKey JsValue)
  (s : LegacySandbox) : LegacySandbox :=
  mkSandbox (addedPropsMapInSandbox s) (modifiedPropsOriginalValueMapInSandbox s)
    (f (currentUpdatedPropsValueMap s)) (name s) (proxy s) (globalContext s)
    (sandboxRunning s) (latestSetProp s).

Definition set_sandboxRunning (b : bool) (s : LegacySandbox) : LegacySandbox :=
  mkSandbox (addedPropsMapInSandbox s) (modifiedPropsOriginalValueMapInSandbox s)
    (currentUpdatedPropsValueMap s) (name s) (proxy s) (globalContext s)
    b (latestSetProp s).

Definition set_latestSetProp (p : option PropertyKey) (s : LegacySandbox) : LegacySandbox :=
  mkSandbox (addedPropsMapInSandbox s) (modifiedPropsOriginalValueMapInSandbox s)
    (currentUpdatedPropsValueMap s) (name s) (proxy s) (globalContext s)
    (sandboxRunning s) p.

Section Sandbox.
Context {realm : Realm}.

Definition isPropConfigurable (target : JsObject) (prop : PropertyKey) : bool :=
  match getOwnPropertyDescriptor target prop with
  | Some descriptor => pd_configurable descriptor
  | None => true
  end.

Definition setWindowProp (prop : PropertyKey) (value : JsValue) (toDelete : bool)
  : M World unit :=
  if is_undefined value && toDelete then
    on_window (Delete prop)
  else
    target ← gets rawWindow;
    if isPropConfigurable target prop && negb (is_symbol prop) then
      on_window (Object_defineProperty prop (mkDI None (Some true) None (Some true)));;
      on_window (Put prop value)
    else mret tt.

Definition active : M World unit :=
  running ← gets (fun w => sandboxRunning (this w));
  (if negb running then
     current ← gets (fun w => currentUpdatedPropsValueMap (this w));
     jsmap_forEach (fun v p => setWindowProp p v false) current
   else mret tt);;
  on_this (set_sandboxRunning true).

Definition inactive : M World unit :=
  modified ← gets (fun w => modifiedPropsOriginalValueMapInSandbox (this w));
  jsmap_forEach (fun v p => setWindowProp p v false) modified;;
  added ← gets (fun w => addedPropsMapInSandbox (this w));
  jsmap_forEach (fun _ p => setWindowProp p VUndefined true) added;;
  on_this (set_sandboxRunning false).

(** The constructor: the maps start empty, the sandbox starts running, and
    [fakeWindow] and the proxy are two new objects. *)
Definition new_LegacySandbox (name : string) (globalContext : ObjRef) (next : ObjRef)
  : LegacySandbox * ObjRef :=
  let (fakeWindow, next1) := alloc next in
  let (proxy, next2) := alloc next1 in
  (mkSandbox [] [] [] name proxy globalContext true None, next2).

Definition setTrap (p : PropertyKey) (value originalValue : JsValue) (sync2Window : bool)
  : M World bool :=
  running ← gets (fun w => sandboxRunning (this w));
  if (running : bool) then
    own ← on_window (call_hasOwnProperty p);
    recorded ← gets (fun w => jsmap_has p (modifiedPropsOriginalValueMapInSandbox (this w)));
    (if negb own then on_this (set_added (jsmap_set p value))
     else if negb recorded then on_this (set_modified (jsmap_set p originalValue))
     else mret tt);;
    on_this (set_current (jsmap_set p value));;
    (if sync2Window then on_window (Put p value) else mret tt);;
    on_this (set_latestSetProp (Some p));;
    mret true
  else mret true.

(** The handlers of the proxy. *)
Definition proxy_set (p : PropertyKey) (value : JsValue) : M World bool :=
  originalValue ← gets (fun w => Get (rawWindow w) p);
  setTrap p value originalValue true.

Definition is_self_reference (p : PropertyKey) : bool :=
  bool_decide (p = PStr "top") || bool_decide (p = PStr "parent")
  || bool_decide (p = PStr "window") || bool_decide (p = PStr "self").

Section Get.
Variables isCallable isBoundedFunction isConstructable : JsValue -> bool.
Variable boundFunction : JsValue -> ObjRef -> JsValue.

Definition proxy_get (w : World) (p : PropertyKey) : M (JsMap JsValue JsValue) JsValue :=
  if is_self_reference p then mret (VObj (proxy (this w)))
  else
    let value := Get (rawWindow w) p in
    Common.rebindTarget2Fn isCallable isBoundedFunction isConstructable boundFunction
      (globalContext (this w)) value.

End Get.

Definition proxy_has (w : World) (p : PropertyKey) : bool :=
  HasProperty (rawWindow w) p.

Definition proxy_getOwnPropertyDescriptor (w : World) (p : PropertyKey)
  : option PropertyDescriptor :=
  match getOwnPropertyDescriptor (rawWindow w) p with
  | Some descriptor =>
      if negb (pd_configurable descriptor)
      then Some (mkPD (pd_value descriptor) (pd_writable descriptor)
                      (pd_enumerable descriptor) true)
      else Some descriptor
  | None => None
  end.

Definition proxy_defineProperty (p : PropertyKey) (attributes : DescriptorInit)
  : M World bool :=
  originalValue ← gets (fun w => Get (rawWindow w) p);
  done ← on_window (fun o => let (b, o') := Reflect_defineProperty o p attributes in
                             (Normal b, o'));
  value ← gets (fun w => Get (rawWindow w) p);
  setTrap p value originalValue false;;
  mret done.

(** What guest code and the container can do to a sandbox.  An exception
    raised by an operation reaches the caller; the state it leaves behind
    is the state the next operation starts from. *)
Inductive Operation :=
| OpSet (p : PropertyKey) (value : JsValue)
| OpDefineProperty (p : PropertyKey) (attributes : DescriptorInit)
| OpActive
| OpInactive.

Definition perform (op : Operation) (w : World) : World :=
  match op with
  | OpSet p value => snd (proxy_set p value w)
  | OpDefineProperty p attributes => snd (proxy_defineProperty p attributes w)
  | OpActive => snd (active w)
  | OpInactive => snd (inactive w)
  end.

Definition perform_all (ops : list Operation) (w : World) : World :=
  foldl (fun w op => perform op w) w ops.

(** A run of writes through the proxy: [proxy[k] = v] for each pair. *)
Definition write_all (writes : list (PropertyKey * JsValue)) (w : World) : World :=
  foldl (fun w kv => snd (proxy_set (fst kv) (snd kv) w)) w writes.

(** Notions the statements about the sandbox are phrased with. *)

(** The global finds the method of [Object.prototype] under the name
    [hasOwnProperty], as a data property of its own or of its chain. *)
Definition native_hasOwnProperty (g : JsObject) : bool :=
  match g !! PStr "hasOwnProperty" with
  | Some d => bool_decide (callee (pd_value d) = ObjectHasOwnProperty)
  | None =>
      match inherited !! PStr "hasOwnProperty" with
      | Some (InhData method _) => bool_decide (callee method = ObjectHasOwnProperty)
      | _ => false
      end
  end.

(** The names under which the code of the sandbox finds what it calls:
    the method [hasOwnProperty] of the global and, where the global is
    the global object of that code, the built-ins [Object] and [Reflect].
    The embedding takes [Object] and [Reflect] to be the built-ins. *)
Definition reserved_key (p : PropertyKey) : bool :=
  bool_decide (p ∈ [PStr "hasOwnProperty"; PStr "Object"; PStr "Reflect"]).

(** A key whose assignment reaches the global itself and leaves in place
    what the sandbox calls: the key is not reserved, and the global
    inherits neither an accessor nor a read-only property under it. *)
Definition plain_key (p : PropertyKey) : bool :=
  negb (reserved_key p) &&
  match inherited !! p with
  | None | Some (InhData _ true) => true
  | Some (InhData _ false) | Some (InhAccessor _ _) => false
  end.

(** The value stored under a key, if the key is an own property. *)
Definition value_of (g : JsObject) (k : PropertyKey) : option JsValue :=
  pd_value <$> g !! k.

(** A key that [setWindowProp] is able to write back: not a symbol, and
    configurable where the global has it. *)
Definition restorable_key (g0 : JsObject) (k : PropertyKey) : bool :=
  match g0 !! k with
  | Some d => negb (is_symbol k) && pd_configurable d
  | None => true
  end.

(** Deactivation after a run of writes, starting from the sandbox [sb]
    over the global [g0]: every key recorded as modified holds its
    recorded value again, every key recorded as added is gone, and the
    global holds the values it held at the start. *)
Definition deactivation_restores (sb : LegacySandbox) (g0 : JsObject)
  (writes : list (PropertyKey * JsValue)) : Prop :=
  let w1 := write_all writes (mkWorld sb g0) in
  let w2 := snd (inactive w1) in
  (forall k v, jsmap_get k (modifiedPropsOriginalValueMapInSandbox (this w1)) = Some v ->
               value_of (rawWindow w2) k = Some v) /\
  (forall k, jsmap_has k (addedPropsMapInSandbox (this w1)) = true ->
             rawWindow w2 !! k = None) /\
  (forall k, value_of (rawWindow w2) k = value_of g0 k).

(** A sandbox as the constructor leaves it. *)
Definition legacy0 : LegacySandbox := fst (new_LegacySandbox "app" 0%nat 1%nat).

(** Invariants of a run, relative to the global [g0] the run started from. *)
Section Invariants.
Variable g0 : JsObject.

(** What the two record maps say about the global while the sandbox runs. *)
Record tracked (A Mo : JsMap PropertyKey JsValue) (g : JsObject) : Prop := {
  tr_untouched : forall k,
    jsmap_has k A = false -> jsmap_has k Mo = false -> g !! k = g0 !! k;
  tr_added : forall k,
    jsmap_has k A = true ->
    g0 !! k = None /\ exists d, g !! k = Some d /\ pd_configurable d = true;
  tr_modified : forall k v,
    (k, v) ∈ Mo -> jsmap_has k A = false ->
    exists d0 d, g0 !! k = Some d0 /\ pd_value d0 = v /\ g !! k = Some d
                 /\ pd_configurable d = true /\ is_symbol k = false
}.

(** What the second loop of [inactive] starts from and keeps. *)
Record cleaning (A : JsMap PropertyKey JsValue) (g : JsObject) : Prop := {
  cl_others : forall k, jsmap_has k A = false -> value_of g k = value_of g0 k;
  cl_added : forall k, jsmap_has k A = true ->
    g0 !! k = None /\
    (g !! k = None \/ exists d, g !! k = Some d /\ pd_configurable d = true)
}.

Definition restorable (p : PropertyKey) : Prop :=
  forall d, g0 !! p = Some d -> is_symbol p = false /\ pd_configurable d = true.

End Invariants.

(** The identity of the proxy and of the global, before and after. *)
Definition same_identity (w w' : World) : Prop :=
  proxy (this w') = proxy (this w) /\ globalContext (this w') = globalContext (this w).

Definition keeps_identity {A} (m : M World A) : Prop :=
  forall w, same_identity w (snd (m w)).

(** The last value a run of writes gave a key. *)
Fixpoint last_written (writes : list (PropertyKey * JsValue)) (k : PropertyKey)
  : option JsValue :=
  match writes with
  | [] => None
  | (k', v) :: writes' =>
      match last_written writes' k with
      | Some u => Some u
      | None => if decide (k = k') then Some v else None
      end
  end.

(** A key [active] writes again: a string key that [inactive] restores. *)
Definition replayable_key (g0 : JsObject) (k : PropertyKey) : bool :=
  negb (is_symbol k) && restorable_key g0 k.

(** The key stands in one of the three maps. *)
Definition recorded (k : PropertyKey) (sb : LegacySandbox) : bool :=
  jsmap_has k (addedPropsMapInSandbox sb)
  || jsmap_has k (modifiedPropsOriginalValueMapInSandbox sb)
  || jsmap_has k (currentUpdatedPropsValueMap sb).

(** The three maps are the same. *)
Definition same_records (sb sb' : LegacySandbox) : Prop :=
  addedPropsMapInSandbox sb' = addedPropsMapInSandbox sb /\
  modifiedPropsOriginalValueMapInSandbox sb' = modifiedPropsOriginalValueMapInSandbox sb /\
  currentUpdatedPropsValueMap sb' = currentUpdatedPropsValueMap sb.

(** Calls of [active] and [inactive] only. *)
Definition lifecycle_only (op : Operation) : bool :=
  match op with
  | OpActive | OpInactive => true
  | _ => false
  end.

(** The first value a run of writes gave a key. *)
Fixpoint first_written (writes : list (PropertyKey * JsValue)) (k : PropertyKey)
  : option JsValue :=
  match writes with
  | [] => None
  | (k', v) :: writes' => if decide (k = k') then Some v else first_written writes' k
  end.

(** How often a run of writes wrote a key. *)
Definition writes_to (writes : list (PropertyKey * JsValue)) (k : PropertyKey) : nat :=
  length (filter (fun kv => fst kv = k) writes).

(** What the two record maps hold after the writes [writes] on a fresh
    sandbox over [g0], and what the global holds. *)
Record recorded_exactly (g0 : JsObject) (writes : list (PropertyKey * JsValue))
  (w : World) : Prop := {
  re_running : sandboxRunning (this w) = true;
  re_added : forall k,
    jsmap_get k (addedPropsMapInSandbox (this w))
    = if hasOwnProperty g0 k then None else first_written writes k;
  re_modified : forall k,
    jsmap_get k (modifiedPropsOriginalValueMapInSandbox (this w))
    = if hasOwnProperty g0 k
      then (if (0 <? writes_to writes k)%nat then Some (Get g0 k) else None)
      else (if (1 <? writes_to writes k)%nat then first_written writes k else None);
  re_own : forall k,
    hasOwnProperty (rawWindow w) k = hasOwnProperty g0 k || (0 <? writes_to writes k)%nat;
  re_first : forall k,
    hasOwnProperty g0 k = false -> writes_to writes k = 1%nat ->
    Some (Get (rawWindow w) k) = first_written writes k;
  re_untouched : forall k, writes_to writes k = 0%nat -> rawWindow w !! k = g0 !! k;
  re_native : native_hasOwnProperty (rawWindow w) = true
}.

(** What a run of writes keeps of the global and of the two record maps:
    no key twice in a map, the [configurable] flag of the properties the
    global had, and properties the sandbox created are configurable. *)
Record flags_kept (g0 : JsObject) (w : World) : Prop := {
  fk_added : NoDup (fst <$> addedPropsMapInSandbox (this w));
  fk_modified : NoDup (fst <$> modifiedPropsOriginalValueMapInSandbox (this w));
  fk_present : forall k d0, g0 !! k = Some d0 ->
    exists d, rawWindow w !! k = Some d /\ pd_configurable d = pd_configurable d0;
  fk_created : forall k d, g0 !! k = None -> rawWindow w !! k = Some d ->
    pd_configurable d = true
}.

(** What [setWindowProp(k, v)] leaves under the key, given what it finds
    there: a symbol key and a property that is not configurable are left
    alone. *)
Definition written_back (found : option PropertyDescriptor) (k : PropertyKey) (v : JsValue)
  : option PropertyDescriptor :=
  if is_symbol k then found
  else
    match found with
    | Some d => if pd_configurable d then Some (mkPD v true (pd_enumerable d) true) else Some d
    | None => Some (mkPD v true false true)
    end.

End Sandbox.

End Legacy.

(** ** sandbox/patchers/dynamicAppend/common.ts and the two patchers built
    on it (forStrictSandbox.ts, forLooseSandbox.ts)

    Of the patchers only what they do to the two process wide structures
    is modelled: the activation counters and the five prototype methods
    of [HTMLHeadElement] and [HTMLBodyElement]. *)

Module DynamicAppend.

Record AppCount := mkCount {
  bootstrappingPatchCount : Z;
  mountingPatchCount : Z
}.

Inductive CalcType := Increase | Decrease.
Inductive Status := Bootstrapping | Mounting.

(** [appCount[`${status}PatchCount`]] as a read and as a write *)
Definition patchCount (status : Status) (appCount : AppCount) : Z :=
  match status with
  | Bootstrapping => bootstrappingPatchCount appCount
  | Mounting => mountingPatchCount appCount
  end.

Definition set_patchCount (status : Status) (n : Z) (appCount : AppCount) : AppCount :=
  match status with
  | Bootstrapping => mkCount n (mountingPatchCount appCount)
  | Mounting => mkCount (bootstrappingPatchCount appCount) n
  end.

Definition calcAppCount (appName : string) (calcType : CalcType) (status : Status)
  (appsCounterMap : gmap string AppCount) : gmap string AppCount :=
  let appCount := default (mkCount 0 0) (appsCounterMap !! appName) in
  let appCount' :=
    match calcType with
    | Increase => set_patchCount status (patchCount status appCount + 1) appCount
    | Decrease =>
        if 0 <? patchCount status appCount
        then set_patchCount status (patchCount status appCount - 1) appCount
        else appCount
    end in
  <[appName := appCount']> appsCounterMap.

Definition isAllAppsUnmounted (appsCounterMap : gmap string AppCount) : bool :=
  forallb (fun entry => (bootstrappingPatchCount (snd entry) =? 0)
                        && (mountingPatchCount (snd entry) =? 0))
          (map_to_list appsCounterMap).

Inductive DynamicDomMutationTarget := TargetHead | TargetBody.

(** The pair of closures ([isInvokedByMicroApp], [containerConfigGetter])
    a patcher passes on: the loose patcher closes over its application,
    the strict one looks the element up in the shared element map. *)
Inductive Getters :=
| LooseGetters (appName : string)
| StrictGetters.

Inductive NativeMethod :=
| NativeHeadAppendChild
| NativeHeadInsertBefore
| NativeHeadRemoveChild
| NativeBodyAppendChild
| NativeBodyRemoveChild.

(** A function that may stand in a prototype slot: a method of the
    browser, or one of the two closures the patcher builds around the
    function found in the slot. *)
Inductive DomFunction :=
| Native (m : NativeMethod)
| appendChildOrInsertBefore (rawDOMAppendOrInsertBefore : DomFunction)
    (getters : Getters) (target : DynamicDomMutationTarget)
| removeChild (rawRemoveChild : DomFunction)
    (getters : Getters) (target : DynamicDomMutationTarget).

#[global] Instance DynamicDomMutationTarget_eq_dec : EqDecision DynamicDomMutationTarget.
Proof. solve_decision. Defined.
#[global] Instance Getters_eq_dec : EqDecision Getters.
Proof. solve_decision. Defined.
#[global] Instance NativeMethod_eq_dec : EqDecision NativeMethod.
Proof. solve_decision. Defined.
#[global] Instance DomFunction_eq_dec : EqDecision DomFunction.
Proof. solve_decision. Defined.

(** [f[overwrittenSymbol] === true] *)
Definition overwritten (f : DomFunction) : bool :=
  match f with Native _ => false | _ => true end.

Record Prototypes := mkPrototypes {
  HTMLHeadElement_appendChild : DomFunction;
  HTMLHeadElement_removeChild : DomFunction;
  HTMLBodyElement_appendChild : DomFunction;
  HTMLBodyElement_removeChild : DomFunction;
  HTMLHeadElement_insertBefore : DomFunction
}.

#[global] Instance Prototypes_eq_dec : EqDecision Prototypes.
Proof. solve_decision. Defined.

(** The prototypes as the browser provides them. *)
Definition nativePrototypes : Prototypes :=
  mkPrototypes (Native NativeHeadAppendChild) (Native NativeHeadRemoveChild)
               (Native NativeBodyAppendChild) (Native NativeBodyRemoveChild)
               (Native NativeHeadInsertBefore).

Definition getOverwrittenAppendChildOrInsertBefore
  (rawDOMAppendOrInsertBefore : DomFunction) (getters : Getters)
  (target : DynamicDomMutationTarget) : DomFunction :=
  appendChildOrInsertBefore rawDOMAppendOrInsertBefore getters target.

Definition getNewRemoveChild (rawRemoveChild : DomFunction) (getters : Getters)
  (target : DynamicDomMutationTarget) : DomFunction :=
  removeChild rawRemoveChild getters target.

(** The closure [unpatch] is the record of the five functions it puts
    back. *)
Definition unpatch (captured : Prototypes) (_ : Prototypes) : Prototypes := captured.

Definition patchHTMLDynamicAppendPrototypeFunctions (getters : Getters) (P : Prototypes)
  : Prototypes * Prototypes :=
  let rawHeadAppendChild := HTMLHeadElement_appendChild P in
  let rawBodyAppendChild := HTMLBodyElement_appendChild P in
  let rawHeadInsertBefore := HTMLHeadElement_insertBefore P in
  let P1 :=
    if negb (overwritten rawHeadAppendChild) && negb (overwritten rawBodyAppendChild)
       && negb (overwritten rawHeadInsertBefore)
    then mkPrototypes
           (getOverwrittenAppendChildOrInsertBefore rawHeadAppendChild getters TargetHead)
           (HTMLHeadElement_removeChild P)
           (getOverwrittenAppendChildOrInsertBefore rawBodyAppendChild getters TargetBody)
           (HTMLBodyElement_removeChild P)
           (getOverwrittenAppendChildOrInsertBefore rawHeadInsertBefore getters TargetHead)
    else P in
  let rawHeadRemoveChild := HTMLHeadElement_removeChild P1 in
  let rawBodyRemoveChild := HTMLBodyElement_removeChild P1 in
  let P2 :=
    if negb (overwritten rawHeadRemoveChild) && negb (overwritten rawBodyRemoveChild)
    then mkPrototypes
           (HTMLHeadElement_appendChild P1)
           (getNewRemoveChild rawHeadRemoveChild getters TargetHead)
           (HTMLBodyElement_appendChild P1)
           (getNewRemoveChild rawBodyRemoveChild getters TargetBody)
           (HTMLHeadElement_insertBefore P1)
    else P1 in
  (P2, mkPrototypes rawHeadAppendChild rawHeadRemoveChild rawBodyAppendChild
         rawBodyRemoveChild rawHeadInsertBefore).

(** The process wide state the patchers share. *)
Record Shared := mkShared {
  prototypes : Prototypes;
  appsCounterMap : gmap string AppCount
}.

(** The closure [free] a patcher returns: it remembers the application,
    the [mounting] flag and its own [unpatch]. *)
Record Freer := mkFreer {
  fr_appName : string;
  fr_mounting : bool;
  fr_unpatchDynamicAppendPrototypeFunctions : Prototypes
}.

Definition patchSandbox (getters : Getters) (appName : string) (mounting : bool)
  (s : Shared) : Freer * Shared :=
  let (P, unpatchDynamicAppendPrototypeFunctions) :=
    patchHTMLDynamicAppendPrototypeFunctions getters (prototypes s) in
  let counters :=
    if negb mounting then calcAppCount appName Increase Bootstrapping (appsCounterMap s)
    else appsCounterMap s in
  let counters :=
    if mounting then calcAppCount appName Increase Mounting counters else counters in
  (mkFreer appName mounting unpatchDynamicAppendPrototypeFunctions, mkShared P counters).

Definition patchLooseSandbox (appName : string) (mounting : bool) : Shared -> Freer * Shared :=
  patchSandbox (LooseGetters appName) appName mounting.

Definition patchStrictSandbox (appName : string) (mounting : bool) : Shared -> Freer * Shared :=
  patchSandbox StrictGetters appName mounting.

(** The body of [free], the same in both patchers as far as the shared
    state goes. *)
Definition free (f : Freer) (s : Shared) : Shared :=
  let counters :=
    if negb (fr_mounting f)
    then calcAppCount (fr_appName f) Decrease Bootstrapping (appsCounterMap s)
    else appsCounterMap s in
  let counters :=
    if fr_mounting f then calcAppCount (fr_appName f) Decrease Mounting counters
    else counters in
  let P :=
    if isAllAppsUnmounted counters
    then unpatch (fr_unpatchDynamicAppendPrototypeFunctions f) (prototypes s)
    else prototypes s in
  mkShared P counters.

(** The counters of an application; an application never counted reads
    as zero, as in [calcAppCount]. *)
Definition counters_of (m : gmap string AppCount) (appName : string) : AppCount :=
  default (mkCount 0 0) (m !! appName).

Definition counters_nonneg (m : gmap string AppCount) : Prop :=
  forall appName c, m !! appName = Some c ->
    0 <= bootstrappingPatchCount c /\ 0 <= mountingPatchCount c.

Definition counters_all_zero (m : gmap string AppCount) : Prop :=
  forall appName c, m !! appName = Some c ->
    bootstrappingPatchCount c = 0 /\ mountingPatchCount c = 0.

(** A run of counter updates, and a run of patcher calls. *)
Definition calc_all (ops : list (string * CalcType * Status)) (m : gmap string AppCount)
  : gmap string AppCount :=
  foldl (fun m op => calcAppCount (fst (fst op)) (snd (fst op)) (snd op) m) m ops.

Definition patch_all (callers : list Getters) (P : Prototypes) : Prototypes :=
  foldl (fun P getters => fst (patchHTMLDynamicAppendPrototypeFunctions getters P)) P callers.

(** What the applications do to the shared state over time: a patcher is
    called, or a [free] answered by an earlier call is called (the
    closures are numbered in the order they were made). *)
Inductive Call :=
| CallPatchLoose (appName : string) (mounting : bool)
| CallPatchStrict (appName : string) (mounting : bool)
| CallFree (i : nat).

Definition perform_call (st : Shared * list Freer) (c : Call) : Shared * list Freer :=
  let (s, freers) := st in
  match c with
  | CallPatchLoose appName mounting =>
      let (f, s') := patchLooseSandbox appName mounting s in (s', freers ++ [f])
  | CallPatchStrict appName mounting =>
      let (f, s') := patchStrictSandbox appName mounting s in (s', freers ++ [f])
  | CallFree i =>
      match freers !! i with
      | Some f => (free f s, freers)
      | None => st
      end
  end.

Definition perform_calls (calls : list Call) : Shared * list Freer :=
  foldl perform_call (mkShared nativePrototypes ∅, []) calls.

(** A slot holds a method of the browser, or one overwritten function
    directly around a method of the browser. *)
Definition one_layer (f : DomFunction) : bool :=
  match f with
  | Native _ => true
  | appendChildOrInsertBefore (Native _) _ _ => true
  | removeChild (Native _) _ _ => true
  | _ => false
  end.

Definition single_layer (P : Prototypes) : bool :=
  one_layer (HTMLHeadElement_appendChild P) && one_layer (HTMLHeadElement_removeChild P)
  && one_layer (HTMLBodyElement_appendChild P) && one_layer (HTMLBodyElement_removeChild P)
  && one_layer (HTMLHeadElement_insertBefore P).

(** No slot holds an overwritten function. *)
Definition untouched (P : Prototypes) : bool :=
  negb (overwritten (HTMLHeadElement_appendChild P))
  && negb (overwritten (HTMLHeadElement_removeChild P))
  && negb (overwritten (HTMLBodyElement_appendChild P))
  && negb (overwritten (HTMLBodyElement_removeChild P))
  && negb (overwritten (HTMLHeadElement_insertBefore P)).

End DynamicAppend.

(** ** sandbox/index.ts: the container returned by [createSandboxContainer] *)

Module Container.

Section Container.
(** The sandbox, the patchers and the closures they return act on the
    page; what they do to it is left open.  A [Freer] undoes a patch and
    answers the [Rebuilder] that restores what it captured. *)
Context {World Freer Rebuilder : Type}.
Variables sandbox_active sandbox_inactive : World -> World.
Variable patchAtMounting : World -> list Freer * World.
Variable call_free : Freer -> World -> Rebuilder * World.
Variable call_rebuild : Rebuilder -> World -> World.
(** [bootstrappingFreers] is computed once, when the container is made. *)
Variable bootstrappingFreers : list Freer.

(** What was done to the page, in the order it was done. *)
Inductive Event :=
| Activated
| Deactivated
| PatchedAtMounting
| Freed (free : Freer)
| Rebuilt (rebuild : Rebuilder).

Record State := mkState {
  mountingFreers : list Freer;
  sideEffectsRebuilders : list Rebuilder;
  world : World;
  trace : list Event
}.

Definition do_active (s : State) : State :=
  mkState (mountingFreers s) (sideEffectsRebuilders s)
          (sandbox_active (world s)) (trace s ++ [Activated]).

Definition do_inactive (s : State) : State :=
  mkState (mountingFreers s) (sideEffectsRebuilders s)
          (sandbox_inactive (world s)) (trace s ++ [Deactivated]).

Definition do_rebuild (rebuild : Rebuilder) (s : State) : State :=
  mkState (mountingFreers s) (sideEffectsRebuilders s)
          (call_rebuild rebuild (world s)) (trace s ++ [Rebuilt rebuild]).

Definition do_free (free : Freer) (s : State) : Rebuilder * State :=
  let (rebuild, w) := call_free free (world s) in
  (rebuild, mkState (mountingFreers s) (sideEffectsRebuilders s) w (trace s ++ [Freed free])).

(** [rebuilders.forEach((rebuild) => rebuild())] *)
Definition forEach_rebuild (rebuilders : list Rebuilder) (s : State) : State :=
  foldl (fun s rebuild => do_rebuild rebuild s) s rebuilders.

(** [freers.map((free) => free())] *)
Fixpoint map_free (freers : list Freer) (s : State) : list Rebuilder * State :=
  match freers with
  | [] => ([], s)
  | free :: freers' =>
      let (rebuild, s1) := do_free free s in
      let (rebuilders, s2) := map_free freers' s1 in
      (rebuild :: rebuilders, s2)
  end.

Definition mount (s : State) : State :=
  let s := do_active s in
  let sideEffectsRebuildersAtBootstrapping :=
    take (length bootstrappingFreers) (sideEffectsRebuilders s) in
  let sideEffectsRebuildersAtMounting :=
    drop (length bootstrappingFreers) (sideEffectsRebuilders s) in
  let s :=
    if negb (length sideEffectsRebuildersAtBootstrapping =? 0)%nat
    then forEach_rebuild sideEffectsRebuildersAtBootstrapping s else s in
  let s :=
    let (freers, w) := patchAtMounting (world s) in
    mkState freers (sideEffectsRebuilders s) w (trace s ++ [PatchedAtMounting]) in
  let s :=
    if negb (length sideEffectsRebuildersAtMounting =? 0)%nat
    then forEach_rebuild sideEffectsRebuildersAtMounting s else s in
  mkState (mountingFreers s) [] (world s) (trace s).

Definition unmount (s : State) : State :=
  let (rebuilders, s) := map_free (bootstrappingFreers ++ mountingFreers s) s in
  do_inactive (mkState (mountingFreers s) rebuilders (world s) (trace s)).

(** The page after a list of rebuilders ran in order. *)
Definition rebuild_all (rebuilders : list Rebuilder) (w : World) : World :=
  foldl (fun w rebuild => call_rebuild rebuild w) w rebuilders.

End Container.

Arguments Event : clear implicits.
Arguments State : clear implicits.

End Container.

(** ** sandbox/patchers/windowListener.ts *)

Module WindowListener.
Import Js.

(** An options object; a field left out reads [undefined]. *)
Record AddEventListenerOptions := mkOptions {
  capture : option bool;
  once : option bool;
  passive : option bool
}.

#[global] Instance AddEventListenerOptions_eq_dec : EqDecision AddEventListenerOptions.
Proof. solve_decision. Defined.

(** [rawOptions?: boolean | AddEventListenerOptions] *)
Inductive RawOptions :=
| RawUndefined
| RawNull
| RawBoolean (b : bool)
| RawObject (o : AddEventListenerOptions).

(** A listener is known by the identity of its function object. *)
Record ListenerMapObject := mkListener {
  listener : ObjRef;
  options : AddEventListenerOptions;
  rawListener : ObjRef
}.

#[global] Instance ListenerMapObject_eq_dec : EqDecision ListenerMapObject.
Proof. solve_decision. Defined.

Definition DEFAULT_OPTIONS : AddEventListenerOptions :=
  mkOptions (Some false) (Some false) (Some false).

Definition normalizeOptions (rawOptions : RawOptions) : AddEventListenerOptions :=
  match rawOptions with
  | RawObject o => o
  | RawNull => DEFAULT_OPTIONS
  | RawBoolean b => mkOptions (Some b) (Some false) (Some false)
  | RawUndefined => mkOptions (Some false) (Some false) (Some false)
  end.

(** [listeners.findIndex(...)]; [None] stands for -1. *)
Fixpoint findListenerIndex (listeners : list ListenerMapObject) (rawListener' : ObjRef)
  (options' : AddEventListenerOptions) : option nat :=
  match listeners with
  | [] => None
  | item :: rest =>
      if bool_decide (rawListener item = rawListener')
         && bool_decide (capture (options item) = capture options')
      then Some 0%nat
      else S <$> findListenerIndex rest rawListener' options'
  end.

(** The event listener list the host keeps for [global]: the type, the
    callback and the capture flag of each registration, after the DOM
    standard (a registration equal in all three to an existing one is not
    added; removal takes the one that is equal in all three). *)
Definition Registration : Type := string * ObjRef * bool.

Inductive Api := RawApi | PatchedApi.

Record State := mkState {
  listenerMap : JsMap string (list ListenerMapObject);
  eventListeners : list Registration;
  addEventListener : Api;
  removeEventListener : Api;
  (** what each [once] wrapper closes over: the type, the raw listener and
      the options *)
  onceClosures : list (ObjRef * (string * ObjRef * AddEventListenerOptions));
  nextRef : ObjRef
}.

Definition with_listenerMap (m : JsMap string (list ListenerMapObject)) (s : State) : State :=
  mkState m (eventListeners s) (addEventListener s) (removeEventListener s)
          (onceClosures s) (nextRef s).

Definition with_eventListeners (l : list Registration) (s : State) : State :=
  mkState (listenerMap s) l (addEventListener s) (removeEventListener s)
          (onceClosures s) (nextRef s).

(** [options.capture] as the host reads it *)
Definition flatten (options' : AddEventListenerOptions) : bool :=
  default false (capture options').

Definition rawAddEventListener (type : string) (callback : ObjRef)
  (options' : AddEventListenerOptions) (s : State) : State :=
  let r : Registration := (type, callback, flatten options') in
  if bool_decide (r ∈ eventListeners s) then s
  else with_eventListeners (eventListeners s ++ [r]) s.

Definition rawRemoveEventListener (type : string) (callback : ObjRef)
  (options' : AddEventListenerOptions) (s : State) : State :=
  let r : Registration := (type, callback, flatten options') in
  with_eventListeners (filter (fun x => x <> r) (eventListeners s)) s.

Definition removeCacheListener (type : string) (rawListener' : ObjRef)
  (rawOptions : RawOptions) (s : State) : ListenerMapObject * State :=
  let options' := normalizeOptions rawOptions in
  let cachedTypeListeners := default [] (jsmap_get type (listenerMap s)) in
  match findListenerIndex cachedTypeListeners rawListener' options' with
  | Some findIndex =>
      (* [splice] changes the array held by the map *)
      (default (mkListener rawListener' options' rawListener')
               (cachedTypeListeners !! findIndex),
       with_listenerMap
         (jsmap_set type (delete findIndex cachedTypeListeners) (listenerMap s)) s)
  | None => (mkListener rawListener' options' rawListener', s)
  end.

Definition addCacheListener (type : string) (rawListener' : ObjRef)
  (rawOptions : RawOptions) (s : State) : option ListenerMapObject * State :=
  let options' := normalizeOptions rawOptions in
  let cachedTypeListeners := default [] (jsmap_get type (listenerMap s)) in
  match findListenerIndex cachedTypeListeners rawListener' options' with
  | Some _ => (None, s)
  | None =>
      let (listener', s1) :=
        if default false (once options') then
          let (closure, next) := alloc (nextRef s) in
          (closure,
           mkState (listenerMap s) (eventListeners s) (addEventListener s)
                   (removeEventListener s)
                   ((closure, (type, rawListener', options')) :: onceClosures s) next)
        else (rawListener', s) in
      let cacheListener := mkListener listener' options' rawListener' in
      (Some cacheListener,
       with_listenerMap
         (jsmap_set type (cachedTypeListeners ++ [cacheListener]) (listenerMap s1)) s1)
  end.

(** The two functions [patch] installs on [global]. *)
Definition patched_addEventListener (type : string) (rawListener' : ObjRef)
  (rawOptions : RawOptions) (s : State) : State :=
  match addCacheListener type rawListener' rawOptions s with
  | (None, s1) => s1
  | (Some addListener, s1) =>
      rawAddEventListener type (listener addListener) (options addListener) s1
  end.

Definition patched_removeEventListener (type : string) (rawListener' : ObjRef)
  (rawOptions : RawOptions) (s : State) : State :=
  let (found, s1) := removeCacheListener type rawListener' rawOptions s in
  rawRemoveEventListener type (listener found) (options found) s1.

(** [global.addEventListener(...)] and [global.removeEventListener(...)]:
    whatever stands in the slot is called. *)
Definition global_addEventListener (type : string) (callback : ObjRef)
  (rawOptions : RawOptions) (s : State) : State :=
  match addEventListener s with
  | PatchedApi => patched_addEventListener type callback rawOptions s
  | RawApi => rawAddEventListener type callback (normalizeOptions rawOptions) s
  end.

Definition global_removeEventListener (type : string) (callback : ObjRef)
  (rawOptions : RawOptions) (s : State) : State :=
  match removeEventListener s with
  | PatchedApi => patched_removeEventListener type callback rawOptions s
  | RawApi => rawRemoveEventListener type callback (normalizeOptions rawOptions) s
  end.

(** A [once] wrapper fires: the raw listener runs (its own effects are
    left out), the entry leaves the map, and the host drops a
    registration made with [once]. *)
Definition fire_once (closure : ObjRef) (s : State) : State :=
  match jsmap_get closure (onceClosures s) with
  | Some (type, rawListener', options') =>
      let (_, s1) := removeCacheListener type rawListener' (RawObject options') s in
      rawRemoveEventListener type closure options' s1
  | None => s
  end.

Definition patch (s : State) : State :=
  mkState [] (eventListeners s) PatchedApi PatchedApi (onceClosures s) (nextRef s).

(** [listeners.forEach(...)] inside [free].  [listeners] is the array the
    map holds under [type], and the callback reaches [removeCacheListener],
    which splices that very array: the length is read once, and index [k]
    is visited only if the array, as it is by then, still has it. *)
Fixpoint forEach_listeners (len k : nat) (type : string) (s : State) : State :=
  match len with
  | O => s
  | S len' =>
      let listeners := default [] (jsmap_get type (listenerMap s)) in
      let s' :=
        match listeners !! k with
        | Some item =>
            global_removeEventListener type (rawListener item) (RawObject (options item)) s
        | None => s
        end in
      forEach_listeners len' (S k) type s'
  end.

Definition free (s : State) : State :=
  let s1 :=
    foldl (fun s entry =>
             let type := fst entry in
             let listeners := default [] (jsmap_get type (listenerMap s)) in
             forEach_listeners (length listeners) 0 type s)
          s (listenerMap s) in
  mkState [] (eventListeners s1) RawApi RawApi (onceClosures s1) (nextRef s1).

(** The untouched global: no listener registered. *)
Definition state0 : State := mkState [] [] RawApi RawApi [] 100%nat.

(** What the host is asked to register for an entry of the map. *)
Definition registration_of (type : string) (item : ListenerMapObject) : Registration :=
  (type, listener item, flatten (options item)).

(** What [findListenerIndex] compares. *)
Definition triple_of (item : ListenerMapObject) : ObjRef * option bool :=
  (rawListener item, capture (options item)).

(** [listenerMap.get(type) || []] *)
Definition listeners_of (type : string) (s : State) : list ListenerMapObject :=
  default [] (jsmap_get type (listenerMap s)).

(** What the application does between [patch] and [free]: it adds and
    removes listeners through [global], and the host fires a [once]
    wrapper. *)
Inductive ListenerCall :=
| CallAdd (type : string) (callback : ObjRef) (rawOptions : RawOptions)
| CallRemove (type : string) (callback : ObjRef) (rawOptions : RawOptions)
| CallFire (closure : ObjRef).

Definition listener_call (s : State) (c : ListenerCall) : State :=
  match c with
  | CallAdd type callback rawOptions => global_addEventListener type callback rawOptions s
  | CallRemove type callback rawOptions => global_removeEventListener type callback rawOptions s
  | CallFire closure => fire_once closure s
  end.

Definition listener_calls (calls : list ListenerCall) (s : State) : State :=
  foldl listener_call s calls.

(** The registrations of all entries of the map. *)
Definition cached_registrations (s : State) : list Registration :=
  flat_map (fun entry => registration_of (fst entry) <$> snd entry) (listenerMap s).

(** What holds of the map as long as the patch is in place. *)
Record cache_ok (s : State) : Prop := {
  ok_keys : NoDup (fst <$> listenerMap s);
  ok_add : addEventListener s = PatchedApi;
  ok_remove : removeEventListener s = PatchedApi;
  ok_triples : forall type, NoDup (triple_of <$> listeners_of type s)
}.

(** One step of [listenerMap.forEach] inside [free]. *)
Definition free_step (s : State) (entry : string * list ListenerMapObject) : State :=
  forEach_listeners (length (listeners_of (fst entry) s)) 0 (fst entry) s.

(** The entries [forEach] visits in an array from which each visit
    removes the visited entry: the first, the third, and so on. *)
Fixpoint visited {A} (l : list A) : list A :=
  match l with
  | x :: _ :: l' => x :: visited l'
  | _ => l
  end.

(** The registrations of the entries [free] visits. *)
Definition visited_registrations (s : State) : list Registration :=
  flat_map (fun entry => registration_of (fst entry) <$> visited (snd entry)) (listenerMap s).

End WindowListener.

(** ** sandbox/patchers/interval.ts *)

Module Interval.

Inductive Api := RawApi | PatchedApi.

(** [intervals] is the variable of the closure; [timers] are the
    intervals the window runs, by id; the window numbers its timers
    upwards, [nextId] is the next id it hands out. *)
Record State := mkState {
  intervals : list nat;
  timers : list nat;
  nextId : nat;
  setInterval : Api;
  clearInterval : Api
}.

Definition with_intervals (l : list nat) (s : State) : State :=
  mkState l (timers s) (nextId s) (setInterval s) (clearInterval s).

(** [window.setInterval] and [window.clearInterval] as the browser has them *)
Definition rawWindowInterval (s : State) : nat * State :=
  (nextId s,
   mkState (intervals s) (timers s ++ [nextId s]) (S (nextId s))
           (setInterval s) (clearInterval s)).

Definition rawWindowClearInterval (intervalId : nat) (s : State) : State :=
  mkState (intervals s) (filter (fun id => id <> intervalId) (timers s)) (nextId s)
          (setInterval s) (clearInterval s).

(** The two functions [patch] installs on [global]. *)
Definition patched_clearInterval (intervalId : nat) (s : State) : State :=
  let s := with_intervals (filter (fun id => id <> intervalId) (intervals s)) s in
  rawWindowClearInterval intervalId s.

Definition patched_setInterval (s : State) : nat * State :=
  let (intervalId, s) := rawWindowInterval s in
  (intervalId, with_intervals (intervals s ++ [intervalId]) s).

(** [global.setInterval(...)] and [global.clearInterval(...)]: whatever
    stands in the slot is called. *)
Definition global_setInterval (s : State) : nat * State :=
  match setInterval s with
  | PatchedApi => patched_setInterval s
  | RawApi => rawWindowInterval s
  end.

Definition global_clearInterval (intervalId : nat) (s : State) : State :=
  match clearInterval s with
  | PatchedApi => patched_clearInterval intervalId s
  | RawApi => rawWindowClearInterval intervalId s
  end.

Definition patch (s : State) : State :=
  mkState [] (timers s) (nextId s) PatchedApi PatchedApi.

(** [intervals.forEach(...)] walks the array [intervals] names when
    [free] starts; [clearInterval] binds the variable to new arrays. *)
Definition free (s : State) : State :=
  let s1 := foldl (fun s id => global_clearInterval id s) s (intervals s) in
  mkState (intervals s1) (timers s1) (nextId s1) RawApi RawApi.

(** What happens between [patch] and [free]: the application inside the
    sandbox sets and clears intervals through [global], code outside does
    so through [window]. *)
Inductive Call :=
| GuestSetInterval
| GuestClearInterval (intervalId : nat)
| HostSetInterval
| HostClearInterval (intervalId : nat).

(** The state after a call, with the ids handed to the guest so far. *)
Definition perform (st : State * list nat) (c : Call) : State * list nat :=
  let (s, handed) := st in
  match c with
  | GuestSetInterval => let (id, s') := global_setInterval s in (s', handed ++ [id])
  | GuestClearInterval id => (global_clearInterval id s, handed)
  | HostSetInterval => (snd (rawWindowInterval s), handed)
  | HostClearInterval id => (rawWindowClearInterval id s, handed)
  end.

Definition perform_all (calls : list Call) (s : State) : State * list nat :=
  foldl perform (s, []) calls.

(** No running timer has an id the window has yet to hand out. *)
Definition ids_in_use (s : State) : bool :=
  forallb (fun id => id <? nextId s)%nat (timers s).

(** What holds of the ids between [patch] and [free]: [handed] are the
    ids the guest was given. *)
Record tracked (s : State) (handed : list nat) : Prop := {
  tk_timers : forall id, id ∈ timers s -> (id < nextId s)%nat;
  tk_handed : forall id, id ∈ handed -> (id < nextId s)%nat;
  tk_running : forall id, id ∈ handed -> id ∈ timers s -> id ∈ intervals s;
  tk_own : forall id, id ∈ intervals s -> id ∈ handed;
  tk_set : setInterval s = PatchedApi;
  tk_clear : clearInterval s = PatchedApi
}.

End Interval.

(** ** Regular expressions and the string methods that take them

    Strings are sequences of code units below 256.  The matcher is the
    backtracking one of the language: alternatives are tried left to
    right, quantifiers are greedy, and the first way to match wins. *)

Module RegExp.

Inductive regex :=
| Chr (c : ascii)                  (* a literal character *)
| Lit (s : string)                 (* a literal word *)
| Class (f : ascii -> bool)        (* one character of a class *)
| Bol                              (* [^] *)
| Seq (r1 r2 : regex)
| Alt (r1 r2 : regex)
| Plus (f : ascii -> bool)         (* [c+] for a class [c] *)
| Star (f : ascii -> bool)         (* [c*] for a class [c] *)
| Opt (r : regex)                  (* [r?] *)
| Group (n : nat) (r : regex).     (* the capturing group number [n] *)

(** Where a match attempt stands: the character before the position
    ([None] at the start of the input), the input still ahead, and the
    groups captured so far. *)
Record mstate := mkM {
  prev : option ascii;
  rest : list ascii;
  caps : list (nat * list ascii)
}.

Definition isLineTerminator (c : ascii) : bool :=
  (Ascii.eqb c "010" || Ascii.eqb c "013")%char.

(** [^]: the start of the input, or with the [m] flag the start of a line. *)
Definition at_bol (multiline : bool) (p : option ascii) : bool :=
  match p with
  | None => true
  | Some c => multiline && isLineTerminator c
  end.

Fixpoint strip_literal (lit : list ascii) (p : option ascii) (input : list ascii)
  : option (option ascii * list ascii) :=
  match lit with
  | [] => Some (p, input)
  | c :: lit' =>
      match input with
      | x :: input' => if Ascii.eqb x c then strip_literal lit' (Some x) input' else None
      | [] => None
      end
  end.

(** A greedy run of characters of a class: the longest run is tried
    first, then shorter ones. *)
Fixpoint greedy (f : ascii -> bool) (p : option ascii) (input : list ascii)
  (cs : list (nat * list ascii)) (k : mstate -> option mstate) : option mstate :=
  match input with
  | x :: input' =>
      if f x then
        match greedy f (Some x) input' cs k with
        | Some r => Some r
        | None => k (mkM p input cs)
        end
      else k (mkM p input cs)
  | [] => k (mkM p [] cs)
  end.

Fixpoint rmatch (multiline : bool) (r : regex) (st : mstate)
  (k : mstate -> option mstate) : option mstate :=
  match r with
  | Chr c =>
      match rest st with
      | x :: input' => if Ascii.eqb x c then k (mkM (Some x) input' (caps st)) else None
      | [] => None
      end
  | Lit s =>
      match strip_literal (String.list_ascii_of_string s) (prev st) (rest st) with
      | Some (p, input') => k (mkM p input' (caps st))
      | None => None
      end
  | Class f =>
      match rest st with
      | x :: input' => if f x then k (mkM (Some x) input' (caps st)) else None
      | [] => None
      end
  | Bol => if at_bol multiline (prev st) then k st else None
  | Seq r1 r2 => rmatch multiline r1 st (fun st' => rmatch multiline r2 st' k)
  | Alt r1 r2 =>
      match rmatch multiline r1 st k with
      | Some res => Some res
      | None => rmatch multiline r2 st k
      end
  | Plus f =>
      match rest st with
      | x :: input' => if f x then greedy f (Some x) input' (caps st) k else None
      | [] => None
      end
  | Star f => greedy f (prev st) (rest st) (caps st) k
  | Opt r1 =>
      match rmatch multiline r1 st k with
      | Some res => Some res
      | None => k st
      end
  | Group n r1 =>
      rmatch multiline r1 st
        (fun st' =>
           let text := take (length (rest st) - length (rest st')) (rest st) in
           k (mkM (prev st') (rest st') ((n, text) :: caps st')))
  end.

(** One match: the text skipped before it, the text matched, the groups,
    and where the input goes on. *)
Record found := mkFound {
  skipped : list ascii;
  matched : list ascii;
  groups : list (nat * list ascii);
  after : mstate
}.

(** The leftmost match at or after the current position. *)
Fixpoint search (multiline : bool) (r : regex) (p : option ascii) (input : list ascii)
  (skipped_rev : list ascii) : option found :=
  match rmatch multiline r (mkM p input []) Some with
  | Some st' =>
      Some (mkFound (rev skipped_rev)
                    (take (length input - length (rest st')) input)
                    (caps st') st')
  | None =>
      match input with
      | x :: input' => search multiline r (Some x) input' (x :: skipped_rev)
      | [] => None
      end
  end.

(** [re.test(s)] for a regular expression whose [lastIndex] is 0. *)
Definition test (multiline : bool) (r : regex) (s : string) : bool :=
  match search multiline r None (String.list_ascii_of_string s) [] with
  | Some _ => true
  | None => false
  end.

(** The text of a group; a group that took no part reads as empty. *)
Definition group (n : nat) (m : found) : list ascii :=
  default [] (Js.jsmap_get n (groups m)).

Definition digit_of (c : ascii) : option nat :=
  let n := nat_of_ascii c in
  if (48 <=? n)%nat && (n <=? 57)%nat then Some (n - 48)%nat else None.

(** GetSubstitution: the replacement patterns of a replacement string
    ([$$], [$&], [$`], [$'], [$n], [$nn]) for an expression with
    [ngroups] capturing groups. *)
Fixpoint substitute (ngroups : nat) (template : list ascii) (preceding : list ascii)
  (m : found) : list ascii :=
  match template with
  | [] => []
  | c :: t =>
      if negb (Ascii.eqb c "$") then c :: substitute ngroups t preceding m
      else
        match t with
        | [] => [c]
        | d :: t' =>
            if Ascii.eqb d "$" then "$"%char :: substitute ngroups t' preceding m
            else if Ascii.eqb d "&" then matched m ++ substitute ngroups t' preceding m
            else if Ascii.eqb d "`" then preceding ++ substitute ngroups t' preceding m
            else if Ascii.eqb d "'" then rest (after m) ++ substitute ngroups t' preceding m
            else
              match digit_of d with
              | None => c :: substitute ngroups t preceding m
              | Some n1 =>
                  let one_digit :=
                    if (1 <=? n1)%nat && (n1 <=? ngroups)%nat
                    then group n1 m ++ substitute ngroups t' preceding m
                    else c :: d :: substitute ngroups t' preceding m in
                  match t' with
                  | d2 :: t'' =>
                      match digit_of d2 with
                      | Some n2 =>
                          let nn := (10 * n1 + n2)%nat in
                          if (nn <=? ngroups)%nat then
                            if (1 <=? nn)%nat
                            then group nn m ++ substitute ngroups t'' preceding m
                            else c :: d :: d2 :: substitute ngroups t'' preceding m
                          else one_digit
                      | None => one_digit
                      end
                  | [] => one_digit
                  end
              end
        end
  end.

(** [s.replace(re, ...)] with the [g] flag: every match, left to right;
    after an empty match the search moves one character on. *)
Fixpoint replace_loop (fuel : nat) (multiline : bool) (r : regex)
  (replacement : list ascii -> found -> list ascii)
  (preceding : list ascii) (p : option ascii) (input : list ascii) : list ascii :=
  match fuel with
  | O => input
  | S fuel' =>
      match search multiline r p input [] with
      | None => input
      | Some m =>
          let before := preceding ++ skipped m in
          let out := skipped m ++ replacement before m in
          match matched m, rest (after m) with
          | [], x :: input' =>
              out ++ x :: replace_loop fuel' multiline r replacement
                            (before ++ [x]) (Some x) input'
          | [], [] => out
          | _, _ =>
              out ++ replace_loop fuel' multiline r replacement
                       (before ++ matched m) (prev (after m)) (rest (after m))
          end
      end
  end.

Definition replace_all_with (multiline : bool) (r : regex)
  (replacement : found -> string) (s : string) : string :=
  let input := String.list_ascii_of_string s in
  String.string_of_list_ascii
    (replace_loop (S (length input)) multiline r
       (fun _ m => String.list_ascii_of_string (replacement m)) [] None input).

Definition replace_all (multiline : bool) (ngroups : nat) (r : regex)
  (template : string) (s : string) : string :=
  let input := String.list_ascii_of_string s in
  String.string_of_list_ascii
    (replace_loop (S (length input)) multiline r
       (fun preceding m => substitute ngroups (String.list_ascii_of_string template) preceding m)
       [] None input).

(** [s.replace(re, fn)] without the [g] flag: the first match only. *)
Definition replace_first_with (multiline : bool) (r : regex)
  (replacement : found -> string) (s : string) : string :=
  match search multiline r None (String.list_ascii_of_string s) [] with
  | None => s
  | Some m =>
      String.string_of_list_ascii
        (skipped m ++ String.list_ascii_of_string (replacement m) ++ rest (after m))
  end.

(** Character classes. *)
Definition in_range (lo hi : nat) (c : ascii) : bool :=
  ((lo <=? nat_of_ascii c) && (nat_of_ascii c <=? hi))%nat.

(** [\w] *)
Definition word (c : ascii) : bool :=
  in_range 97 122 c || in_range 65 90 c || in_range 48 57 c || Ascii.eqb c "_".

Definition one_of (s : string) (c : ascii) : bool :=
  existsb (Ascii.eqb c) (String.list_ascii_of_string s).

(** White space and line terminators among the code units below 256. *)
Definition white (c : ascii) : bool :=
  in_range 9 13 c || Ascii.eqb c " " || Ascii.eqb c "160".

Fixpoint trim_start (l : list ascii) : list ascii :=
  match l with
  | c :: l' => if white c then trim_start l' else l
  | [] => []
  end.

(** [s.trim()] *)
Definition trim (s : string) : string :=
  String.string_of_list_ascii (rev (trim_start (rev (trim_start (String.list_ascii_of_string s))))).

(** [s.split(c)[0]] *)
Fixpoint before_first (c : ascii) (l : list ascii) : list ascii :=
  match l with
  | x :: l' => if Ascii.eqb x c then [] else x :: before_first c l'
  | [] => []
  end.

End RegExp.

(** ** sandbox/patchers/css.ts *)

Module Css.
Import RegExp.

(** A rule of a style sheet as the object model presents it; the
    constructor stands for [rule.type]. *)
#[local] Set Warnings "-register-all".
Inductive CSSRule :=
| CSSStyleRule (selectorText cssText : string)
| CSSMediaRule (conditionText : option string) (mediaText : string)
    (cssRules : list CSSRule)
| CSSSupportsRule (conditionText : option string) (cssText : string)
    (cssRules : list CSSRule)
| CSSOtherRule (cssText : string).

(** [/((?:[^\w\-.#]|^)(body|html|:root))/gm] *)
Definition rootSelectorRE : regex :=
  Group 1 (Seq (Alt (Class (fun c => negb (word c || one_of "-.#" c))) Bol)
               (Group 2 (Alt (Lit "body") (Alt (Lit "html") (Lit ":root"))))).

(** [/(html[^\w{[]+)/gm] *)
Definition rootCombinationRE : regex :=
  Group 1 (Seq (Lit "html") (Plus (fun c => negb (word c || one_of "{[" c)))).

(** [/(html[^\w{]+)(\+|~)/gm] *)
Definition siblingSelectorRE : regex :=
  Seq (Group 1 (Seq (Lit "html") (Plus (fun c => negb (word c || one_of "{" c)))))
      (Group 2 (Alt (Chr "+") (Chr "~"))).

(** [/^[\s\S]+{/] *)
Definition selectorsRE : regex :=
  Seq Bol (Seq (Plus (fun _ => true)) (Chr "{")).

(** [/(^|,\n?)([^,]+)/g] *)
Definition selectorItemRE : regex :=
  Seq (Group 1 (Alt Bol (Seq (Chr ",") (Opt (Chr "010")))))
      (Group 2 (Plus (fun c => negb (Ascii.eqb c ",")))).

(** [/^ */] *)
Definition leadingSpacesRE : regex :=
  Seq Bol (Star (fun c => Ascii.eqb c " ")).

Definition str (l : list ascii) : string := String.string_of_list_ascii l.

(** [a || b] on strings: the empty string and [undefined] give way. *)
Definition or_else (a : option string) (b : string) : string :=
  match a with
  | Some x => if bool_decide (x = "") then b else x
  | None => b
  end.

(** Every [test] below runs on an expression whose [lastIndex] is 0: the
    two expressions of [ruleStyle] are made anew by each call, and a
    [replace] with the [g] flag, like a failed [test], leaves 0 behind. *)
Definition ruleStyle (selectorText cssText : string) (prefix : string) : string :=
  let selector := trim selectorText in
  if bool_decide (selector = "html") || bool_decide (selector = "body")
     || bool_decide (selector = ":root")
  then replace_all true 2 rootSelectorRE prefix cssText
  else
    let cssText :=
      if test true rootCombinationRE selectorText then
        if negb (test true siblingSelectorRE selectorText)
        then replace_all true 1 rootCombinationRE "" cssText
        else cssText
      else cssText in
    replace_first_with false selectorsRE
      (fun selectors =>
         replace_all_with false selectorItemRE
           (fun found_item =>
              let item := str (matched found_item) in
              let p := str (group 1 found_item) in
              let s := str (group 2 found_item) in
              if test true rootSelectorRE item then
                replace_all_with true rootSelectorRE
                  (fun found_m =>
                     match matched found_m with
                     | m0 :: _ =>
                         if one_of ",(" m0 then String m0 prefix else prefix
                     | [] => prefix
                     end)
                  item
              else
                p +:+ prefix +:+ " "
                  +:+ replace_first_with false leadingSpacesRE (fun _ => "") s)
           (str (matched selectors)))
      cssText.

(** [ruleMedia] and [ruleSupport], given the text [css] that [rewrite]
    made of the nested rules. *)
Definition ruleMedia (conditionText : option string) (mediaText : string) (css : string)
  : string :=
  "@media " +:+ or_else conditionText mediaText +:+ " {" +:+ css +:+ "}".

Definition ruleSupport (conditionText : option string) (cssText : string) (css : string)
  : string :=
  "@supports "
    +:+ or_else conditionText
          (str (before_first "{" (String.list_ascii_of_string cssText)))
    +:+ " {" +:+ css +:+ "}".

(** One step of the loop of [rewrite]: the text a rule contributes. *)
Fixpoint rewrite_rule (prefix : string) (rule : CSSRule) : string :=
  match rule with
  | CSSStyleRule selectorText cssText => ruleStyle selectorText cssText prefix
  | CSSMediaRule conditionText mediaText cssRules =>
      ruleMedia conditionText mediaText
        (foldr (fun r css => rewrite_rule prefix r +:+ css) "" cssRules)
  | CSSSupportsRule conditionText cssText cssRules =>
      ruleSupport conditionText cssText
        (foldr (fun r css => rewrite_rule prefix r +:+ css) "" cssRules)
  | CSSOtherRule cssText => cssText
  end.

Definition rewrite (rules : list CSSRule) (prefix : string) : string :=
  foldr (fun r css => rewrite_rule prefix r +:+ css) "" rules.

(** A style element: its text, whether it carries [ModifiedTag], and the
    prefixes of the observers [process] has put on its child list. *)
Record HTMLStyleElement := mkStyle {
  textContent : string;
  modified : bool;
  observers : list string
}.

Section Process.
(** The rules the browser reads out of a text, as [swapNode.sheet.cssRules]
    shows them once the text is the only child of the swap node. *)
Variable cssRules_of : string -> list CSSRule.

Definition process (styleNode : HTMLStyleElement) (prefix : string) : HTMLStyleElement :=
  if modified styleNode then styleNode
  else if negb (bool_decide (textContent styleNode = "")) then
    let rules := cssRules_of (textContent styleNode) in
    let css := rewrite rules prefix in
    mkStyle css true (observers styleNode)
  else mkStyle (textContent styleNode) (modified styleNode)
               (observers styleNode ++ [prefix]).

Inductive MutationType := childList | attributes | characterData.

(** The callback of the observer: [sheet] is what [styleNode.sheet?.cssRules
    ?? []] reads when a mutation is handled. *)
Fixpoint mutator (prefix : string) (sheet : list CSSRule) (mutations : list MutationType)
  (styleNode : HTMLStyleElement) : HTMLStyleElement :=
  match mutations with
  | [] => styleNode
  | mutation :: mutations' =>
      if modified styleNode then styleNode
      else
        let styleNode :=
          match mutation with
          | childList => mkStyle (rewrite sheet prefix) true (observers styleNode)
          | _ => styleNode
          end in
        mutator prefix sheet mutations' styleNode
  end.

End Process.

Definition QiankunCSSRewriteAttr : string := "data-qiankun".

Definition quote : string := String "034" "".

(** [`${tag}[${attr}="${appName}"]`] *)
Definition scope_prefix (tag attr appName : string) : string :=
  tag +:+ "[" +:+ attr +:+ "=" +:+ quote +:+ appName +:+ quote +:+ "]".

(** [s.toLowerCase()] on the letters A to Z *)
Definition toLowerCase (s : string) : string :=
  str (map (fun c => if in_range 65 90 c then ascii_of_nat (nat_of_ascii c + 32) else c)
           (String.list_ascii_of_string s)).

(** The exported [process]: [appWrapper] may be missing, and a shadow
    root has no [tagName]. *)
Definition process_stylesheet (cssRules_of : string -> list CSSRule)
  (appWrapper : option (option string)) (stylesheetElement_tagName : string)
  (stylesheetElement : HTMLStyleElement) (appName : string) : HTMLStyleElement :=
  match appWrapper with
  | None => stylesheetElement
  | Some mountDOM_tagName =>
      let tag := toLowerCase (default "" mountDOM_tagName) in
      if negb (bool_decide (tag = "")) && bool_decide (stylesheetElement_tagName = "STYLE")
      then process cssRules_of stylesheetElement
             (scope_prefix tag QiankunCSSRewriteAttr appName)
      else stylesheetElement
  end.

Definition is_childList (mutation : MutationType) : bool :=
  match mutation with childList => true | _ => false end.

(** A style rule stands among the rules, at whatever depth. *)
Fixpoint has_style_rule (rule : CSSRule) : bool :=
  match rule with
  | CSSStyleRule _ _ => true
  | CSSMediaRule _ _ cssRules => existsb has_style_rule cssRules
  | CSSSupportsRule _ _ cssRules => existsb has_style_rule cssRules
  | CSSOtherRule _ => false
  end.

(** [selector === 'html' || selector === 'body' || selector === ':root'] *)
Definition is_root_selector (selector : string) : bool :=
  bool_decide (selector = "html") || bool_decide (selector = "body")
  || bool_decide (selector = ":root").

(** What [/^ */] leaves of a text. *)
Fixpoint drop_spaces (l : list ascii) : list ascii :=
  match l with
  | c :: l' => if Ascii.eqb c " " then drop_spaces l' else l
  | [] => []
  end.

(** The character before the end of the input. *)
Fixpoint last_char (p : option ascii) (l : list ascii) : option ascii :=
  match l with
  | [] => p
  | x :: l' => last_char (Some x) l'
  end.

End Css.

(** ** apis.ts, and what loadApp and createSandboxContainer read of the
    configuration *)

Module Apis.

(** The fields of [sandbox] the code reads when it is an object; a field
    left out reads [undefined]. *)
Record SandboxOptions := mkSandboxOptions {
  strictStyleIsolation : option bool;
  experimentalStyleIsolation : option bool;
  loose : option bool;
  speedy : option bool
}.

#[global] Instance SandboxOptions_eq_dec : EqDecision SandboxOptions.
Proof. solve_decision. Defined.

(** [sandbox?: boolean | {...}] *)
Inductive SandboxValue :=
| SandboxBoolean (b : bool)
| SandboxObject (o : SandboxOptions).

#[global] Instance SandboxValue_eq_dec : EqDecision SandboxValue.
Proof. solve_decision. Defined.

(** What the running browser offers: [window.Proxy], and what
    [isConstDestructAssignmentSupported()] answers. *)
Record Browser := mkBrowser {
  hasProxy : bool;
  constDestructAssignmentSupported : bool
}.

Section Configuration.
(** The other fields of a configuration are copied by the spreads. *)
Context {Others : Type}.

Record FrameworkConfiguration := mkConfiguration {
  sandbox : option SandboxValue;
  singular : option bool;
  others : Others
}.

(** [const { sandbox = true } = configuration] *)
Definition sandbox_or_true (configuration : FrameworkConfiguration) : SandboxValue :=
  default (SandboxBoolean true) (sandbox configuration).

Definition truthy (v : SandboxValue) : bool :=
  match v with
  | SandboxBoolean b => b
  | SandboxObject _ => true
  end.

Definition with_sandbox (v : SandboxValue) (configuration : FrameworkConfiguration)
  : FrameworkConfiguration :=
  mkConfiguration (Some v) (singular configuration) (others configuration).

(** [typeof sandbox === 'object' ? { ...sandbox, loose: true } : { loose: true }] *)
Definition set_loose (v : SandboxValue) : SandboxValue :=
  match v with
  | SandboxObject o =>
      SandboxObject (mkSandboxOptions (strictStyleIsolation o) (experimentalStyleIsolation o)
                                      (Some true) (speedy o))
  | SandboxBoolean _ => SandboxObject (mkSandboxOptions None None (Some true) None)
  end.

(** [typeof sandbox === 'object' ? { ...sandbox, speedy: false } : { speedy: false }] *)
Definition unset_speedy (v : SandboxValue) : SandboxValue :=
  match v with
  | SandboxObject o =>
      SandboxObject (mkSandboxOptions (strictStyleIsolation o) (experimentalStyleIsolation o)
                                      (loose o) (Some false))
  | SandboxBoolean _ => SandboxObject (mkSandboxOptions None None None (Some false))
  end.

(** [sandbox === true || (typeof sandbox === 'object' && sandbox.speedy !== false)] *)
Definition wants_speedy (v : SandboxValue) : bool :=
  match v with
  | SandboxBoolean b => b
  | SandboxObject o => negb (bool_decide (speedy o = Some false))
  end.

Definition autoDowngradeForLowVersionBrowser (browser : Browser)
  (configuration : FrameworkConfiguration) : FrameworkConfiguration :=
  let sandbox' := sandbox_or_true configuration in
  if truthy sandbox' then
    if negb (hasProxy browser) then with_sandbox (set_loose sandbox') configuration
    else if negb (constDestructAssignmentSupported browser) && wants_speedy sandbox'
    then with_sandbox (unset_speedy sandbox') configuration
    else configuration
  else configuration.

(** loadApp: [typeof sandbox === 'object' && !!sandbox.loose] and
    [typeof sandbox === 'object' ? sandbox.speedy !== false : true] *)
Definition useLooseSandbox (configuration : FrameworkConfiguration) : bool :=
  match sandbox_or_true configuration with
  | SandboxObject o => default false (loose o)
  | SandboxBoolean _ => false
  end.

Definition speedySandbox (configuration : FrameworkConfiguration) : bool :=
  match sandbox_or_true configuration with
  | SandboxObject o => negb (bool_decide (speedy o = Some false))
  | SandboxBoolean _ => true
  end.

(** createSandboxContainer: the sandbox it makes. *)
Inductive SandBoxKind :=
| LegacySandbox
| ProxySandbox (speedy' : bool)
| SnapshotSandbox.

Definition createSandboxContainer (browser : Browser) (useLooseSandbox' speedySandBox : bool)
  : SandBoxKind :=
  if hasProxy browser then
    if useLooseSandbox' then LegacySandbox else ProxySandbox speedySandBox
  else SnapshotSandbox.

(** loadApp makes a container only [if (sandbox)]. *)
Definition sandbox_of (browser : Browser) (configuration : FrameworkConfiguration)
  : option SandBoxKind :=
  if truthy (sandbox_or_true configuration)
  then Some (createSandboxContainer browser (useLooseSandbox configuration)
                                    (speedySandbox configuration))
  else None.

End Configuration.

Arguments FrameworkConfiguration : clear implicits.

(** [registerMicroApps]: of an application only the name is read here;
    [registered] lists the names handed to [registerApplication], in order. *)
Section Register.
Context {AppConfig : Type}.

Record RegistrableApp := mkApp {
  name : string;
  appConfig : AppConfig
}.

Record Registry := mkRegistry {
  microApps : list RegistrableApp;
  registered : list string
}.

Definition registerMicroApps (apps : list RegistrableApp) (s : Registry) : Registry :=
  let unregisteredApps :=
    filter (fun app =>
              negb (existsb (fun registeredApp => bool_decide (name registeredApp = name app))
                            (microApps s)) = true) apps in
  mkRegistry (microApps s ++ unregisteredApps)
             (registered s ++ (name <$> unregisteredApps)).

Definition register_all (batches : list (list RegistrableApp)) (s : Registry) : Registry :=
  foldl (fun s apps => registerMicroApps apps s) s batches.

Definition names_of (s : Registry) : list string := name <$> microApps s.

Definition distinct_names (apps : list RegistrableApp) : bool :=
  bool_decide (NoDup (name <$> apps)).

End Register.

Arguments RegistrableApp : clear implicits.
Arguments Registry : clear implicits.

End Apis.

(* ===================================================================== *)
(** * Part II: properties *)
(* ===================================================================== *)

(** ** Facts about ordered maps *)

Module JsFacts.
Import Js.

Section JsMapFacts.
Context {K V : Type} `{EqDecision K}.
Implicit Types (m : JsMap K V) (k : K) (v : V).

Lemma jsmap_get_elem_of k v m : jsmap_get k m = Some v -> (k, v) ∈ m.
Proof.
  induction m as [|[k' v'] m IH]; simpl; [done|].
  case_decide; intros Hg.
  - simplify_eq. left.
  - right. auto.
Qed.

Lemma jsmap_has_elem_of k v m : (k, v) ∈ m -> jsmap_has k m = true.
Proof.
  unfold jsmap_has. induction m as [|[k' v'] m IH]; simpl.
  - by intros ?%elem_of_nil.
  - intros [Heq|Hin]%elem_of_cons; case_decide; simplify_eq; auto.
Qed.

Lemma jsmap_has_true k m : jsmap_has k m = true -> exists v, (k, v) ∈ m.
Proof.
  unfold jsmap_has. destruct (jsmap_get k m) as [v|] eqn:E; [|done].
  intros _. exists v. by apply jsmap_get_elem_of.
Qed.

Lemma jsmap_has_set k k' v m :
  jsmap_has k (jsmap_set k' v m) = bool_decide (k = k') || jsmap_has k m.
Proof.
  unfold jsmap_has. induction m as [|[k2 v2] m IH]; simpl.
  - case_bool_decide; case_decide; simplify_eq; done.
  - destruct (decide (k' = k2)) as [->|Hne]; simpl.
    + case_bool_decide; case_decide; simplify_eq; done.
    + case_bool_decide; case_decide; simplify_eq; simpl; try done.
Qed.

Lemma elem_of_jsmap_set k k' v v' m :
  (k, v) ∈ jsmap_set k' v' m -> (k = k' /\ v = v') \/ (k, v) ∈ m.
Proof.
  induction m as [|[k2 v2] m IH]; simpl.
  - intros ?%list_elem_of_singleton. simplify_eq. by left.
  - case_decide.
    + intros [?|?]%elem_of_cons; simplify_eq; [by left|]. right. by right.
    + intros [?|?]%elem_of_cons; simplify_eq; [right; left|].
      destruct IH as [?|?]; auto. right. by right.
Qed.

End JsMapFacts.
Section MoreJsMapFacts.
Context {K V : Type} `{EqDecision K}.
Implicit Types (m : JsMap K V) (k : K) (v : V).

Lemma jsmap_get_set k k' v m :
  jsmap_get k (jsmap_set k' v m) = if decide (k = k') then Some v else jsmap_get k m.
Proof.
  induction m as [|[k2 v2] m IH]; simpl.
  - by repeat case_decide.
  - destruct (decide (k' = k2)) as [->|Hne]; simpl; repeat case_decide; simplify_eq; done.
Qed.

Lemma jsmap_set_keys k v m :
  fst <$> jsmap_set k v m
  = if jsmap_has k m then fst <$> m else (fst <$> m) ++ [k].
Proof.
  unfold jsmap_has. induction m as [|[k2 v2] m IH]; csimpl; [done|].
  destruct (decide (k = k2)) as [->|Hne]; csimpl; [done|].
  rewrite IH. by destruct (jsmap_get k m).
Qed.

Lemma jsmap_has_keys k m : jsmap_has k m = true <-> k ∈ (fst <$> m).
Proof.
  split.
  - intros [v Hin]%jsmap_has_true. apply list_elem_of_fmap. by exists (k, v).
  - intros [[k' v] [-> Hin]]%list_elem_of_fmap. by eapply jsmap_has_elem_of.
Qed.

Lemma jsmap_set_NoDup k v m : NoDup (fst <$> m) -> NoDup (fst <$> jsmap_set k v m).
Proof.
  intros Hm. rewrite jsmap_set_keys. destruct (jsmap_has k m) eqn:E; [done|].
  apply NoDup_app. split; [done|]. split; [|apply NoDup_singleton].
  intros x Hx ->%list_elem_of_singleton. apply jsmap_has_keys in Hx. congruence.
Qed.

Lemma jsmap_get_NoDup k v m : NoDup (fst <$> m) -> (k, v) ∈ m -> jsmap_get k m = Some v.
Proof.
  induction m as [|[k2 v2] m IH]; simpl; [by intros _ ?%elem_of_nil|].
  intros [Hnin Hm]%NoDup_cons [Heq|Hin]%elem_of_cons.
  - simplify_eq. by rewrite decide_True.
  - rewrite decide_False; [auto|]. intros ->. apply Hnin, list_elem_of_fmap.
    by exists (k2, v).
Qed.

End MoreJsMapFacts.

End JsFacts.

(** ** The legacy sandbox *)

Module LegacyFacts.
Import Js Legacy JsFacts.

Ltac unfold_m :=
  unfold proxy_set, proxy_defineProperty, setTrap, setWindowProp, on_this, on_window,
    mbind, mret, M_bind, M_ret, bind, ret, gets, modify in *.

(** Closed statements are computed in the realm of an object literal. *)
#[local] Existing Instance object_literal.

Section Basics.
Context {realm : Realm}.

(** Where the global finds the method of [Object.prototype], the call in
    [setTrap] is the test for an own property. *)
Lemma call_hasOwnProperty_native (g : JsObject) p :
  native_hasOwnProperty g = true ->
  call_hasOwnProperty p g = (Normal (hasOwnProperty g p), g).
Proof.
  unfold native_hasOwnProperty, call_hasOwnProperty, Get.
  destruct (g !! PStr "hasOwnProperty") as [d|].
  - by intros ->%bool_decide_eq_true.
  - destruct (inherited !! PStr "hasOwnProperty") as [[method wr|gt st]|]; [|done|done].
    by intros ->%bool_decide_eq_true.
Qed.

Lemma native_hasOwnProperty_lookup (g g' : JsObject) :
  g' !! PStr "hasOwnProperty" = g !! PStr "hasOwnProperty" ->
  native_hasOwnProperty g' = native_hasOwnProperty g.
Proof. unfold native_hasOwnProperty. by intros ->. Qed.

Lemma reserved_key_not_method p : reserved_key p = false -> p <> PStr "hasOwnProperty".
Proof.
  unfold reserved_key. intros H%bool_decide_eq_false ->. apply H. left.
Qed.

Lemma plain_key_not_method p : plain_key p = true -> p <> PStr "hasOwnProperty".
Proof.
  unfold plain_key. intros [H _]%andb_true_iff.
  by apply reserved_key_not_method, negb_true_iff.
Qed.

(** An assignment to a plain key is decided by the own property. *)
Lemma Put_plain p v (g : JsObject) :
  plain_key p = true ->
  Put p v g
  = match g !! p with
    | Some d =>
        if pd_writable d
        then (Normal tt, <[p := mkPD v true (pd_enumerable d) (pd_configurable d)]> g)
        else (ThrowTypeError, g)
    | None => (Normal tt, <[p := mkPD v true true true]> g)
    end.
Proof.
  unfold plain_key, Put. intros [_ H]%andb_true_iff.
  destruct (g !! p) as [d|]; [done|].
  by destruct (inherited !! p) as [[u []|gt st]|].
Qed.

Lemma Get_own (g : JsObject) p d : g !! p = Some d -> Get g p = pd_value d.
Proof. unfold Get. by intros ->. Qed.

(** Writes while the sandbox is stopped. *)
Lemma proxy_set_not_running p v w :
  sandboxRunning (this w) = false -> proxy_set p v w = (Normal true, w).
Proof. intros H. unfold_m. simpl. by rewrite H. Qed.

Lemma setWindowProp_restore sb g k v d :
  g !! k = Some d -> pd_configurable d = true -> is_symbol k = false ->
  setWindowProp k v false (mkWorld sb g)
  = (Normal tt, mkWorld sb (<[k := mkPD v true (pd_enumerable d) true]> g)).
Proof.
  intros Hk Hc Hs. unfold_m. simpl.
  rewrite andb_false_r. unfold isPropConfigurable, getOwnPropertyDescriptor.
  simpl. rewrite Hk, Hc, Hs. simpl.
  unfold Object_defineProperty, Reflect_defineProperty. rewrite Hk, Hc. simpl.
  unfold Put. rewrite lookup_insert_eq. simpl. by rewrite insert_insert_eq.
Qed.

Lemma setWindowProp_symbol sb g k v :
  is_symbol k = true -> setWindowProp k v false (mkWorld sb g) = (Normal tt, mkWorld sb g).
Proof.
  intros Hs. unfold_m. simpl. rewrite andb_false_r, Hs, andb_false_r. done.
Qed.

Lemma setWindowProp_delete sb g k :
  setWindowProp k VUndefined true (mkWorld sb g)
  = (let (r, g') := Delete k g in (r, mkWorld sb g')).
Proof. done. Qed.

Lemma Put_lookup_ne p v (g : JsObject) k :
  plain_key p = true -> k <> p -> snd (Put p v g) !! k = g !! k.
Proof.
  intros Hp Hne. rewrite Put_plain by done.
  destruct (g !! p) as [d|]; [destruct (pd_writable d)|]; simpl;
    by rewrite ?lookup_insert_ne.
Qed.

Lemma Put_lookup_some p v (g : JsObject) d :
  g !! p = Some d ->
  exists d', snd (Put p v g) !! p = Some d' /\ pd_configurable d' = pd_configurable d.
Proof.
  intros Hg. unfold Put. rewrite Hg. destruct (pd_writable d); simpl.
  - rewrite lookup_insert_eq. by eexists.
  - by exists d.
Qed.

Lemma Put_lookup_none p v (g : JsObject) :
  plain_key p = true ->
  g !! p = None -> snd (Put p v g) !! p = Some (mkPD v true true true).
Proof. intros Hp Hg. rewrite Put_plain, Hg by done. simpl. by rewrite lookup_insert_eq. Qed.

Lemma Put_native p v (g : JsObject) :
  plain_key p = true ->
  native_hasOwnProperty (snd (Put p v g)) = native_hasOwnProperty g.
Proof.
  intros Hp. apply native_hasOwnProperty_lookup, Put_lookup_ne; [done|].
  intros E. by apply (plain_key_not_method p).
Qed.

(** The effect of one write on the record maps and on the global. *)
Lemma proxy_set_effect w p v :
  sandboxRunning (this w) = true ->
  native_hasOwnProperty (rawWindow w) = true ->
  let w' := snd (proxy_set p v w) in
  addedPropsMapInSandbox (this w')
  = (if hasOwnProperty (rawWindow w) p then addedPropsMapInSandbox (this w)
     else jsmap_set p v (addedPropsMapInSandbox (this w))) /\
  modifiedPropsOriginalValueMapInSandbox (this w')
  = (if hasOwnProperty (rawWindow w) p
        && negb (jsmap_has p (modifiedPropsOriginalValueMapInSandbox (this w)))
     then jsmap_set p (Get (rawWindow w) p) (modifiedPropsOriginalValueMapInSandbox (this w))
     else modifiedPropsOriginalValueMapInSandbox (this w)) /\
  rawWindow w' = snd (Put p v (rawWindow w)) /\
  sandboxRunning (this w') = true.
Proof.
  destruct w as [[A Mo C n px gc r l] g]. simpl. intros -> Hn.
  unfold_m. simpl. rewrite call_hasOwnProperty_native by done.
  destruct (hasOwnProperty g p); simpl;
    [destruct (jsmap_has p Mo); simpl|];
    destruct (Put p v g) as [[[]|] g']; simpl; done.
Qed.

Lemma proxy_set_native w p v :
  sandboxRunning (this w) = true ->
  native_hasOwnProperty (rawWindow w) = true ->
  plain_key p = true ->
  native_hasOwnProperty (rawWindow (snd (proxy_set p v w))) = true.
Proof.
  intros Hrun Hn Hp. destruct (proxy_set_effect w p v Hrun Hn) as (_ & _ & -> & _).
  by rewrite Put_native.
Qed.

End Basics.

Section Restore.
Context {realm : Realm}.
Variable g0 : JsObject.

Lemma tracked_insert A Mo (g : JsObject) k d d1 :
  tracked g0 A Mo g -> g !! k = Some d -> pd_configurable d1 = true ->
  jsmap_has k A = true \/ jsmap_has k Mo = true ->
  tracked g0 A Mo (<[k := d1]> g).
Proof.
  intros [H1 H2 H3] Hg Hc Hk. split.
  - intros k' HA HMo. rewrite lookup_insert_ne; [auto|]. intros ->.
    destruct Hk; congruence.
  - intros k' HA. destruct (H2 k' HA) as (? & d2 & ? & ?). split; [done|].
    destruct (decide (k' = k)) as [->|Hne].
    + exists d1. by rewrite lookup_insert_eq.
    + exists d2. by rewrite lookup_insert_ne.
  - intros k' u Hin HA. destruct (H3 k' u Hin HA) as (d0 & d2 & ? & ? & ? & ? & ?).
    destruct (decide (k' = k)) as [->|Hne].
    + exists d0, d1. by rewrite lookup_insert_eq.
    + exists d0, d2. by rewrite lookup_insert_ne.
Qed.

Lemma proxy_set_tracked w p v :
  sandboxRunning (this w) = true ->
  native_hasOwnProperty (rawWindow w) = true ->
  plain_key p = true ->
  restorable g0 p ->
  tracked g0 (addedPropsMapInSandbox (this w))
          (modifiedPropsOriginalValueMapInSandbox (this w)) (rawWindow w) ->
  let w' := snd (proxy_set p v w) in
  sandboxRunning (this w') = true /\
  tracked g0 (addedPropsMapInSandbox (this w'))
          (modifiedPropsOriginalValueMapInSandbox (this w')) (rawWindow w').
Proof.
  intros Hrun Hn Hpl Hp [H1 H2 H3] w'.
  destruct (proxy_set_effect w p v Hrun Hn) as (HA & HMo & Hg & Hr).
  fold w' in HA, HMo, Hg, Hr. rewrite HA, HMo, Hg. split; [done|].
  set (A := addedPropsMapInSandbox (this w)) in *.
  set (Mo := modifiedPropsOriginalValueMapInSandbox (this w)) in *.
  set (g := rawWindow w) in *.
  pose proof (fun k => Put_lookup_ne p v g k Hpl) as Put_lookup_ne.
  pose proof (Put_lookup_none p v g Hpl) as Put_lookup_none.
  unfold hasOwnProperty.
  destruct (g !! p) as [d|] eqn:Hgp; simpl; rewrite ?(Get_own g p d Hgp).
  - (* the key is an own property of the global *)
    destruct (Put_lookup_some p v g d Hgp) as (d' & Hd' & Hc').
    destruct (jsmap_has p Mo) eqn:HpMo; simpl.
    + (* already recorded as modified *)
      split.
      * intros k HkA HkMo. rewrite Put_lookup_ne; [auto|congruence].
      * intros k HkA. destruct (H2 k HkA) as (? & d1 & ? & ?). split; [done|].
        destruct (decide (k = p)) as [->|Hne].
        -- exists d'. split; [done|]. congruence.
        -- exists d1. by rewrite Put_lookup_ne.
      * intros k u Hin HkA. destruct (H3 k u Hin HkA) as (d0 & d1 & ? & ? & ? & ? & ?).
        destruct (decide (k = p)) as [->|Hne].
        -- exists d0, d'. repeat split; try done. congruence.
        -- exists d0, d1. by rewrite Put_lookup_ne.
    + (* first write to an existing key: the value is recorded *)
      split.
      * intros k HkA. rewrite jsmap_has_set. intros [Hne HkMo]%orb_false_elim.
        apply bool_decide_eq_false in Hne. rewrite Put_lookup_ne; auto.
      * intros k HkA. destruct (H2 k HkA) as (? & d1 & ? & ?). split; [done|].
        destruct (decide (k = p)) as [->|Hne].
        -- exists d'. split; [done|]. congruence.
        -- exists d1. by rewrite Put_lookup_ne.
      * intros k u [[-> ->]|Hin]%elem_of_jsmap_set HkA.
        -- assert (g0 !! p = Some d) as Hg0 by (rewrite <- H1; auto).
           destruct (Hp d Hg0) as [Hsym Hcfg].
           exists d, d'. repeat split; try done. congruence.
        -- destruct (H3 k u Hin HkA) as (d0 & d1 & ? & ? & ? & ? & ?).
           destruct (decide (k = p)) as [->|Hne].
           ++ exists d0, d'. repeat split; try done. congruence.
           ++ exists d0, d1. by rewrite Put_lookup_ne.
  - (* the key is new *)
    assert (jsmap_has p A = false) as HpA.
    { destruct (jsmap_has p A) eqn:E; [|done].
      destruct (H2 p E) as (_ & ? & ? & _). congruence. }
    assert (jsmap_has p Mo = false) as HpMo.
    { destruct (jsmap_has p Mo) eqn:E; [|done].
      destruct (jsmap_has_true _ _ E) as [u Hin].
      destruct (H3 p u Hin HpA) as (? & ? & ? & ? & ? & _). congruence. }
    split.
    + intros k. rewrite jsmap_has_set. intros [Hne HkA]%orb_false_elim HkMo.
      apply bool_decide_eq_false in Hne. rewrite Put_lookup_ne; auto.
    + intros k. rewrite jsmap_has_set. intros [Heq|HkA]%orb_true_elim.
      * apply bool_decide_eq_true in Heq. subst k. split.
        -- rewrite <- H1; auto.
        -- eexists. split; [by apply Put_lookup_none|done].
      * destruct (H2 k HkA) as (? & d1 & ? & ?). split; [done|].
        exists d1. rewrite Put_lookup_ne; [done|congruence].
    + intros k u Hin. rewrite jsmap_has_set. intros [Hne HkA]%orb_false_elim.
      apply bool_decide_eq_false in Hne.
      destruct (H3 k u Hin HkA) as (d0 & d1 & ? & ? & ? & ? & ?).
      exists d0, d1. by rewrite Put_lookup_ne.
Qed.


Lemma write_all_tracked writes w :
  sandboxRunning (this w) = true ->
  native_hasOwnProperty (rawWindow w) = true ->
  (forall k v, (k, v) ∈ writes -> plain_key k = true /\ restorable g0 k) ->
  tracked g0 (addedPropsMapInSandbox (this w))
          (modifiedPropsOriginalValueMapInSandbox (this w)) (rawWindow w) ->
  sandboxRunning (this (write_all writes w)) = true /\
  tracked g0 (addedPropsMapInSandbox (this (write_all writes w)))
          (modifiedPropsOriginalValueMapInSandbox (this (write_all writes w)))
          (rawWindow (write_all writes w)).
Proof.
  revert w. induction writes as [|[k v] writes IH]; intros w Hrun Hn Hok Htr; [done|].
  assert (plain_key k = true /\ restorable g0 k) as [Hpl Hk] by (apply (Hok k v); left).
  destruct (proxy_set_tracked w k v Hrun Hn Hpl Hk Htr) as [Hrun' Htr'].
  apply (IH _ Hrun'); [by apply proxy_set_native| |done].
  intros k' v' Hin. apply (Hok k' v'). by right.
Qed.


(** First loop of [inactive]: every recorded original value is written back. *)
Lemma restore_loop sb A Mo l : forall D g,
  (forall e, e ∈ (D ++ l)%list -> e ∈ Mo) ->
  tracked g0 A Mo g ->
  (forall k v, (k, v) ∈ D -> jsmap_has k A = false -> value_of g k = Some v) ->
  exists g',
    jsmap_forEach (fun v p => setWindowProp p v false) l (mkWorld sb g)
    = (Normal tt, mkWorld sb g') /\
    tracked g0 A Mo g' /\
    (forall k v, (k, v) ∈ (D ++ l)%list -> jsmap_has k A = false -> value_of g' k = Some v).
Proof.
  induction l as [|[k v] l IH]; intros D g Hsub Htr HD.
  - exists g. rewrite app_nil_r. done.
  - assert ((k, v) ∈ Mo) as HkMo by (apply Hsub, elem_of_app; right; left).
    assert (jsmap_has k Mo = true) as HkMo' by (by eapply jsmap_has_elem_of).
    replace (D ++ (k, v) :: l)%list with ((D ++ [(k, v)]) ++ l)%list in *
      by (by rewrite <- app_assoc).
    simpl. unfold bind.
    destruct (jsmap_has k A) eqn:HkA.
    + (* recorded as added too *)
      destruct (tr_added _ _ _ _ Htr k HkA) as (Hg0 & d & Hg & Hc).
      destruct (is_symbol k) eqn:Hsym.
      * rewrite setWindowProp_symbol by done.
        apply (IH (D ++ [(k, v)])%list g Hsub Htr).
        intros k' v' [Hin|Hin%list_elem_of_singleton]%elem_of_app HA; [auto|].
        simplify_eq; congruence.
      * rewrite (setWindowProp_restore sb g k v d) by done.
        apply (IH (D ++ [(k, v)])%list _ Hsub).
        { eapply tracked_insert; eauto. }
        intros k' v' [Hin|Hin%list_elem_of_singleton]%elem_of_app HA.
        -- unfold value_of. rewrite lookup_insert_ne by congruence. by apply HD.
        -- simplify_eq; congruence.
    + destruct (tr_modified _ _ _ _ Htr k v HkMo HkA) as (d0 & d & Hg0 & Hv & Hg & Hc & Hsym).
      rewrite (setWindowProp_restore sb g k v d) by done.
      apply (IH (D ++ [(k, v)])%list _ Hsub).
      { eapply tracked_insert; eauto. }
      intros k' v' [Hin|Hin%list_elem_of_singleton]%elem_of_app HA.
      * unfold value_of. destruct (decide (k' = k)) as [->|Hne].
        -- rewrite lookup_insert_eq. simpl. f_equal.
           assert ((k, v') ∈ Mo) as Hin'.
           { apply Hsub. apply elem_of_app. left. apply elem_of_app. by left. }
           destruct (tr_modified _ _ _ _ Htr k v' Hin' HkA) as (d0' & ? & ? & ? & ? & _).
           congruence.
        -- rewrite lookup_insert_ne by done. by apply HD.
      * simplify_eq. unfold value_of. by rewrite lookup_insert_eq.
Qed.

Lemma delete_loop sb A l : forall D g,
  (forall e, e ∈ l -> e ∈ A) ->
  cleaning g0 A g ->
  (forall k v, (k, v) ∈ D -> g !! k = None) ->
  exists g',
    jsmap_forEach (fun _ p => setWindowProp p VUndefined true) l (mkWorld sb g)
    = (Normal tt, mkWorld sb g') /\
    cleaning g0 A g' /\
    (forall k v, (k, v) ∈ (D ++ l)%list -> g' !! k = None).
Proof.
  induction l as [|[k v] l IH]; intros D g Hsub Hcl HD.
  - exists g. rewrite app_nil_r. done.
  - assert (jsmap_has k A = true) as HkA.
    { eapply jsmap_has_elem_of. apply Hsub. left. }
    assert (forall e, e ∈ l -> e ∈ A) as Hsub' by (intros e He; apply Hsub; by right).
    replace (D ++ (k, v) :: l)%list with ((D ++ [(k, v)]) ++ l)%list
      by (by rewrite <- app_assoc).
    simpl. unfold bind. rewrite setWindowProp_delete. unfold Delete.
    destruct (cl_added _ _ _ Hcl k HkA) as (Hg0 & [Hg|(d & Hg & Hc)]); rewrite Hg.
    + apply (IH (D ++ [(k, v)])%list g Hsub' Hcl).
      intros k' v' [Hin|Hin%list_elem_of_singleton]%elem_of_app; [eauto|].
      by simplify_eq.
    + rewrite Hc. apply (IH (D ++ [(k, v)])%list _ Hsub').
      * destruct Hcl as [C1 C2]. split.
        -- intros k' HA. unfold value_of. rewrite lookup_delete_ne by congruence.
           by apply C1.
        -- intros k' HA. destruct (C2 k' HA) as [? Hcase]. split; [done|].
           destruct (decide (k' = k)) as [->|Hne].
           ++ left. by rewrite lookup_delete_eq.
           ++ by rewrite lookup_delete_ne.
      * intros k' v' [Hin|Hin%list_elem_of_singleton]%elem_of_app.
        -- destruct (decide (k' = k)) as [->|Hne].
           ++ by rewrite lookup_delete_eq.
           ++ rewrite lookup_delete_ne by done. eauto.
        -- simplify_eq. by rewrite lookup_delete_eq.
Qed.

Lemma inactive_tracked w :
  tracked g0 (addedPropsMapInSandbox (this w))
          (modifiedPropsOriginalValueMapInSandbox (this w)) (rawWindow w) ->
  exists g',
    inactive w = (Normal tt, mkWorld (set_sandboxRunning false (this w)) g') /\
    (forall k, value_of g' k = value_of g0 k) /\
    (forall k, jsmap_has k (addedPropsMapInSandbox (this w)) = true -> g' !! k = None) /\
    (forall k v, (k, v) ∈ modifiedPropsOriginalValueMapInSandbox (this w) ->
                 jsmap_has k (addedPropsMapInSandbox (this w)) = false ->
                 value_of g' k = Some v /\ value_of g0 k = Some v).
Proof.
  destruct w as [sb g]. simpl. intros Htr.
  set (A := addedPropsMapInSandbox sb) in *.
  set (Mo := modifiedPropsOriginalValueMapInSandbox sb) in *.
  destruct (restore_loop sb A Mo Mo [] g) as (g1 & Hrun1 & Htr1 & Hv1);
    [done|done|by intros ?? ?%elem_of_nil|].
  assert (cleaning g0 A g1) as Hcl1.
  { split.
    - intros k HkA. destruct (jsmap_has k Mo) eqn:HkMo.
      + destruct (jsmap_has_true _ _ HkMo) as [v Hin].
        rewrite (Hv1 k v Hin HkA).
        destruct (tr_modified _ _ _ _ Htr k v Hin HkA) as (d0 & _ & Hg0 & Hv & _).
        unfold value_of. rewrite Hg0. simpl. by rewrite Hv.
      + unfold value_of. by rewrite (tr_untouched _ _ _ _ Htr1 k HkA HkMo).
    - intros k HkA. destruct (tr_added _ _ _ _ Htr1 k HkA) as [? ?]. auto. }
  destruct (delete_loop sb A A [] g1) as (g2 & Hrun2 & Hcl2 & Hv2);
    [done|done|by intros ?? ?%elem_of_nil|].
  exists g2. split; [|split; [|split]].
  - unfold inactive, mbind, mret, M_bind, M_ret, bind, ret, gets, on_this, modify. simpl.
    fold A Mo. rewrite Hrun1. simpl. fold A. rewrite Hrun2. done.
  - intros k. destruct (jsmap_has k A) eqn:HkA.
    + destruct (jsmap_has_true _ _ HkA) as [v Hin].
      destruct (cl_added _ _ _ Hcl2 k HkA) as [Hg0 _].
      unfold value_of. by rewrite (Hv2 k v Hin), Hg0.
    + by apply (cl_others _ _ _ Hcl2).
  - intros k HkA. destruct (jsmap_has_true _ _ HkA) as [v Hin]. eauto.
  - intros k v Hin HkA.
    destruct (tr_modified _ _ _ _ Htr k v Hin HkA) as (d0 & _ & Hg0 & Hv & _).
    assert (value_of g0 k = Some v) as E by (unfold value_of; rewrite Hg0; simpl; by rewrite Hv).
    split; [|done]. rewrite <- E. by apply (cl_others _ _ _ Hcl2).
Qed.

End Restore.

Section Deactivation.
Context {realm : Realm}.

Lemma restorable_key_spec g0 k :
  restorable_key g0 k = true -> restorable g0 k.
Proof.
  unfold restorable_key, restorable. intros H d Hd. rewrite Hd in H.
  apply andb_true_iff in H as [Hs Hc]. by apply negb_true_iff in Hs.
Qed.

(** C1, as the code has it.  The global finds the method of
    [Object.prototype] under [hasOwnProperty].  Take any run of
    assignments through the proxy of a sandbox just made, to plain keys,
    in which every written key that the global already has is a string
    key whose property is configurable.  Then [inactive] ends normally
    and stops the sandbox; every key recorded as modified, and not
    recorded as added as well, holds its recorded value again, which is
    the value it had before the run; every key recorded as added is gone;
    and every key of the global has the value it had before the run. *)
Theorem inactive_restores_restorable_keys name gc next g0 writes :
  native_hasOwnProperty g0 = true ->
  forallb (fun kv => plain_key (fst kv) && restorable_key g0 (fst kv)) writes = true ->
  let w1 := write_all writes (mkWorld (fst (new_LegacySandbox name gc next)) g0) in
  let A := addedPropsMapInSandbox (this w1) in
  let Mo := modifiedPropsOriginalValueMapInSandbox (this w1) in
  fst (inactive w1) = Normal tt /\
  sandboxRunning (this (snd (inactive w1))) = false /\
  (forall k v, jsmap_get k Mo = Some v -> jsmap_has k A = false ->
               value_of (rawWindow (snd (inactive w1))) k = Some v /\
               value_of g0 k = Some v) /\
  (forall k, jsmap_has k A = true -> rawWindow (snd (inactive w1)) !! k = None) /\
  (forall k, value_of (rawWindow (snd (inactive w1))) k = value_of g0 k).
Proof.
  intros Hn Hok w1 A Mo.
  assert (forall k v, (k, v) ∈ writes -> plain_key k = true /\ restorable g0 k) as Hok'.
  { intros k v Hin. rewrite forallb_forall in Hok. apply list_elem_of_In in Hin.
    apply Hok, andb_true_iff in Hin as [Hpl Hr]. split; [done|].
    by apply restorable_key_spec. }
  destruct (write_all_tracked g0 writes
              (mkWorld (fst (new_LegacySandbox name gc next)) g0)) as [Hrun Htr];
    [done|done|done| |].
  { split; simpl; [done|done|]. by intros ?? ?%elem_of_nil. }
  fold w1 in Hrun, Htr.
  destruct (inactive_tracked g0 w1 Htr) as (g' & Hin & Hall & Hadd & Hmod).
  rewrite Hin. simpl. repeat split; auto.
  - apply (Hmod k v); [by apply jsmap_get_elem_of|done].
  - apply (Hmod k v); [by apply jsmap_get_elem_of|done].
Qed.

End Deactivation.

(** The global has [x] with the value 1, the guest sets it to 2 and to 5
    and adds [y]: after [inactive] the global has [x] with 1 and no [y]. *)
Lemma inactive_restores_restorable_keys_witness :
  let g0 : JsObject := {[ PStr "x" := mkPD (VNum 1) true true true ]} in
  let writes := [(PStr "x", VNum 2); (PStr "y", VNum 3); (PStr "x", VNum 5);
                 (PStr "y", VNum 4)] in
  let w1 := write_all writes (mkWorld legacy0 g0) in
  (native_hasOwnProperty g0 = true /\
   forallb (fun kv => plain_key (fst kv) && restorable_key g0 (fst kv)) writes = true) /\
  (value_of (rawWindow w1) (PStr "x") = Some (VNum 5) /\
   value_of (rawWindow w1) (PStr "y") = Some (VNum 4)) /\
  forall k, value_of (rawWindow (snd (inactive w1))) k = value_of g0 k.
Proof.
  split; [by vm_compute|]. split; [by vm_compute|].
  apply (inactive_restores_restorable_keys "app" 0%nat 1%nat
           {[ PStr "x" := mkPD (VNum 1) true true true ]}
           [(PStr "x", VNum 2); (PStr "y", VNum 3); (PStr "x", VNum 5);
            (PStr "y", VNum 4)]); by vm_compute.
Defined.

(** C1 as stated fails: the global has a writable, non-configurable
    property [x] with value 1, the guest writes 2, and after [inactive]
    the global still holds 2, since [setWindowProp] leaves a
    non-configurable property alone. *)
Lemma nonconfigurable_key_not_restored :
  ~ deactivation_restores legacy0
      {[ PStr "x" := mkPD (VNum 1) true true false ]} [(PStr "x", VNum 2)].
Proof.
  intros (H & _ & _). specialize (H (PStr "x") (VNum 1) eq_refl).
  vm_compute in H. discriminate H.
Qed.

Section Writes.
Context {realm : Realm}.

(** C2 fails on the code: a plain key that the global lacks is written
    twice.  The first write records it as added and creates it on the
    global, so the second write finds it there and records it as modified
    too, with the first written value as its "original" one. *)
Theorem second_write_to_added_key_is_recorded_as_modified name gc next k v1 v2 :
  native_hasOwnProperty ∅ = true ->
  plain_key k = true ->
  let w := write_all [(k, v1); (k, v2)] (mkWorld (fst (new_LegacySandbox name gc next)) ∅) in
  jsmap_has k (addedPropsMapInSandbox (this w)) = true /\
  jsmap_get k (modifiedPropsOriginalValueMapInSandbox (this w)) = Some v1.
Proof.
  intros Hn Hpl.
  set (w0 := mkWorld (fst (new_LegacySandbox name gc next)) ∅).
  cbn [write_all foldl fst snd].
  destruct (proxy_set_effect w0 k v1 eq_refl Hn) as (HA1 & HMo1 & Hg1 & Hrun1).
  pose proof (proxy_set_native w0 k v1 eq_refl Hn Hpl) as Hn1.
  set (w1 := snd (proxy_set k v1 w0)) in *.
  destruct (proxy_set_effect w1 k v2 Hrun1 Hn1) as (HA2 & HMo2 & _ & _).
  assert (rawWindow w1 !! k = Some (mkPD v1 true true true)) as Hk.
  { rewrite Hg1. by apply Put_lookup_none. }
  assert (rawWindow w0 !! k = None) as Hk0 by apply lookup_empty.
  rewrite (Get_own _ _ _ Hk) in HMo2.
  unfold hasOwnProperty in HA1, HA2, HMo1, HMo2.
  rewrite Hk in HA2, HMo2. rewrite Hk0 in HA1, HMo1.
  rewrite HA2, HMo2, HA1, HMo1. simpl.
  unfold jsmap_has. simpl. rewrite !decide_True by done. done.
Qed.

(** C10: while the sandbox is stopped the [set] handler answers [true]
    and changes nothing: the three maps, [latestSetProp] and the global
    are as they were. *)
Theorem write_while_stopped_is_dropped w p v :
  sandboxRunning (this w) = false ->
  proxy_set p v w = (Normal true, w).
Proof. apply proxy_set_not_running. Qed.

End Writes.

Lemma second_write_to_added_key_is_recorded_as_modified_witness :
  let w := write_all [(PStr "k", VNum 1); (PStr "k", VNum 2)] (mkWorld legacy0 ∅) in
  (native_hasOwnProperty ∅ = true /\ plain_key (PStr "k") = true) /\
  jsmap_has (PStr "k") (addedPropsMapInSandbox (this w)) = true /\
  jsmap_get (PStr "k") (modifiedPropsOriginalValueMapInSandbox (this w)) = Some (VNum 1).
Proof.
  split; [by vm_compute|].
  apply (second_write_to_added_key_is_recorded_as_modified "app" 0%nat 1%nat
           (PStr "k") (VNum 1) (VNum 2)); by vm_compute.
Defined.

Lemma write_while_stopped_is_dropped_witness :
  let w := snd (inactive (write_all [(PStr "y", VNum 3)] (mkWorld legacy0 ∅))) in
  sandboxRunning (this w) = false /\
  proxy_set (PStr "y") (VNum 4) w = (Normal true, w).
Proof.
  split; [by vm_compute|].
  apply (write_while_stopped_is_dropped
           (snd (inactive (write_all [(PStr "y", VNum 3)] (mkWorld legacy0 ∅))))
           (PStr "y") (VNum 4)).
  by vm_compute.
Defined.

Section Identity.
Context {realm : Realm}.

Lemma keeps_ret {A} (a : A) : keeps_identity (ret a).
Proof. by intros w. Qed.

Lemma keeps_gets {A} (f : World -> A) : keeps_identity (gets f).
Proof. by intros w. Qed.

Lemma keeps_bind {A B} (m : M World A) (k : A -> M World B) :
  keeps_identity m -> (forall a, keeps_identity (k a)) -> keeps_identity (bind m k).
Proof.
  intros Hm Hk w. unfold bind. specialize (Hm w).
  destruct (m w) as [[a|] w1]; simpl in *; [|done].
  specialize (Hk a w1). destruct Hm, Hk. split; congruence.
Qed.

Lemma keeps_on_window {A} (m : M JsObject A) : keeps_identity (on_window m).
Proof. intros w. unfold on_window. by destruct (m (rawWindow w)). Qed.

Lemma keeps_on_this f :
  (forall s, proxy (f s) = proxy s /\ globalContext (f s) = globalContext s) ->
  keeps_identity (on_this f).
Proof. intros Hf w. apply Hf. Qed.

Lemma keeps_forEach (body : JsValue -> PropertyKey -> M World unit) l :
  (forall v p, keeps_identity (body v p)) -> keeps_identity (jsmap_forEach body l).
Proof.
  intros Hb. induction l as [|[k v] l IH]; simpl.
  - apply keeps_ret.
  - apply keeps_bind; auto.
Qed.

Ltac keeps_step :=
  first
    [ apply keeps_ret | apply keeps_gets | apply keeps_on_window
    | apply keeps_on_this; by intros []
    | apply keeps_forEach; intros
    | apply keeps_bind; [|intros]
    | match goal with |- keeps_identity (if ?b then _ else _) => destruct b end ].

Ltac keeps := unfold mbind, mret, M_bind, M_ret; repeat keeps_step.

Lemma keeps_setWindowProp p v b : keeps_identity (setWindowProp p v b).
Proof. unfold setWindowProp. keeps. Qed.

Lemma keeps_setTrap p v o b : keeps_identity (setTrap p v o b).
Proof. unfold setTrap. keeps. Qed.

#[local] Hint Resolve keeps_setWindowProp keeps_setTrap : core.

Lemma keeps_proxy_set p v : keeps_identity (proxy_set p v).
Proof. unfold proxy_set. keeps. Qed.

Lemma keeps_proxy_defineProperty p a : keeps_identity (proxy_defineProperty p a).
Proof. unfold proxy_defineProperty. keeps. Qed.

Lemma keeps_active : keeps_identity active.
Proof. unfold active. keeps; auto. Qed.

Lemma keeps_inactive : keeps_identity inactive.
Proof. unfold inactive. keeps; auto. Qed.

Lemma perform_identity op w : same_identity w (perform op w).
Proof.
  destruct op; simpl.
  - apply keeps_proxy_set.
  - apply keeps_proxy_defineProperty.
  - apply keeps_active.
  - apply keeps_inactive.
Qed.

Lemma perform_all_identity ops w : same_identity w (perform_all ops w).
Proof.
  revert w. induction ops as [|op ops IH]; intros w; [done|].
  simpl. destruct (perform_identity op w) as [? ?]. destruct (IH (perform op w)) as [? ?].
  simpl in *. split; congruence.
Qed.

End Identity.

Section ProxyGet.
Context {realm : Realm}.
Variables isCallable isBoundedFunction isConstructable : JsValue -> bool.
Variable boundFunction : JsValue -> ObjRef -> JsValue.

(** C6: whatever was done to a sandbox since it was made, reading
    [window], [self], [top] or [parent] through the proxy answers the
    proxy itself, which is an object other than the global the sandbox
    works on. *)
Theorem self_reference_reads_the_proxy name gc next g0 ops p cache :
  (gc < next)%nat ->
  p ∈ [PStr "window"; PStr "self"; PStr "top"; PStr "parent"] ->
  let sb0 := fst (new_LegacySandbox name gc next) in
  let w := perform_all ops (mkWorld sb0 g0) in
  proxy_get isCallable isBoundedFunction isConstructable boundFunction w p cache
  = (Normal (VObj (proxy sb0)), cache) /\
  proxy (this w) = proxy sb0 /\
  globalContext (this w) = gc /\
  VObj (proxy sb0) <> VObj gc.
Proof.
  intros Hgc Hp sb0 w.
  destruct (perform_all_identity ops (mkWorld sb0 g0)) as [Hpx Hgl]. fold w in Hpx, Hgl.
  simpl in Hpx, Hgl.
  assert (is_self_reference p = true) as Hself.
  { unfold is_self_reference.
    repeat (apply elem_of_cons in Hp as [->|Hp]; [by vm_compute|]).
    by apply elem_of_nil in Hp. }
  repeat split; try done.
  - unfold proxy_get. rewrite Hself, Hpx. done.
  - simpl. intros [=]. lia.
Qed.

End ProxyGet.

Lemma self_reference_reads_the_proxy_witness :
  let w := perform_all [OpSet (PStr "window") (VNum 1); OpInactive] (mkWorld legacy0 ∅) in
  (0 < 1)%nat /\
  proxy_get (fun _ => false) (fun _ => false) (fun _ => false) (fun v _ => v)
    w (PStr "window") [] = (Normal (VObj (proxy legacy0)), []).
Proof.
  split; [lia|].
  apply (self_reference_reads_the_proxy (fun _ => false) (fun _ => false) (fun _ => false)
           (fun v _ => v) "app" 0%nat 1%nat ∅
           [OpSet (PStr "window") (VNum 1); OpInactive] (PStr "window") []).
  - lia.
  - left.
Defined.

Section Current.
Context {realm : Realm}.

(** The whole effect of a write while the sandbox runs. *)
Lemma proxy_set_current w p v :
  sandboxRunning (this w) = true ->
  native_hasOwnProperty (rawWindow w) = true ->
  currentUpdatedPropsValueMap (this (snd (proxy_set p v w)))
  = jsmap_set p v (currentUpdatedPropsValueMap (this w)).
Proof.
  destruct w as [[A Mo C n px gc r l] g]. simpl. intros -> Hn.
  unfold_m. simpl. rewrite call_hasOwnProperty_native by done.
  destruct (hasOwnProperty g p); simpl;
    [destruct (jsmap_has p Mo); simpl|];
    destruct (Put p v g) as [[[]|] g']; simpl; done.
Qed.

Lemma write_all_current writes : forall w k,
  sandboxRunning (this w) = true ->
  native_hasOwnProperty (rawWindow w) = true ->
  forallb (fun kv => plain_key (fst kv)) writes = true ->
  jsmap_get k (currentUpdatedPropsValueMap (this (write_all writes w)))
  = match last_written writes k with
    | Some u => Some u
    | None => jsmap_get k (currentUpdatedPropsValueMap (this w))
    end /\
  (NoDup (fst <$> currentUpdatedPropsValueMap (this w)) ->
   NoDup (fst <$> currentUpdatedPropsValueMap (this (write_all writes w)))).
Proof.
  induction writes as [|[p v] writes IH]; intros w k Hrun Hn Hpl; [done|].
  cbn [forallb fst] in Hpl. apply andb_true_iff in Hpl as [Hp Hpl].
  destruct (proxy_set_effect w p v Hrun Hn) as (_ & _ & _ & Hrun').
  pose proof (proxy_set_native w p v Hrun Hn Hp) as Hn'.
  pose proof (proxy_set_current w p v Hrun Hn) as Hc.
  cbn [write_all foldl fst snd] in *.
  destruct (IH (snd (proxy_set p v w)) k Hrun' Hn' Hpl) as [IH1 IH2].
  unfold write_all in *. split.
  - rewrite IH1. simpl. destruct (last_written writes k); [done|].
    rewrite Hc, jsmap_get_set. by case_decide.
  - intros Hnd. apply IH2. rewrite Hc. by apply jsmap_set_NoDup.
Qed.

(** X1: the global finds the method of [Object.prototype] under
    [hasOwnProperty].  After any run of assignments to plain keys through
    the proxy of a fresh sandbox, [currentUpdatedPropsValueMap] holds for
    every key the value written to it last, and nothing for a key never
    written. *)
Theorem current_map_holds_last_written_values name gc next g0 writes k :
  native_hasOwnProperty g0 = true ->
  forallb (fun kv => plain_key (fst kv)) writes = true ->
  jsmap_get k (currentUpdatedPropsValueMap
                 (this (write_all writes (mkWorld (fst (new_LegacySandbox name gc next)) g0))))
  = last_written writes k.
Proof.
  intros Hn Hpl.
  destruct (write_all_current writes
              (mkWorld (fst (new_LegacySandbox name gc next)) g0) k eq_refl Hn Hpl) as [H _].
  rewrite H. by destruct (last_written writes k).
Qed.

End Current.

(** Also a write that is refused (here [x], read-only on the global) is
    kept in the map. *)
Lemma current_map_holds_last_written_values_witness :
  let g0 : JsObject := {[ PStr "x" := mkPD (VNum 1) false true true ]} in
  let writes := [(PStr "x", VNum 2); (PStr "toString", VNum 3); (PStr "x", VNum 4)] in
  (native_hasOwnProperty g0 = true /\
   forallb (fun kv => plain_key (fst kv)) writes = true) /\
  jsmap_get (PStr "x") (currentUpdatedPropsValueMap (this (write_all writes (mkWorld legacy0 g0))))
  = Some (VNum 4).
Proof.
  split; [by vm_compute|].
  apply (current_map_holds_last_written_values "app" 0%nat 1%nat
           {[ PStr "x" := mkPD (VNum 1) false true true ]}
           [(PStr "x", VNum 2); (PStr "toString", VNum 3); (PStr "x", VNum 4)] (PStr "x"));
    by vm_compute.
Defined.

Section Lifecycle.
Context {realm : Realm}.

Lemma active_stopped sb g :
  sandboxRunning sb = false ->
  active (mkWorld sb g)
  = (let (r, w') :=
       jsmap_forEach (fun v p => setWindowProp p v false)
         (currentUpdatedPropsValueMap sb) (mkWorld sb g) in
     match r with
     | Normal _ => (Normal tt, mkWorld (set_sandboxRunning true (this w')) (rawWindow w'))
     | ThrowTypeError => (ThrowTypeError, w')
     end).
Proof.
  destruct sb as [A Mo C n px gc r l]. simpl. intros ->.
  unfold active, mbind, mret, M_bind, M_ret, bind, ret, gets, on_this, modify. simpl.
  by destruct (jsmap_forEach _ C _) as [[[]|] w'].
Qed.

(** [active] and [inactive] touch recorded keys only. *)
Lemma setWindowProp_frame p v b w k :
  k <> p -> rawWindow (snd (setWindowProp p v b w)) !! k = rawWindow w !! k.
Proof.
  intros Hne. destruct w as [sb g]. unfold_m. simpl.
  destruct (is_undefined v && b).
  - unfold Delete. simpl.
    destruct (g !! p) as [d|]; [destruct (pd_configurable d)|]; simpl;
      rewrite ?lookup_delete_ne by congruence. all: done.
  - destruct (isPropConfigurable _ p && negb (is_symbol p)); simpl; [|done].
    unfold Object_defineProperty, Reflect_defineProperty. simpl.
    destruct (g !! p) as [d|] eqn:E; simpl.
    + destruct (negb (pd_configurable d) && _); simpl; [done|].
      unfold Put. rewrite lookup_insert_eq. simpl. by rewrite !lookup_insert_ne by congruence.
    + unfold Put. rewrite lookup_insert_eq. simpl. by rewrite !lookup_insert_ne by congruence.
Qed.

Lemma setWindowProp_this p v b w : this (snd (setWindowProp p v b w)) = this w.
Proof.
  destruct w as [sb g]. unfold_m. simpl.
  destruct (is_undefined v && b).
  - simpl. by destruct (Delete p g).
  - destruct (isPropConfigurable _ p && negb (is_symbol p)); simpl; [|done].
    destruct (Object_defineProperty _ _ g) as [[[]|] g1]; simpl; [|done].
    by destruct (Put p v g1) as [[[]|] g2].
Qed.

Lemma forEach_setWindowProp_frame (f : JsValue -> JsValue) b l : forall w k,
  k ∉ (fst <$> l) ->
  rawWindow (snd (jsmap_forEach (fun v p => setWindowProp p (f v) b) l w)) !! k
  = rawWindow w !! k /\
  this (snd (jsmap_forEach (fun v p => setWindowProp p (f v) b) l w)) = this w.
Proof.
  induction l as [|[p v] l IH]; intros w k Hk; [done|].
  csimpl in Hk. apply not_elem_of_cons in Hk as [Hne Hk].
  simpl. unfold bind.
  pose proof (setWindowProp_frame p (f v) b w k Hne) as Hf.
  pose proof (setWindowProp_this p (f v) b w) as Ht.
  destruct (setWindowProp p (f v) b w) as [[[]|] w1]; simpl in *.
  - destruct (IH w1 k Hk) as [H1 H2]. rewrite H1, H2. done.
  - done.
Qed.

Lemma inactive_unfold w :
  inactive w
  = (let (r1, w1) :=
       jsmap_forEach (fun v p => setWindowProp p v false)
         (modifiedPropsOriginalValueMapInSandbox (this w)) w in
     match r1 with
     | Normal _ =>
         let (r2, w2) :=
           jsmap_forEach (fun _ p => setWindowProp p VUndefined true)
             (addedPropsMapInSandbox (this w1)) w1 in
         match r2 with
         | Normal _ =>
             (Normal tt, mkWorld (set_sandboxRunning false (this w2)) (rawWindow w2))
         | ThrowTypeError => (ThrowTypeError, w2)
         end
     | ThrowTypeError => (ThrowTypeError, w1)
     end).
Proof.
  unfold inactive, mbind, mret, M_bind, M_ret, bind, ret, gets, on_this, modify. simpl.
  destruct (jsmap_forEach _ _ w) as [[[]|] w1]; [|done].
  by destruct (jsmap_forEach _ _ w1) as [[[]|] w2].
Qed.

Lemma active_unfold w :
  active w
  = (if sandboxRunning (this w)
     then (Normal tt, mkWorld (set_sandboxRunning true (this w)) (rawWindow w))
     else
       let (r, w') :=
         jsmap_forEach (fun v p => setWindowProp p v false)
           (currentUpdatedPropsValueMap (this w)) w in
       match r with
       | Normal _ => (Normal tt, mkWorld (set_sandboxRunning true (this w')) (rawWindow w'))
       | ThrowTypeError => (ThrowTypeError, w')
       end).
Proof.
  unfold active, mbind, mret, M_bind, M_ret, bind, ret, gets, on_this, modify. simpl.
  destruct (sandboxRunning (this w)); simpl; [done|].
  by destruct (jsmap_forEach _ _ w) as [[[]|] w1].
Qed.

Lemma not_has_keys {V} (k : PropertyKey) (m : JsMap PropertyKey V) :
  jsmap_has k m = false -> k ∉ (fst <$> m).
Proof. intros H Hin. apply jsmap_has_keys in Hin. congruence. Qed.

Lemma inactive_frame w k :
  recorded k (this w) = false ->
  rawWindow (snd (inactive w)) !! k = rawWindow w !! k /\
  same_records (this w) (this (snd (inactive w))).
Proof.
  unfold recorded. intros [[HA HMo]%orb_false_elim _]%orb_false_elim.
  rewrite inactive_unfold.
  destruct (forEach_setWindowProp_frame (fun v => v) false
              (modifiedPropsOriginalValueMapInSandbox (this w)) w k) as [H1 T1];
    [by apply not_has_keys|].
  destruct (jsmap_forEach _ (modifiedPropsOriginalValueMapInSandbox (this w)) w)
    as [[[]|] w1]; simpl in *; [|by rewrite T1].
  destruct (forEach_setWindowProp_frame (fun _ => VUndefined) true
              (addedPropsMapInSandbox (this w1)) w1 k) as [H2 T2];
    [rewrite T1; by apply not_has_keys|].
  destruct (jsmap_forEach _ (addedPropsMapInSandbox (this w1)) w1)
    as [[[]|] w2]; simpl in *.
  - rewrite H2, H1, T2, T1. by destruct (this w).
  - rewrite H2, H1, T2, T1. done.
Qed.

Lemma active_frame w k :
  recorded k (this w) = false ->
  rawWindow (snd (active w)) !! k = rawWindow w !! k /\
  same_records (this w) (this (snd (active w))).
Proof.
  unfold recorded. intros [_ HC]%orb_false_elim.
  rewrite active_unfold. destruct (sandboxRunning (this w)); simpl.
  - by destruct (this w).
  - destruct (forEach_setWindowProp_frame (fun v => v) false
                (currentUpdatedPropsValueMap (this w)) w k) as [H1 T1];
      [by apply not_has_keys|].
    destruct (jsmap_forEach _ (currentUpdatedPropsValueMap (this w)) w)
      as [[[]|] w1]; simpl in *; rewrite ?H1, ?T1; [by destruct (this w)|done].
Qed.

Lemma lifecycle_frame ops : forall w k,
  forallb lifecycle_only ops = true ->
  recorded k (this w) = false ->
  rawWindow (perform_all ops w) !! k = rawWindow w !! k /\
  recorded k (this (perform_all ops w)) = false.
Proof.
  induction ops as [|op ops IH]; intros w k Hops Hk; [done|].
  simpl in Hops. apply andb_true_iff in Hops as [Hop Hops].
  assert (rawWindow (perform op w) !! k = rawWindow w !! k /\
          same_records (this w) (this (perform op w))) as [Hg (HA & HMo & HC)].
  { destruct op; try done; simpl; [by apply active_frame|by apply inactive_frame]. }
  assert (recorded k (this (perform op w)) = false) as Hk'.
  { unfold recorded in *. by rewrite HA, HMo, HC. }
  destruct (IH (perform op w) k Hops Hk') as [IH1 IH2].
  unfold perform_all in *. simpl. by rewrite IH1, Hg.
Qed.

(** X5: a key that stands in none of the three maps is left alone by
    every run of [active] and [inactive] calls: its property on the global
    is the same afterwards, and it is still in none of the maps. *)
Theorem lifecycle_never_touches_unrecorded_keys ops : forall w k,
  forallb lifecycle_only ops = true ->
  recorded k (this w) = false ->
  rawWindow (perform_all ops w) !! k = rawWindow w !! k /\
  recorded k (this (perform_all ops w)) = false.
Proof. apply lifecycle_frame. Qed.

End Lifecycle.

Lemma lifecycle_never_touches_unrecorded_keys_witness :
  let g0 : JsObject := {[ PStr "host" := mkPD (VNum 7) true true false ]} in
  let w := write_all [(PStr "guest", VNum 1)] (mkWorld legacy0 g0) in
  let ops := [OpInactive; OpActive; OpInactive] in
  forallb lifecycle_only ops = true /\
  recorded (PStr "host") (this w) = false /\
  rawWindow (perform_all ops w) !! PStr "host" = rawWindow w !! PStr "host".
Proof.
  split; [by vm_compute|]. split; [by vm_compute|].
  apply (lifecycle_never_touches_unrecorded_keys [OpInactive; OpActive; OpInactive]);
    by vm_compute.
Defined.

Section Definitions.
Context {realm : Realm}.

Lemma proxy_defineProperty_stopped w k a :
  sandboxRunning (this w) = false ->
  proxy_defineProperty k a w
  = (Normal (fst (Reflect_defineProperty (rawWindow w) k a)),
     mkWorld (this w) (snd (Reflect_defineProperty (rawWindow w) k a))).
Proof.
  intros Hrun. unfold_m. simpl.
  destruct (Reflect_defineProperty (rawWindow w) k a) as [b g']. simpl. by rewrite Hrun.
Qed.

(** X6: [defineProperty] through the proxy while the sandbox is stopped
    reaches the global and records nothing; if the key was in none of the
    maps, no later run of [active] and [inactive] calls touches what was
    defined. *)
Theorem definition_while_stopped_is_never_undone w k a ops :
  sandboxRunning (this w) = false ->
  recorded k (this w) = false ->
  forallb lifecycle_only ops = true ->
  let w' := snd (proxy_defineProperty k a w) in
  this w' = this w /\
  rawWindow w' = snd (Reflect_defineProperty (rawWindow w) k a) /\
  rawWindow (perform_all ops w') !! k = rawWindow w' !! k.
Proof.
  intros Hrun Hk Hops w'. subst w'. rewrite proxy_defineProperty_stopped by done. simpl.
  repeat split. by apply lifecycle_frame.
Qed.

End Definitions.

Lemma definition_while_stopped_is_never_undone_witness :
  let w := snd (inactive (mkWorld legacy0 ∅)) in
  let a := mkDI (Some (VNum 5)) (Some true) (Some true) (Some true) in
  sandboxRunning (this w) = false /\
  value_of (rawWindow (perform_all [OpActive; OpInactive]
                         (snd (proxy_defineProperty (PStr "leak") a w)))) (PStr "leak")
  = Some (VNum 5).
Proof.
  split; [by vm_compute|].
  pose proof (definition_while_stopped_is_never_undone
                (snd (inactive (mkWorld legacy0 ∅))) (PStr "leak")
                (mkDI (Some (VNum 5)) (Some true) (Some true) (Some true))
                [OpActive; OpInactive] eq_refl eq_refl eq_refl) as (_ & _ & H).
  unfold value_of. rewrite H. by vm_compute.
Defined.

Section DefinedKeys.
Context {realm : Realm}.

Lemma setWindowProp_skip sb g k v d :
  g !! k = Some d -> pd_configurable d && negb (is_symbol k) = false ->
  setWindowProp k v false (mkWorld sb g) = (Normal tt, mkWorld sb g).
Proof.
  intros Hk Hc. unfold_m. simpl. rewrite andb_false_r.
  unfold isPropConfigurable, getOwnPropertyDescriptor. simpl. by rewrite Hk, Hc.
Qed.

(** X7: the global finds the method of [Object.prototype] under
    [hasOwnProperty].  A plain key that is not a property of the global
    itself and is defined through the proxy of a
    fresh sandbox is recorded as modified, not as added; its recorded
    original is what the global answered for the key before: [undefined],
    or what it inherits.  [inactive] therefore does not delete it: the
    key stays on the global, with the recorded original as its value when
    the definition made it configurable (and it is a string key), with
    the defined value otherwise. *)
Theorem defined_property_survives_deactivation name gc next (g0 : JsObject) k a :
  native_hasOwnProperty g0 = true ->
  plain_key k = true ->
  g0 !! k = None ->
  let w1 := snd (proxy_defineProperty k a
                   (mkWorld (fst (new_LegacySandbox name gc next)) g0)) in
  jsmap_has k (addedPropsMapInSandbox (this w1)) = false /\
  jsmap_get k (modifiedPropsOriginalValueMapInSandbox (this w1)) = Some (Get g0 k) /\
  fst (inactive w1) = Normal tt /\
  value_of (rawWindow (snd (inactive w1))) k
  = Some (if default false (di_configurable a) && negb (is_symbol k)
          then Get g0 k else default VUndefined (di_value a)).
Proof.
  intros Hn Hne%plain_key_not_method Hk w1.
  set (d := mkPD (default VUndefined (di_value a)) (default false (di_writable a))
                 (default false (di_enumerable a)) (default false (di_configurable a))).
  assert (Hn1 : native_hasOwnProperty (<[k := d]> g0) = true).
  { rewrite <- Hn. apply native_hasOwnProperty_lookup. by rewrite lookup_insert_ne. }
  assert (w1 = mkWorld
            (mkSandbox [] [(k, Get g0 k)] [(k, default VUndefined (di_value a))]
               name (S next) gc true (Some k))
            (<[k := d]> g0)) as ->.
  { subst w1. unfold_m. simpl. unfold Reflect_defineProperty.
    rewrite Hk. simpl. fold d. rewrite call_hasOwnProperty_native by done.
    unfold hasOwnProperty. rewrite (Get_own _ k d), lookup_insert_eq by apply lookup_insert_eq.
    done. }
  simpl. rewrite decide_True by done. split; [done|]. split; [done|].
  rewrite inactive_unfold. simpl. unfold bind.
  destruct (default false (di_configurable a) && negb (is_symbol k)) eqn:E.
  - apply andb_true_iff in E as [Hc Hs]. apply negb_true_iff in Hs.
    erewrite setWindowProp_restore; [|by rewrite lookup_insert_eq|done|done].
    simpl. split; [done|]. unfold value_of. by rewrite lookup_insert_eq.
  - erewrite setWindowProp_skip; [|by rewrite lookup_insert_eq|done].
    simpl. split; [done|]. unfold value_of. by rewrite lookup_insert_eq.
Qed.

End DefinedKeys.

(** [toString] is inherited: the function found on the chain is recorded
    as the original, and is what [inactive] leaves on the global itself. *)
Lemma defined_property_survives_deactivation_witness :
  let a := mkDI (Some (VNum 5)) None None (Some true) in
  let w1 := snd (proxy_defineProperty (PStr "toString") a (mkWorld legacy0 ∅)) in
  (native_hasOwnProperty ∅ = true /\ plain_key (PStr "toString") = true /\
   (∅ : JsObject) !! PStr "toString" = None) /\
  jsmap_get (PStr "toString") (modifiedPropsOriginalValueMapInSandbox (this w1))
  = Some fn_toString /\
  value_of (rawWindow (snd (inactive w1))) (PStr "toString") = Some fn_toString.
Proof.
  split; [by vm_compute|].
  pose proof (defined_property_survives_deactivation "app" 0%nat 1%nat ∅ (PStr "toString")
                (mkDI (Some (VNum 5)) None None (Some true))) as H.
  destruct H as (_ & H2 & _ & H4); [by vm_compute|done|done|]. by split.
Defined.

Section Reads.
Context {realm : Realm}.
Variables isCallable isBoundedFunction isConstructable : JsValue -> bool.
Variable boundFunction : JsValue -> ObjRef -> JsValue.

Abbreviation rebind :=
  (Common.rebindTarget2Fn isCallable isBoundedFunction isConstructable boundFunction).
Abbreviation read := (proxy_get isCallable isBoundedFunction isConstructable boundFunction).


(** X9: the global finds the method of [Object.prototype] under
    [hasOwnProperty].  A write through the proxy of a running sandbox to
    a plain key other than the four self references, whose property on
    the global (if any) is writable, succeeds, makes the key
    [latestSetProp], and a read of the key through the proxy answers the
    written value (for a value that is not callable: as it is). *)
Theorem write_is_visible_to_the_next_read w p v cache :
  sandboxRunning (this w) = true ->
  native_hasOwnProperty (rawWindow w) = true ->
  plain_key p = true ->
  is_self_reference p = false ->
  (forall d, rawWindow w !! p = Some d -> pd_writable d = true) ->
  isCallable v = false ->
  fst (proxy_set p v w) = Normal true /\
  latestSetProp (this (snd (proxy_set p v w))) = Some p /\
  read (snd (proxy_set p v w)) p cache = (Normal v, cache).
Proof.
  intros Hrun Hn Hpl Hself Hw Hcall.
  destruct w as [[A Mo C n px gc r l] g]. simpl in *. subst r.
  assert (exists sb' d', proxy_set p v (mkWorld (mkSandbox A Mo C n px gc true l) g)
            = (Normal true, mkWorld sb' (<[p := d']> g)) /\ pd_value d' = v /\
              latestSetProp sb' = Some p) as (sb' & d' & -> & Hv & Hl).
  { pose proof (Put_plain p v g Hpl) as HP.
    unfold_m. simpl. rewrite call_hasOwnProperty_native by done.
    unfold hasOwnProperty.
    destruct (g !! p) as [d|] eqn:E; simpl.
    - rewrite (Hw d eq_refl) in HP.
      destruct (jsmap_has p Mo); simpl; rewrite HP; simpl; by eexists _, _.
    - rewrite HP. simpl. by eexists _, _. }
  simpl. repeat split; [done|].
  unfold proxy_get. rewrite Hself. simpl.
  rewrite (Get_own _ p d') by apply lookup_insert_eq. rewrite Hv.
  unfold Common.rebindTarget2Fn. by rewrite Hcall.
Qed.

End Reads.

Lemma write_is_visible_to_the_next_read_witness :
  fst (proxy_set (PStr "answer") (VNum 42) (mkWorld legacy0 ∅)) = Normal true /\
  proxy_get (fun _ => false) (fun _ => false) (fun _ => false) (fun v _ => v)
    (snd (proxy_set (PStr "answer") (VNum 42) (mkWorld legacy0 ∅))) (PStr "answer") []
  = (Normal (VNum 42), []).
Proof.
  pose proof (write_is_visible_to_the_next_read (fun _ => false) (fun _ => false)
                (fun _ => false) (fun v _ => v) (mkWorld legacy0 ∅) (PStr "answer")
                (VNum 42) [] eq_refl eq_refl eq_refl eq_refl) as H.
  destruct H as (H1 & _ & H3); [by intros d ?|done|]. by split.
Defined.

Section Records.
Context {realm : Realm}.

Lemma writes_to_snoc writes p v k :
  writes_to (writes ++ [(p, v)]) k
  = (writes_to writes k + (if decide (k = p) then 1 else 0))%nat.
Proof.
  unfold writes_to. rewrite filter_app, length_app. f_equal.
  rewrite filter_cons. simpl. repeat case_decide; simplify_eq; done.
Qed.

Lemma first_written_snoc writes p v k :
  first_written (writes ++ [(p, v)]) k
  = match first_written writes k with
    | Some u => Some u
    | None => if decide (k = p) then Some v else None
    end.
Proof.
  induction writes as [|[k' v'] writes IH]; simpl; [by case_decide|].
  destruct (decide (k = k')); [done|apply IH].
Qed.

Lemma first_written_None writes k :
  first_written writes k = None <-> writes_to writes k = 0%nat.
Proof.
  unfold writes_to. induction writes as [|[k' v'] writes IH]; simpl; [done|].
  rewrite filter_cons. simpl. destruct (decide (k = k')) as [->|Hne].
  - rewrite decide_True by done. simpl. split; [done|lia].
  - rewrite decide_False by congruence. apply IH.
Qed.

Lemma jsmap_has_get {V} (k : PropertyKey) (m : JsMap PropertyKey V) :
  jsmap_has k m = match jsmap_get k m with Some _ => true | None => false end.
Proof. done. Qed.

Lemma Get_Put p v (g : JsObject) :
  plain_key p = true -> g !! p = None -> Get (snd (Put p v g)) p = v.
Proof. intros Hp H. unfold Get. by rewrite Put_lookup_none. Qed.

Lemma hasOwnProperty_Put p v (g : JsObject) k :
  plain_key p = true ->
  hasOwnProperty (snd (Put p v g)) k = hasOwnProperty g k || bool_decide (k = p).
Proof.
  intros Hp. unfold hasOwnProperty. destruct (decide (k = p)) as [->|Hne].
  - rewrite bool_decide_eq_true_2 by done. rewrite orb_true_r.
    destruct (g !! p) as [d|] eqn:E.
    + destruct (Put_lookup_some p v g d E) as (d' & -> & _). done.
    + by rewrite Put_lookup_none.
  - rewrite bool_decide_eq_false_2 by done. rewrite orb_false_r.
    by rewrite Put_lookup_ne.
Qed.

Lemma recorded_exactly_step g0 writes w p v :
  plain_key p = true ->
  recorded_exactly g0 writes w ->
  recorded_exactly g0 (writes ++ [(p, v)]) (snd (proxy_set p v w)).
Proof.
  intros Hpl [Hrun HA HMo Hown Hfirst Hun Hn].
  destruct (proxy_set_effect w p v Hrun Hn) as (EA & EMo & Eg & Erun).
  assert (Hp : hasOwnProperty (rawWindow w) p
               = hasOwnProperty g0 p || (0 <? writes_to writes p)%nat) by apply Hown.
  split.
  - done.
  - intros k. rewrite EA, first_written_snoc.
    destruct (hasOwnProperty (rawWindow w) p) eqn:Ep.
    + rewrite HA. destruct (hasOwnProperty g0 k) eqn:E0; [done|].
      destruct (first_written writes k) eqn:F; [done|].
      case_decide as Ek; [|done]. subst k. rewrite E0 in Hp. simpl in Hp.
      symmetry in Hp. apply Nat.ltb_lt in Hp. apply first_written_None in F. lia.
    + symmetry in Hp. apply orb_false_iff in Hp as [Hp0 Hpw]. apply Nat.ltb_ge in Hpw.
      rewrite jsmap_get_set. case_decide as Ek.
      * subst k. rewrite Hp0.
        assert (first_written writes p = None) as -> by (apply first_written_None; lia).
        done.
      * rewrite HA. destruct (hasOwnProperty g0 k); [done|].
        by destruct (first_written writes k).
  - intros k. rewrite EMo, writes_to_snoc, first_written_snoc.
    rewrite jsmap_has_get, (HMo p).
    destruct (hasOwnProperty (rawWindow w) p) eqn:Ep; simpl.
    + destruct (hasOwnProperty g0 p) eqn:E0p; simpl in Hp.
      * (* a key of the global *)
        destruct (0 <? writes_to writes p)%nat eqn:Wp; simpl.
        -- rewrite HMo. case_decide as Ek.
           ++ subst k. rewrite E0p, Wp.
              apply Nat.ltb_lt in Wp.
              destruct (0 <? writes_to writes p + 1)%nat eqn:W2;
                [done|apply Nat.ltb_ge in W2; lia].
           ++ rewrite Nat.add_0_r. by destruct (first_written writes k).
        -- apply Nat.ltb_ge in Wp.
           rewrite jsmap_get_set. case_decide as Ek.
           ++ subst k. rewrite E0p.
              replace (writes_to writes p + 1)%nat with 1%nat by lia. simpl.
              unfold Get. rewrite Hun by lia.
              unfold hasOwnProperty in E0p. by destruct (g0 !! p).
           ++ rewrite HMo. rewrite Nat.add_0_r. by destruct (first_written writes k).
      * (* a key the sandbox added *)
        symmetry in Hp. apply Nat.ltb_lt in Hp.
        destruct (1 <? writes_to writes p)%nat eqn:Wp; simpl.
        -- assert (exists u, first_written writes p = Some u) as [u Fu].
           { destruct (first_written writes p) eqn:F; [by eexists|].
             apply first_written_None in F. lia. }
           rewrite Fu. simpl. rewrite HMo. case_decide as Ek.
           ++ subst k. rewrite E0p, Wp, Fu. apply Nat.ltb_lt in Wp.
              destruct (1 <? writes_to writes p + 1)%nat eqn:W2;
                [done|apply Nat.ltb_ge in W2; lia].
           ++ rewrite Nat.add_0_r. by destruct (first_written writes k).
        -- apply Nat.ltb_ge in Wp. simpl.
           rewrite jsmap_get_set. case_decide as Ek.
           ++ subst k. rewrite E0p.
              replace (writes_to writes p + 1)%nat with 2%nat by lia. simpl.
              rewrite (Hfirst p) by (done || lia).
              destruct (first_written writes p) eqn:F; [done|].
              apply first_written_None in F. lia.
           ++ rewrite HMo. rewrite Nat.add_0_r. by destruct (first_written writes k).
    + symmetry in Hp. apply orb_false_iff in Hp as [Hp0 Hpw]. apply Nat.ltb_ge in Hpw.
      rewrite HMo. case_decide as Ek.
      * subst k. rewrite Hp0.
        replace (writes_to writes p + 1)%nat with 1%nat by lia. simpl.
        by replace (writes_to writes p) with 0%nat by lia.
      * rewrite Nat.add_0_r. by destruct (first_written writes k).
  - intros k. rewrite Eg, hasOwnProperty_Put, Hown, writes_to_snoc by done.
    case_decide as Ek.
    + rewrite bool_decide_eq_true_2 by done.
      destruct (0 <? writes_to writes k + 1)%nat eqn:W; [|apply Nat.ltb_ge in W; lia].
      by rewrite !orb_true_r.
    + rewrite bool_decide_eq_false_2 by done. by rewrite Nat.add_0_r, orb_false_r.
  - intros k E0 Hone. rewrite writes_to_snoc in Hone. rewrite Eg, first_written_snoc.
    case_decide as Ek.
    + subst k.
      assert (Hz : writes_to writes p = 0%nat) by lia.
      assert (first_written writes p = None) as -> by by apply first_written_None.
      rewrite Get_Put; [done|done|]. rewrite Hun by done.
      unfold hasOwnProperty in E0. by destruct (g0 !! p).
    + rewrite Nat.add_0_r in Hone.
      pose proof (Hown k) as Ho. rewrite E0, Hone in Ho. simpl in Ho.
      unfold hasOwnProperty in Ho.
      destruct (rawWindow w !! k) as [dk|] eqn:Ek'; [|done].
      rewrite (Get_own _ k dk) by (by rewrite Put_lookup_ne).
      pose proof (Hfirst k E0 Hone) as Hf. rewrite (Get_own _ k dk Ek') in Hf. rewrite Hf.
      by destruct (first_written writes k).
  - intros k Hz. rewrite writes_to_snoc in Hz. case_decide as Ek; [lia|].
    rewrite Eg, Put_lookup_ne by done. apply Hun. lia.
  - by apply proxy_set_native.
Qed.

Lemma write_all_snoc writes p v w :
  write_all (writes ++ [(p, v)]) w = snd (proxy_set p v (write_all writes w)).
Proof. unfold write_all. by rewrite foldl_app. Qed.

Lemma recorded_exactly_fresh name gc next g0 writes :
  native_hasOwnProperty g0 = true ->
  forallb (fun kv => plain_key (fst kv)) writes = true ->
  recorded_exactly g0 writes
    (write_all writes (mkWorld (fst (new_LegacySandbox name gc next)) g0)).
Proof.
  intros Hn. induction writes as [|[p v] writes IH] using rev_ind; intros Hpl.
  - split; simpl; try done.
    + intros k'. by destruct (hasOwnProperty g0 k').
    + intros k'. by destruct (hasOwnProperty g0 k').
    + intros k'. by rewrite orb_false_r.
  - rewrite forallb_app in Hpl. apply andb_true_iff in Hpl as [Hpl Hp].
    cbn [forallb fst] in Hp. rewrite andb_true_r in Hp.
    rewrite write_all_snoc. apply recorded_exactly_step; auto.
Qed.

(** X2: the global finds the method of [Object.prototype] under
    [hasOwnProperty].  What the two record maps hold after any run of
    assignments to plain keys through the proxy of a fresh sandbox: a key
    that is not a property of the global itself is in
    [addedPropsMapInSandbox] once it is written, with the first value
    written to it; from its second write on it is in
    [modifiedPropsOriginalValueMapInSandbox] too, with that first value
    as its original.  A key of the global is in the modified map once it
    is written, with the value the global held, and never in the added
    map.  So a key is in both maps exactly when it was not a property of
    the global itself and written at least twice. *)
Theorem record_maps_after_any_writes name gc next g0 writes k :
  native_hasOwnProperty g0 = true ->
  forallb (fun kv => plain_key (fst kv)) writes = true ->
  let sb := this (write_all writes (mkWorld (fst (new_LegacySandbox name gc next)) g0)) in
  jsmap_get k (addedPropsMapInSandbox sb)
  = (if hasOwnProperty g0 k then None else first_written writes k) /\
  jsmap_get k (modifiedPropsOriginalValueMapInSandbox sb)
  = (if hasOwnProperty g0 k
     then (if (0 <? writes_to writes k)%nat then Some (Get g0 k) else None)
     else (if (1 <? writes_to writes k)%nat then first_written writes k else None)) /\
  (jsmap_has k (addedPropsMapInSandbox sb)
   && jsmap_has k (modifiedPropsOriginalValueMapInSandbox sb)
   = negb (hasOwnProperty g0 k) && (1 <? writes_to writes k)%nat).
Proof.
  intros Hn Hpl.
  pose proof (recorded_exactly_fresh name gc next g0 writes Hn Hpl) as H.
  intros sb. subst sb. destruct H as [_ HA HMo _ _ _ _].
  split; [apply HA|]. split; [apply HMo|].
  rewrite !jsmap_has_get, HA, HMo.
  destruct (hasOwnProperty g0 k); simpl; [done|].
  destruct (1 <? writes_to writes k)%nat eqn:W; simpl.
  - apply Nat.ltb_lt in W.
    destruct (first_written writes k) eqn:F; [done|].
    apply first_written_None in F. lia.
  - by rewrite andb_false_r.
Qed.

End Records.

(** [y] is new and written twice: it is in both maps, with its first
    value. *)
Lemma record_maps_after_any_writes_witness :
  let g0 : JsObject := {[ PStr "x" := mkPD (VNum 1) true true true ]} in
  let writes := [(PStr "x", VNum 2); (PStr "y", VNum 3); (PStr "y", VNum 4)] in
  let sb := this (write_all writes (mkWorld legacy0 g0)) in
  (native_hasOwnProperty g0 = true /\
   forallb (fun kv => plain_key (fst kv)) writes = true) /\
  jsmap_get (PStr "y") (addedPropsMapInSandbox sb) = Some (VNum 3) /\
  jsmap_get (PStr "y") (modifiedPropsOriginalValueMapInSandbox sb) = Some (VNum 3).
Proof.
  split; [by vm_compute|].
  pose proof (record_maps_after_any_writes "app" 0%nat 1%nat
                {[ PStr "x" := mkPD (VNum 1) true true true ]}
                [(PStr "x", VNum 2); (PStr "y", VNum 3); (PStr "y", VNum 4)] (PStr "y")) as H.
  destruct H as (H1 & H2 & _); [by vm_compute|by vm_compute|]. by split.
Defined.

Section RoundTrip.
Context {realm : Realm}.

Lemma flags_kept_step g0 w p v :
  sandboxRunning (this w) = true ->
  native_hasOwnProperty (rawWindow w) = true ->
  plain_key p = true ->
  flags_kept g0 w -> flags_kept g0 (snd (proxy_set p v w)).
Proof.
  intros Hrun Hn Hpl [HA HMo Hp Hc].
  destruct (proxy_set_effect w p v Hrun Hn) as (EA & EMo & Eg & _).
  split.
  - rewrite EA. destruct (hasOwnProperty _ p); [done|]. by apply jsmap_set_NoDup.
  - rewrite EMo. destruct (hasOwnProperty _ p && _); [|done]. by apply jsmap_set_NoDup.
  - intros k d0 H0. rewrite Eg. destruct (Hp k d0 H0) as (d & Hd & Hcfg).
    destruct (decide (k = p)) as [->|Hne].
    + destruct (Put_lookup_some p v _ d Hd) as (d' & -> & Hc'). exists d'. split; congruence.
    + rewrite Put_lookup_ne by done. by exists d.
  - intros k d H0. rewrite Eg. destruct (decide (k = p)) as [->|Hne].
    + destruct (rawWindow w !! p) as [d1|] eqn:E1.
      * destruct (Put_lookup_some p v _ d1 E1) as (d' & -> & Hc'). intros [= <-].
        rewrite Hc'. by apply (Hc p).
      * rewrite Put_lookup_none by done. by intros [= <-].
    + rewrite Put_lookup_ne by done. by apply Hc.
Qed.

Lemma write_all_shape g0 name gc next writes :
  native_hasOwnProperty g0 = true ->
  forallb (fun kv => plain_key (fst kv)) writes = true ->
  let w1 := write_all writes (mkWorld (fst (new_LegacySandbox name gc next)) g0) in
  recorded_exactly g0 writes w1 /\ flags_kept g0 w1.
Proof.
  intros Hn Hpl. cbn zeta. split; [by apply recorded_exactly_fresh|].
  induction writes as [|[p v] writes IH] using rev_ind.
  - split; simpl; try done; try apply NoDup_nil_2.
    + intros k d0 H0. by exists d0.
    + intros k d H0 H1. congruence.
  - rewrite forallb_app in Hpl. apply andb_true_iff in Hpl as [Hpl Hp].
    cbn [forallb fst] in Hp. rewrite andb_true_r in Hp.
    pose proof (recorded_exactly_fresh name gc next g0 writes Hn Hpl) as Hre.
    rewrite write_all_snoc. apply flags_kept_step; [apply Hre|apply Hre|done|auto].
Qed.

Lemma setWindowProp_exact sb (g : JsObject) k v :
  exists g',
    setWindowProp k v false (mkWorld sb g) = (Normal tt, mkWorld sb g') /\
    g' !! k = written_back (g !! k) k v /\
    (forall k', k' <> k -> g' !! k' = g !! k').
Proof.
  unfold written_back. destruct (is_symbol k) eqn:Hs.
  - exists g. by rewrite setWindowProp_symbol.
  - destruct (g !! k) as [d|] eqn:E; [destruct (pd_configurable d) eqn:Hc|].
    + eexists. split; [by apply (setWindowProp_restore sb g k v d)|].
      split; [by rewrite lookup_insert_eq|]. intros k' Hne. by rewrite lookup_insert_ne.
    + exists g. split; [|by rewrite E]. apply (setWindowProp_skip sb g k v d E).
      by rewrite Hc.
    + exists (<[k := mkPD v true false true]> g). split; [|split].
      * unfold_m. simpl. rewrite andb_false_r.
        unfold isPropConfigurable, getOwnPropertyDescriptor. simpl. rewrite E, Hs. simpl.
        unfold Object_defineProperty, Reflect_defineProperty. rewrite E. simpl.
        unfold Put. rewrite lookup_insert_eq. simpl. by rewrite insert_insert_eq.
      * by rewrite lookup_insert_eq.
      * intros k' Hne. by rewrite lookup_insert_ne.
Qed.

(** The loops of [inactive] and [active], whatever the properties are. *)
Lemma write_back_loop sb (l : JsMap PropertyKey JsValue) : forall g : JsObject,
  NoDup (fst <$> l) ->
  exists g',
    jsmap_forEach (fun v p => setWindowProp p v false) l (mkWorld sb g)
    = (Normal tt, mkWorld sb g') /\
    (forall k, k ∉ (fst <$> l) -> g' !! k = g !! k) /\
    (forall k v, (k, v) ∈ l -> g' !! k = written_back (g !! k) k v).
Proof.
  induction l as [|[k v] l IH]; intros g Hnd.
  - exists g. split; [done|]. split; [done|]. by intros ?? ?%elem_of_nil.
  - csimpl in Hnd. apply NoDup_cons in Hnd as [Hnin Hnd].
    destruct (setWindowProp_exact sb g k v) as (g1 & Hstep & Hself & Hother).
    destruct (IH g1 Hnd) as (g' & Hrun & Hframe & Hval).
    exists g'. split; [|split].
    + simpl. unfold bind. by rewrite Hstep.
    + intros k' Hk'. csimpl in Hk'. apply not_elem_of_cons in Hk' as [Hne Hk'].
      rewrite Hframe by done. by apply Hother.
    + intros k' v' [Heq|Hin']%elem_of_cons.
      * simplify_eq. by rewrite Hframe.
      * rewrite (Hval k' v' Hin'), Hother; [done|].
        intros ->. apply Hnin, list_elem_of_fmap. by exists (k, v').
Qed.

Lemma delete_loop_exact sb (l : JsMap PropertyKey JsValue) : forall g : JsObject,
  NoDup (fst <$> l) ->
  (forall k v d, (k, v) ∈ l -> g !! k = Some d -> pd_configurable d = true) ->
  exists g',
    jsmap_forEach (fun _ p => setWindowProp p VUndefined true) l (mkWorld sb g)
    = (Normal tt, mkWorld sb g') /\
    (forall k, k ∉ (fst <$> l) -> g' !! k = g !! k) /\
    (forall k v, (k, v) ∈ l -> g' !! k = None).
Proof.
  induction l as [|[k v] l IH]; intros g Hnd Hin.
  - exists g. split; [done|]. split; [done|]. by intros ?? ?%elem_of_nil.
  - csimpl in Hnd. apply NoDup_cons in Hnd as [Hnin Hnd].
    assert (Hstep : setWindowProp k VUndefined true (mkWorld sb g)
                    = (Normal tt, mkWorld sb (delete k g))).
    { rewrite setWindowProp_delete. unfold Delete.
      destruct (g !! k) as [d|] eqn:E.
      - rewrite (Hin k v d) by (done || left). done.
      - by rewrite delete_id. }
    destruct (IH (delete k g) Hnd) as (g' & Hrun & Hframe & Hval).
    { intros k' v' d' Hin' Hd'. apply (Hin k' v' d'); [by right|].
      destruct (decide (k' = k)) as [->|Hne].
      - by rewrite lookup_delete_eq in Hd'.
      - by rewrite lookup_delete_ne in Hd'. }
    exists g'. split; [|split].
    + simpl. unfold bind. by rewrite Hstep.
    + intros k' Hk'. csimpl in Hk'. apply not_elem_of_cons in Hk' as [Hne Hk'].
      rewrite Hframe by done. by rewrite lookup_delete_ne.
    + intros k' v' [Heq|Hin']%elem_of_cons; [|by apply (Hval k' v')].
      simplify_eq. rewrite Hframe by done. by rewrite lookup_delete_eq.
Qed.

Lemma jsmap_get_keys {V} (k : PropertyKey) (m : JsMap PropertyKey V) :
  jsmap_get k m = None <-> k ∉ (fst <$> m).
Proof.
  rewrite <- jsmap_has_keys, jsmap_has_get.
  destruct (jsmap_get k m); split; (done || congruence).
Qed.

Lemma first_written_Some writes k :
  (0 < writes_to writes k)%nat -> exists v, first_written writes k = Some v.
Proof.
  intros H. destruct (first_written writes k) eqn:F; [by eexists|].
  apply first_written_None in F. lia.
Qed.

(** [inactive] after a run of writes on a fresh sandbox, key by key. *)
Lemma inactive_after_writes name gc next g0 writes :
  native_hasOwnProperty g0 = true ->
  forallb (fun kv => plain_key (fst kv)) writes = true ->
  let w1 := write_all writes (mkWorld (fst (new_LegacySandbox name gc next)) g0) in
  exists g3,
    inactive w1 = (Normal tt, mkWorld (set_sandboxRunning false (this w1)) g3) /\
    forall k,
      match g0 !! k with
      | None => g3 !! k = None
      | Some d0 =>
          exists d1 d3,
            rawWindow w1 !! k = Some d1 /\ g3 !! k = Some d3 /\
            pd_configurable d3 = pd_configurable d0 /\
            pd_value d3 = if restorable_key g0 k then pd_value d0 else pd_value d1
      end.
Proof.
  intros Hnat Hpl w1.
  destruct (write_all_shape g0 name gc next writes Hnat Hpl) as [Hre Hfk]. fold w1 in Hre, Hfk.
  destruct Hre as [_ HA HMo Hown _ Hun _]. destruct Hfk as [HndA HndMo Hpres Hcre].
  destruct w1 as [sb1 g1]. cbn [this rawWindow] in *.
  destruct (write_back_loop sb1 (modifiedPropsOriginalValueMapInSandbox sb1) g1 HndMo)
    as (g2 & Hrun2 & Hframe2 & Hval2).
  assert (Hnew : forall k v, (k, v) ∈ addedPropsMapInSandbox sb1 -> g0 !! k = None).
  { intros k v Hin. apply (jsmap_get_NoDup _ _ _ HndA) in Hin. rewrite HA in Hin.
    unfold hasOwnProperty in Hin. by destruct (g0 !! k). }
  destruct (delete_loop_exact sb1 (addedPropsMapInSandbox sb1) g2 HndA)
    as (g3 & Hrun3 & Hframe3 & Hval3).
  { intros k v d Hin Hd. pose proof (Hnew k v Hin) as H0.
    destruct (decide (k ∈ (fst <$> modifiedPropsOriginalValueMapInSandbox sb1)))
      as [[[k' u] [Hk Hu]]%list_elem_of_fmap|Hn].
    - simpl in Hk. subst k'. rewrite (Hval2 k u Hu) in Hd. unfold written_back in Hd.
      destruct (is_symbol k).
      + by apply (Hcre k d).
      + destruct (g1 !! k) as [d1|] eqn:E1.
        * destruct (pd_configurable d1) eqn:C1; injection Hd as <-; [done|].
          by apply (Hcre k d1).
        * by injection Hd as <-.
    - rewrite Hframe2 in Hd by done. by apply (Hcre k d). }
  exists g3. split.
  { rewrite inactive_unfold. cbn [this]. rewrite Hrun2. cbn [this]. by rewrite Hrun3. }
  intros k. destruct (g0 !! k) as [d0|] eqn:E0.
  - assert (HkA : k ∉ (fst <$> addedPropsMapInSandbox sb1)).
    { apply jsmap_get_keys. rewrite HA. unfold hasOwnProperty. by rewrite E0. }
    destruct (Hpres k d0 E0) as (d1 & Hd1 & Hcfg).
    exists d1. rewrite Hframe3 by done. unfold restorable_key. rewrite E0.
    destruct (decide (k ∈ (fst <$> modifiedPropsOriginalValueMapInSandbox sb1)))
      as [[[k' u] [Hk Hu]]%list_elem_of_fmap|Hn].
    + simpl in Hk. subst k'. rewrite (Hval2 k u Hu), Hd1. unfold written_back.
      rewrite Hcfg. apply (jsmap_get_NoDup _ _ _ HndMo) in Hu. rewrite HMo in Hu.
      unfold hasOwnProperty, Get in Hu. rewrite E0 in Hu.
      destruct (is_symbol k); simpl; [by exists d1|].
      destruct (pd_configurable d0) eqn:C0; [|by exists d1].
      eexists. split; [done|]. split; [done|]. split; [done|]. simpl.
      destruct (0 <? writes_to writes k)%nat; congruence.
    + rewrite Hframe2 by done. exists d1. split; [done|]. split; [done|]. split; [done|].
      assert (g1 !! k = g0 !! k) as Heq.
      { apply Hun. apply jsmap_get_keys in Hn. rewrite HMo in Hn.
        unfold hasOwnProperty in Hn. rewrite E0 in Hn.
        destruct (0 <? writes_to writes k)%nat eqn:W; [done|].
        apply Nat.ltb_ge in W. lia. }
      rewrite Hd1, E0 in Heq. injection Heq as ->.
      by destruct (negb (is_symbol k) && pd_configurable d0).
  - destruct (decide (0 < writes_to writes k)%nat) as [Hw|Hw].
    + destruct (first_written_Some writes k Hw) as [v Hv].
      assert ((k, v) ∈ addedPropsMapInSandbox sb1) as HkA.
      { apply jsmap_get_elem_of. rewrite HA. unfold hasOwnProperty. by rewrite E0. }
      by rewrite (Hval3 k v HkA).
    + assert (k ∉ (fst <$> addedPropsMapInSandbox sb1)) as HkA.
      { apply jsmap_get_keys. rewrite HA. unfold hasOwnProperty. rewrite E0.
        apply first_written_None. lia. }
      assert (k ∉ (fst <$> modifiedPropsOriginalValueMapInSandbox sb1)) as HkMo.
      { apply jsmap_get_keys. rewrite HMo. unfold hasOwnProperty. rewrite E0.
        destruct (1 <? writes_to writes k)%nat eqn:W; [|done].
        apply Nat.ltb_lt in W. lia. }
      rewrite Hframe3, Hframe2 by done. rewrite Hun by lia. done.
Qed.

(** X3: the global finds the method of [Object.prototype] under
    [hasOwnProperty].  [inactive] after any run of assignments to plain
    keys through the proxy of a fresh sandbox, whatever the global held:
    it does not throw, it stops the sandbox, and key by key the global
    holds what it held before the sandbox where the key is one
    [setWindowProp] writes back (not a property of the global before, or
    a string key whose property was configurable), and what the writes
    left there otherwise. *)
Theorem deactivation_restores_exactly_the_restorable_keys name gc next g0 writes :
  native_hasOwnProperty g0 = true ->
  forallb (fun kv => plain_key (fst kv)) writes = true ->
  let w1 := write_all writes (mkWorld (fst (new_LegacySandbox name gc next)) g0) in
  fst (inactive w1) = Normal tt /\
  sandboxRunning (this (snd (inactive w1))) = false /\
  forall k,
    value_of (rawWindow (snd (inactive w1))) k
    = if restorable_key g0 k then value_of g0 k else value_of (rawWindow w1) k.
Proof.
  intros Hn Hpl w1.
  destruct (inactive_after_writes name gc next g0 writes Hn Hpl) as (g3 & Hin & Hk).
  fold w1 in Hin, Hk. rewrite Hin. cbn [fst snd this rawWindow].
  split; [done|]. split; [by destruct (this w1)|].
  intros k. specialize (Hk k). unfold value_of, restorable_key in *.
  destruct (g0 !! k) as [d0|] eqn:E0.
  - destruct Hk as (d1 & d3 & -> & -> & _ & Hv). simpl. rewrite Hv.
    by destruct (negb (is_symbol k) && pd_configurable d0).
  - by rewrite Hk.
Qed.

(** X4: the global finds the method of [Object.prototype] under
    [hasOwnProperty].  [active] after [inactive] after any run of
    assignments to plain keys through the proxy of a fresh sandbox: it
    does not throw, the sandbox runs again, and key by key the global
    holds the value written last where the key was written and is a
    string key that [setWindowProp] writes back, and what [inactive] left
    there otherwise.  A symbol key the sandbox added is deleted by
    [inactive] and not written again. *)
Theorem reactivation_replays_exactly_the_replayable_keys name gc next g0 writes :
  native_hasOwnProperty g0 = true ->
  forallb (fun kv => plain_key (fst kv)) writes = true ->
  let w1 := write_all writes (mkWorld (fst (new_LegacySandbox name gc next)) g0) in
  let w2 := snd (inactive w1) in
  let w3 := snd (active w2) in
  fst (active w2) = Normal tt /\
  sandboxRunning (this w3) = true /\
  forall k,
    value_of (rawWindow w3) k
    = match last_written writes k with
      | Some v => if replayable_key g0 k then Some v else value_of (rawWindow w2) k
      | None => value_of (rawWindow w2) k
      end.
Proof.
  intros Hn Hpl w1 w2 w3.
  destruct (inactive_after_writes name gc next g0 writes Hn Hpl) as (g3 & Hin & Hk).
  fold w1 in Hin, Hk.
  pose proof (fun k => write_all_current writes
                (mkWorld (fst (new_LegacySandbox name gc next)) g0) k eq_refl Hn Hpl) as Hcur.
  fold w1 in Hcur.
  assert (Hnd : NoDup (fst <$> currentUpdatedPropsValueMap (this w1))).
  { apply (Hcur (PStr "")). simpl. constructor. }
  assert (Hget : forall k, jsmap_get k (currentUpdatedPropsValueMap (this w1))
                           = last_written writes k).
  { intros k. destruct (Hcur k) as [E _]. rewrite E. by destruct (last_written writes k). }
  assert (Hw2 : w2 = mkWorld (set_sandboxRunning false (this w1)) g3)
    by (subst w2; by rewrite Hin).
  destruct (write_back_loop (set_sandboxRunning false (this w1))
              (currentUpdatedPropsValueMap (this w1)) g3 Hnd) as (g4 & Hrun4 & Hframe4 & Hval4).
  assert (Hact : active w2
                 = (Normal tt,
                    mkWorld (set_sandboxRunning true (set_sandboxRunning false (this w1))) g4)).
  { rewrite Hw2, active_stopped by done.
    change (currentUpdatedPropsValueMap (set_sandboxRunning false (this w1)))
      with (currentUpdatedPropsValueMap (this w1)).
    by rewrite Hrun4. }
  subst w3. rewrite Hact. cbn [fst snd this rawWindow]. split; [done|]. split; [done|].
  intros k. rewrite Hw2. cbn [rawWindow]. unfold value_of.
  destruct (last_written writes k) as [v|] eqn:E.
  - assert ((k, v) ∈ currentUpdatedPropsValueMap (this w1)) as Hin'.
    { apply jsmap_get_elem_of. by rewrite Hget. }
    rewrite (Hval4 k v Hin'). unfold written_back, replayable_key, restorable_key.
    specialize (Hk k).
    destruct (is_symbol k); simpl; [done|].
    destruct (g0 !! k) as [d0|] eqn:E0.
    + destruct Hk as (d1 & d3 & _ & -> & Hc & _). rewrite Hc.
      by destruct (pd_configurable d0).
    + by rewrite Hk.
  - rewrite Hframe4; [done|]. apply jsmap_get_keys. by rewrite Hget.
Qed.

End RoundTrip.

(** [x] is configurable and comes back, [fixed] is not and keeps the
    written value, [y] is new and goes. *)
Lemma deactivation_restores_exactly_the_restorable_keys_witness :
  let g0 : JsObject := {[ PStr "x" := mkPD (VNum 1) true true true;
                          PStr "fixed" := mkPD (VNum 7) true true false ]} in
  let writes := [(PStr "x", VNum 2); (PStr "fixed", VNum 8); (PStr "y", VNum 3)] in
  let g := rawWindow (snd (inactive (write_all writes (mkWorld legacy0 g0)))) in
  (native_hasOwnProperty g0 = true /\
   forallb (fun kv => plain_key (fst kv)) writes = true) /\
  value_of g (PStr "x") = Some (VNum 1) /\
  value_of g (PStr "fixed") = Some (VNum 8) /\
  value_of g (PStr "y") = None.
Proof.
  split; [by vm_compute|].
  pose proof (deactivation_restores_exactly_the_restorable_keys "app" 0%nat 1%nat
                {[ PStr "x" := mkPD (VNum 1) true true true;
                   PStr "fixed" := mkPD (VNum 7) true true false ]}
                [(PStr "x", VNum 2); (PStr "fixed", VNum 8); (PStr "y", VNum 3)]) as H.
  destruct H as (_ & _ & H); [by vm_compute|by vm_compute|].
  rewrite !H. by vm_compute.
Defined.

(** After [inactive] and [active] the guest finds its own [x] and [y]
    again. *)
Lemma reactivation_replays_exactly_the_replayable_keys_witness :
  let g0 : JsObject := {[ PStr "x" := mkPD (VNum 1) true true true ]} in
  let writes := [(PStr "x", VNum 2); (PStr "y", VNum 3)] in
  let w2 := snd (inactive (write_all writes (mkWorld legacy0 g0))) in
  (native_hasOwnProperty g0 = true /\
   forallb (fun kv => plain_key (fst kv)) writes = true) /\
  (value_of (rawWindow w2) (PStr "x") = Some (VNum 1) /\
   value_of (rawWindow w2) (PStr "y") = None) /\
  value_of (rawWindow (snd (active w2))) (PStr "x") = Some (VNum 2) /\
  value_of (rawWindow (snd (active w2))) (PStr "y") = Some (VNum 3).
Proof.
  split; [by vm_compute|]. split; [by vm_compute|].
  pose proof (reactivation_replays_exactly_the_replayable_keys "app" 0%nat 1%nat
                {[ PStr "x" := mkPD (VNum 1) true true true ]}
                [(PStr "x", VNum 2); (PStr "y", VNum 3)]) as H.
  destruct H as (_ & _ & H); [by vm_compute|by vm_compute|].
  rewrite !H. by vm_compute.
Defined.

(** Where the conditions above end.  The guest puts a function that
    answers [true] in the place of [hasOwnProperty]: the new key [z]
    written next passes for a property of the global, so it is recorded
    as modified, with the original [undefined], and not as added, and
    [inactive] leaves it on the global. *)
Lemma replaced_hasOwnProperty_hides_new_keys :
  let w1 := write_all [(PStr "hasOwnProperty", always_true); (PStr "z", VNum 1)]
              (mkWorld legacy0 ∅) in
  jsmap_has (PStr "z") (addedPropsMapInSandbox (this w1)) = false /\
  jsmap_get (PStr "z") (modifiedPropsOriginalValueMapInSandbox (this w1)) = Some VUndefined /\
  fst (inactive w1) = Normal tt /\
  value_of (rawWindow (snd (inactive w1))) (PStr "z") = Some VUndefined.
Proof. by vm_compute. Qed.

(** The guest puts a number there: from then on every write throws
    before anything is recorded, until [inactive] has deleted the
    number. *)
Lemma overwritten_hasOwnProperty_stops_the_writes :
  let w1 := write_all [(PStr "hasOwnProperty", VNum 1)] (mkWorld legacy0 ∅) in
  proxy_set (PStr "x") (VNum 2) w1 = (ThrowTypeError, w1) /\
  jsmap_get (PStr "x") (currentUpdatedPropsValueMap (this (write_all [(PStr "x", VNum 2)] w1)))
  = None.
Proof. by vm_compute. Qed.

(** A write to [__proto__] is recorded and handed to the setter the
    global inherits: no property appears on the global, and a read
    answers what the getter answers. *)
Lemma inherited_setter_takes_the_write :
  let w1 := write_all [(PStr "__proto__", VNum 1)] (mkWorld legacy0 ∅) in
  jsmap_get (PStr "__proto__") (addedPropsMapInSandbox (this w1)) = Some (VNum 1) /\
  rawWindow w1 = ∅ /\
  Get (rawWindow w1) (PStr "__proto__") = Object_prototype.
Proof. by vm_compute. Qed.

End LegacyFacts.

(** ** Activation counters and prototype patches *)

Module DynamicAppendFacts.
Import DynamicAppend.

Lemma calcAppCount_nonneg appName calcType status m :
  counters_nonneg m -> counters_nonneg (calcAppCount appName calcType status m).
Proof.
  intros Hm name c. unfold calcAppCount.
  destruct (decide (appName = name)) as [->|Hne].
  - rewrite lookup_insert_eq. intros [= <-].
    assert (0 <= bootstrappingPatchCount (default (mkCount 0 0) (m !! name)) /\
            0 <= mountingPatchCount (default (mkCount 0 0) (m !! name))) as [Hb Hk].
    { destruct (m !! name) as [c0|] eqn:E; simpl; [by apply (Hm name)|lia]. }
    destruct calcType, status; simpl; try case_match; simpl; lia.
  - rewrite lookup_insert_ne by done. apply Hm.
Qed.

Lemma calc_all_nonneg ops m : counters_nonneg m -> counters_nonneg (calc_all ops m).
Proof.
  revert m. induction ops as [|[[name ct] st] ops IH]; intros m Hm; [done|].
  simpl. apply IH. by apply calcAppCount_nonneg.
Qed.

(** C5: after any run of [calcAppCount] calls from the empty map both
    counts of every application are at least zero, and a decrease of a
    count that reads zero leaves it at zero. *)
Theorem activation_counters_never_negative :
  (forall ops, counters_nonneg (calc_all ops ∅)) /\
  (forall m appName status,
     patchCount status (counters_of m appName) = 0 ->
     patchCount status (counters_of (calcAppCount appName Decrease status m) appName) = 0).
Proof.
  split.
  - intros ops. apply calc_all_nonneg. intros ?? H. by rewrite lookup_empty in H.
  - intros m appName status H0. unfold counters_of, calcAppCount in *.
    rewrite lookup_insert_eq. simpl. rewrite H0. done.
Qed.

Lemma activation_counters_never_negative_witness :
  let m := calc_all [("app", Increase, Mounting); ("app", Decrease, Mounting)] ∅ in
  patchCount Mounting (counters_of m "app") = 0 /\
  patchCount Mounting (counters_of (calcAppCount "app" Decrease Mounting m) "app") = 0.
Proof.
  split; [vm_compute; reflexivity|].
  apply (proj2 activation_counters_never_negative). vm_compute; reflexivity.
Defined.

Lemma patch_twice getters1 getters2 P :
  fst (patchHTMLDynamicAppendPrototypeFunctions getters2
         (fst (patchHTMLDynamicAppendPrototypeFunctions getters1 P)))
  = fst (patchHTMLDynamicAppendPrototypeFunctions getters1 P).
Proof.
  destruct P as [[] [] [] [] []]; reflexivity.
Qed.

Lemma patch_all_first getters callers P :
  patch_all (getters :: callers) P
  = fst (patchHTMLDynamicAppendPrototypeFunctions getters P).
Proof.
  induction callers as [|g callers IH] using rev_ind; [done|].
  unfold patch_all in *. rewrite app_comm_cons, foldl_app. simpl in *.
  rewrite IH. apply patch_twice.
Qed.

Lemma isAllAppsUnmounted_true m :
  isAllAppsUnmounted m = true -> counters_all_zero m.
Proof.
  unfold isAllAppsUnmounted. rewrite forallb_forall. intros H name c Hc.
  apply elem_of_map_to_list, list_elem_of_In in Hc. specialize (H _ Hc). simpl in H.
  apply andb_true_iff in H as [?%Z.eqb_eq ?%Z.eqb_eq]. done.
Qed.

Lemma patch_single_layer getters P :
  single_layer P = true ->
  single_layer (fst (patchHTMLDynamicAppendPrototypeFunctions getters P)) = true /\
  single_layer (snd (patchHTMLDynamicAppendPrototypeFunctions getters P)) = true.
Proof.
  destruct P as [[] [] [] [] []]; unfold single_layer; simpl; intros H;
    repeat (apply andb_true_iff in H as [H ?]); split;
    repeat (apply andb_true_iff; split); done.
Qed.

Lemma perform_call_single_layer st c :
  single_layer (prototypes (fst st)) = true ->
  Forall (fun f => single_layer (fr_unpatchDynamicAppendPrototypeFunctions f) = true) (snd st) ->
  single_layer (prototypes (fst (perform_call st c))) = true /\
  Forall (fun f => single_layer (fr_unpatchDynamicAppendPrototypeFunctions f) = true)
         (snd (perform_call st c)).
Proof.
  destruct st as [s freers]. cbn [fst snd]. intros HP Hfs.
  destruct c as [appName mounting|appName mounting|i]; unfold perform_call.
  - unfold patchLooseSandbox, patchSandbox.
    pose proof (patch_single_layer (LooseGetters appName) _ HP) as [H1 H2].
    destruct (patchHTMLDynamicAppendPrototypeFunctions _ _) as [P' u]. simpl in *.
    split; [done|]. apply Forall_app. split; [done|]. by constructor.
  - unfold patchStrictSandbox, patchSandbox.
    pose proof (patch_single_layer StrictGetters _ HP) as [H1 H2].
    destruct (patchHTMLDynamicAppendPrototypeFunctions _ _) as [P' u]. simpl in *.
    split; [done|]. apply Forall_app. split; [done|]. by constructor.
  - destruct (freers !! i) as [f|] eqn:E; cbn [fst snd]; [|done].
    split; [|done]. unfold free. cbn [prototypes].
    destruct (isAllAppsUnmounted _); [|done].
    unfold unpatch. eapply (Forall_lookup_1 _ _ _ _ Hfs E).
Qed.

Lemma perform_calls_single_layer calls :
  single_layer (prototypes (fst (perform_calls calls))) = true.
Proof.
  unfold perform_calls.
  assert (forall st,
    single_layer (prototypes (fst st)) = true ->
    Forall (fun f => single_layer (fr_unpatchDynamicAppendPrototypeFunctions f) = true) (snd st) ->
    single_layer (prototypes (fst (foldl perform_call st calls))) = true) as H.
  { induction calls as [|c calls IH]; intros st HP Hfs; [done|].
    simpl. destruct (perform_call_single_layer st c HP Hfs). by apply IH. }
  apply H; [done|constructor].
Qed.

(** C4: however many callers run the patcher, the prototypes are the
    ones the first call left (from the browser's own methods: one layer
    of overwritten functions around them); whatever patcher calls and
    calls of the freers they answered follow one another, no slot ever
    holds more than one overwritten function around the browser's
    method; and a [free] that changes the prototypes finds every counter
    of every application at zero. *)
Theorem shared_patches_installed_once_removed_at_zero :
  (forall getters callers P,
     patch_all (getters :: callers) P
     = fst (patchHTMLDynamicAppendPrototypeFunctions getters P)) /\
  (forall getters callers,
     patch_all (getters :: callers) nativePrototypes
     = mkPrototypes
         (appendChildOrInsertBefore (Native NativeHeadAppendChild) getters TargetHead)
         (removeChild (Native NativeHeadRemoveChild) getters TargetHead)
         (appendChildOrInsertBefore (Native NativeBodyAppendChild) getters TargetBody)
         (removeChild (Native NativeBodyRemoveChild) getters TargetBody)
         (appendChildOrInsertBefore (Native NativeHeadInsertBefore) getters TargetHead)) /\
  (forall calls, single_layer (prototypes (fst (perform_calls calls))) = true) /\
  (forall f s,
     prototypes (free f s) <> prototypes s ->
     isAllAppsUnmounted (appsCounterMap (free f s)) = true /\
     counters_all_zero (appsCounterMap (free f s))).
Proof.
  split; [|split; [|split]].
  - intros. apply patch_all_first.
  - intros. by rewrite patch_all_first.
  - apply perform_calls_single_layer.
  - intros f s Hne. unfold free in *. simpl in *.
    destruct (isAllAppsUnmounted _) eqn:E; [|done].
    split; [done|]. by apply isAllAppsUnmounted_true.
Qed.

Lemma shared_patches_installed_once_removed_at_zero_witness :
  let s0 := mkShared nativePrototypes ∅ in
  let fs := patchStrictSandbox "app" false s0 in
  prototypes (free (fst fs) (snd fs)) <> prototypes (snd fs) /\
  counters_all_zero (appsCounterMap (free (fst fs) (snd fs))).
Proof.
  split; [by vm_compute|].
  apply (proj2 (proj2 (proj2 shared_patches_installed_once_removed_at_zero))). by vm_compute.
Defined.

Lemma counters_of_calcAppCount appName calcType status m appName' :
  counters_of (calcAppCount appName calcType status m) appName'
  = if decide (appName' = appName)
    then match calcType with
         | Increase => set_patchCount status (patchCount status (counters_of m appName) + 1)
                         (counters_of m appName)
         | Decrease =>
             if 0 <? patchCount status (counters_of m appName)
             then set_patchCount status (patchCount status (counters_of m appName) - 1)
                    (counters_of m appName)
             else counters_of m appName
         end
    else counters_of m appName'.
Proof.
  unfold counters_of, calcAppCount. case_decide as E.
  - subst. by rewrite lookup_insert_eq.
  - by rewrite lookup_insert_ne.
Qed.

Lemma set_patchCount_same status c : set_patchCount status (patchCount status c) c = c.
Proof. by destruct status, c. Qed.

Lemma set_patchCount_twice status a b c :
  set_patchCount status a (set_patchCount status b c) = set_patchCount status a c.
Proof. by destruct status. Qed.

Lemma patchCount_set status a c : patchCount status (set_patchCount status a c) = a.
Proof. by destruct status. Qed.

Lemma calcAppCount_increase_decrease m appName status :
  0 <= patchCount status (counters_of m appName) ->
  forall appName',
    counters_of (calcAppCount appName Decrease status
                   (calcAppCount appName Increase status m)) appName'
    = counters_of m appName'.
Proof.
  intros H0 appName'. rewrite !counters_of_calcAppCount.
  case_decide as E; [|done]. subst. rewrite decide_True by done.
  rewrite patchCount_set.
  destruct (0 <? _) eqn:L; [|apply Z.ltb_ge in L; lia].
  rewrite set_patchCount_twice.
  replace (patchCount status (counters_of m appName) + 1 - 1)
    with (patchCount status (counters_of m appName)) by lia.
  apply set_patchCount_same.
Qed.

(** X14: an increase followed by a decrease of a count that is not
    negative leaves both counts of every application as they were. *)
Theorem increase_then_decrease_is_a_round_trip m appName status :
  0 <= patchCount status (counters_of m appName) ->
  forall appName',
    counters_of (calcAppCount appName Decrease status
                   (calcAppCount appName Increase status m)) appName'
    = counters_of m appName'.
Proof. apply calcAppCount_increase_decrease. Qed.

Lemma increase_then_decrease_is_a_round_trip_witness :
  let m := calcAppCount "a" Increase Bootstrapping ∅ in
  0 <= patchCount Mounting (counters_of m "a") /\
  counters_of (calcAppCount "a" Decrease Mounting (calcAppCount "a" Increase Mounting m)) "a"
  = counters_of m "a".
Proof.
  split; [by vm_compute|].
  apply (increase_then_decrease_is_a_round_trip
           (calcAppCount "a" Increase Bootstrapping ∅) "a" Mounting).
  by vm_compute.
Defined.

Lemma isAllAppsUnmounted_spec m :
  isAllAppsUnmounted m = true <->
  forall appName, counters_of m appName = mkCount 0 0.
Proof.
  split.
  - intros H%isAllAppsUnmounted_true appName. unfold counters_of.
    destruct (m !! appName) as [[b k]|] eqn:E; [|done].
    destruct (H _ _ E) as [Hb Hk]. simpl in *. by subst.
  - intros H. unfold isAllAppsUnmounted. apply forallb_forall.
    intros [name c] Hin%list_elem_of_In%elem_of_map_to_list. simpl.
    specialize (H name). unfold counters_of in H. rewrite Hin in H. simpl in H.
    by subst.
Qed.

Lemma patch_captures getters P :
  snd (patchHTMLDynamicAppendPrototypeFunctions getters P) = P.
Proof. destruct P as [[] [] [] [] []]; reflexivity. Qed.

Lemma patchSandbox_counters getters appName mounting s :
  appsCounterMap (snd (patchSandbox getters appName mounting s))
  = calcAppCount appName Increase (if mounting then Mounting else Bootstrapping)
      (appsCounterMap s).
Proof.
  unfold patchSandbox. destruct (patchHTMLDynamicAppendPrototypeFunctions _ _).
  by destruct mounting.
Qed.

Lemma patchSandbox_freer getters appName mounting s :
  fst (patchSandbox getters appName mounting s) = mkFreer appName mounting (prototypes s).
Proof.
  unfold patchSandbox.
  pose proof (patch_captures getters (prototypes s)) as H.
  destruct (patchHTMLDynamicAppendPrototypeFunctions _ _). simpl in *. by subst.
Qed.

Lemma free_counters f s :
  appsCounterMap (free f s)
  = calcAppCount (fr_appName f) Decrease (if fr_mounting f then Mounting else Bootstrapping)
      (appsCounterMap s).
Proof. unfold free. simpl. by destruct (fr_mounting f). Qed.

Lemma free_prototypes f s :
  prototypes (free f s)
  = if isAllAppsUnmounted (appsCounterMap (free f s))
    then fr_unpatchDynamicAppendPrototypeFunctions f else prototypes s.
Proof. unfold free. simpl. by destruct (fr_mounting f). Qed.

(** X15: when no application is counted, a patcher call followed by the
    call of the [free] it answered puts the five prototype methods back
    as the patcher found them and leaves no application counted; in
    between, an application is counted. *)
Theorem patch_then_free_restores_the_prototypes getters appName mounting s :
  isAllAppsUnmounted (appsCounterMap s) = true ->
  let f := fst (patchSandbox getters appName mounting s) in
  let s1 := snd (patchSandbox getters appName mounting s) in
  isAllAppsUnmounted (appsCounterMap s1) = false /\
  prototypes (free f s1) = prototypes s /\
  isAllAppsUnmounted (appsCounterMap (free f s1)) = true.
Proof.
  intros H0 f s1. subst f s1. rewrite isAllAppsUnmounted_spec in H0.
  assert (Hz : isAllAppsUnmounted
                 (appsCounterMap (free (fst (patchSandbox getters appName mounting s))
                                       (snd (patchSandbox getters appName mounting s)))) = true).
  { apply isAllAppsUnmounted_spec. intros name.
    rewrite free_counters, patchSandbox_counters, patchSandbox_freer. simpl.
    rewrite calcAppCount_increase_decrease; [done|].
    rewrite H0. by destruct mounting. }
  split; [|split; [|done]].
  - apply not_true_is_false. rewrite isAllAppsUnmounted_spec. intros H.
    specialize (H appName). rewrite patchSandbox_counters in H.
    rewrite counters_of_calcAppCount, decide_True, H0 in H by done.
    by destruct mounting.
  - rewrite free_prototypes, Hz. by rewrite patchSandbox_freer.
Qed.

Lemma patch_then_free_restores_the_prototypes_witness :
  let s := mkShared nativePrototypes ∅ in
  let f := fst (patchStrictSandbox "app" true s) in
  let s1 := snd (patchStrictSandbox "app" true s) in
  isAllAppsUnmounted (appsCounterMap s) = true /\
  prototypes (free f s1) = nativePrototypes.
Proof.
  split; [by vm_compute|].
  apply (patch_then_free_restores_the_prototypes StrictGetters "app" true
           (mkShared nativePrototypes ∅)).
  by vm_compute.
Defined.

Lemma patch_overwrites getters P :
  untouched P = true ->
  untouched (fst (patchHTMLDynamicAppendPrototypeFunctions getters P)) = false.
Proof. destruct P as [[] [] [] [] []]; simpl; intros; done. Qed.

(** X16: one application patches at bootstrapping and then at mounting,
    from prototypes nobody has overwritten.  Freed in reverse order the
    two calls put the prototypes back.  Freed in the order of
    [unmount] (bootstrapping first) they do not: the last [free] puts
    back what the mounting patch found, the overwritten methods, though
    every counter is back at zero. *)
Theorem free_order_decides_whether_the_prototypes_return getters1 getters2 appName s :
  isAllAppsUnmounted (appsCounterMap s) = true ->
  untouched (prototypes s) = true ->
  let f1 := fst (patchSandbox getters1 appName false s) in
  let s1 := snd (patchSandbox getters1 appName false s) in
  let f2 := fst (patchSandbox getters2 appName true s1) in
  let s2 := snd (patchSandbox getters2 appName true s1) in
  (prototypes (free f1 (free f2 s2)) = prototypes s /\
   isAllAppsUnmounted (appsCounterMap (free f1 (free f2 s2))) = true) /\
  (prototypes (free f2 (free f1 s2)) = prototypes s1 /\
   untouched (prototypes (free f2 (free f1 s2))) = false /\
   isAllAppsUnmounted (appsCounterMap (free f2 (free f1 s2))) = true).
Proof.
  intros H0 HP f1 s1 f2 s2.
  rewrite isAllAppsUnmounted_spec in H0.
  assert (Hs1 : prototypes s1
                = fst (patchHTMLDynamicAppendPrototypeFunctions getters1 (prototypes s))).
  { subst s1. unfold patchSandbox. by destruct (patchHTMLDynamicAppendPrototypeFunctions _ _). }
  assert (Hs2 : prototypes s2 = prototypes s1).
  { subst s2. unfold patchSandbox.
    pose proof (patch_twice getters1 getters2 (prototypes s)) as Ht.
    rewrite <- Hs1 in Ht.
    destruct (patchHTMLDynamicAppendPrototypeFunctions getters2 _). simpl in *. done. }
  assert (Hf1 : f1 = mkFreer appName false (prototypes s))
    by apply patchSandbox_freer.
  assert (Hf2 : f2 = mkFreer appName true (prototypes s1))
    by apply patchSandbox_freer.
  assert (Hc2 : forall name,
            counters_of (appsCounterMap s2) name
            = if decide (name = appName) then mkCount 1 1 else mkCount 0 0).
  { intros name. subst s2 s1. rewrite !patchSandbox_counters.
    rewrite !counters_of_calcAppCount, H0. case_decide; [|by rewrite H0].
    rewrite decide_True by done. done. }
  assert (Hm : forall name,
            counters_of (appsCounterMap (free f2 s2)) name
            = if decide (name = appName) then mkCount 1 0 else mkCount 0 0).
  { intros name. rewrite free_counters, Hf2. simpl.
    rewrite counters_of_calcAppCount, !Hc2. by repeat case_decide. }
  assert (Hb : forall name,
            counters_of (appsCounterMap (free f1 s2)) name
            = if decide (name = appName) then mkCount 0 1 else mkCount 0 0).
  { intros name. rewrite free_counters, Hf1. simpl.
    rewrite counters_of_calcAppCount, !Hc2. by repeat case_decide. }
  assert (Hz1 : isAllAppsUnmounted (appsCounterMap (free f1 (free f2 s2))) = true).
  { apply isAllAppsUnmounted_spec. intros name. rewrite free_counters, Hf1. simpl.
    rewrite counters_of_calcAppCount, !Hm. by repeat case_decide. }
  assert (Hz2 : isAllAppsUnmounted (appsCounterMap (free f2 (free f1 s2))) = true).
  { apply isAllAppsUnmounted_spec. intros name. rewrite free_counters, Hf2. simpl.
    rewrite counters_of_calcAppCount, !Hb. by repeat case_decide. }
  split; [split; [|done]|split; [|split; [|done]]].
  - rewrite free_prototypes, Hz1. by rewrite Hf1.
  - rewrite free_prototypes, Hz2. by rewrite Hf2.
  - rewrite free_prototypes, Hz2, Hf2.
    cbn [fr_unpatchDynamicAppendPrototypeFunctions]. rewrite Hs1. by apply patch_overwrites.
Qed.

Lemma free_order_decides_whether_the_prototypes_return_witness :
  let s := mkShared nativePrototypes ∅ in
  let f1 := fst (patchStrictSandbox "app" false s) in
  let s1 := snd (patchStrictSandbox "app" false s) in
  let f2 := fst (patchStrictSandbox "app" true s1) in
  let s2 := snd (patchStrictSandbox "app" true s1) in
  (isAllAppsUnmounted (appsCounterMap s) = true /\ untouched (prototypes s) = true) /\
  prototypes (free f2 (free f1 s2)) = prototypes s1.
Proof.
  split; [by vm_compute|].
  apply (free_order_decides_whether_the_prototypes_return StrictGetters StrictGetters "app"
           (mkShared nativePrototypes ∅)); by vm_compute.
Defined.

End DynamicAppendFacts.

(** ** The lifecycle container *)

Module ContainerFacts.
Import Container.
Local Open Scope list_scope.

Section Facts.
Context {World Freer Rebuilder : Type}.
Variables sandbox_active sandbox_inactive : World -> World.
Variable patchAtMounting : World -> list Freer * World.
Variable call_free : Freer -> World -> Rebuilder * World.
Variable call_rebuild : Rebuilder -> World -> World.
Variable bootstrappingFreers : list Freer.

Abbreviation St := (State World Freer Rebuilder).
Abbreviation forEach_rebuild := (forEach_rebuild call_rebuild).
Abbreviation map_free := (map_free call_free).
Abbreviation rebuild_all := (rebuild_all call_rebuild).
Abbreviation mount :=
  (mount sandbox_active patchAtMounting call_rebuild bootstrappingFreers).
Abbreviation unmount := (unmount sandbox_inactive call_free bootstrappingFreers).

Lemma forEach_rebuild_spec rebuilders (s : St) :
  forEach_rebuild rebuilders s
  = mkState (mountingFreers s) (sideEffectsRebuilders s)
            (rebuild_all rebuilders (world s))
            (trace s ++ (Rebuilt <$> rebuilders)).
Proof.
  revert s. induction rebuilders as [|r rs IH]; intros s; simpl.
  - rewrite app_nil_r. by destruct s.
  - unfold forEach_rebuild, rebuild_all in *. simpl. rewrite IH. simpl.
    by rewrite <- app_assoc.
Qed.

Lemma forEach_rebuild_guard rebuilders (s : St) :
  (if negb (length rebuilders =? 0)%nat then forEach_rebuild rebuilders s else s)
  = forEach_rebuild rebuilders s.
Proof. by destruct rebuilders. Qed.

Lemma map_free_app freers1 freers2 (s : St) :
  map_free (freers1 ++ freers2) s
  = (let (r1, s1) := map_free freers1 s in
     let (r2, s2) := map_free freers2 s1 in
     (r1 ++ r2, s2)).
Proof.
  revert s. induction freers1 as [|f fs IH]; intros s; simpl.
  - by destruct (map_free freers2 s).
  - destruct (do_free call_free f s) as [r s1]. rewrite IH.
    destruct (map_free fs s1) as [r1 s2]. by destruct (map_free freers2 s2).
Qed.

Lemma map_free_spec freers (s : St) :
  length (fst (map_free freers s)) = length freers /\
  mountingFreers (snd (map_free freers s)) = mountingFreers s /\
  sideEffectsRebuilders (snd (map_free freers s)) = sideEffectsRebuilders s /\
  trace (snd (map_free freers s)) = trace s ++ (Freed <$> freers).
Proof.
  revert s. induction freers as [|f fs IH]; intros s; simpl.
  - by rewrite app_nil_r.
  - unfold do_free. destruct (call_free f (world s)) as [r w].
    match goal with |- context [map_free fs ?s1] =>
      destruct (IH s1) as (Hl & Hm & Hr & Ht); destruct (map_free fs s1) as [rs s2] end.
    simpl in *. rewrite Hl, Hm, Hr, Ht, <- app_assoc. done.
Qed.

Lemma mount_spec (s : St) :
  let n := length bootstrappingFreers in
  let rebuilders := sideEffectsRebuilders s in
  let w1 := rebuild_all (take n rebuilders) (sandbox_active (world s)) in
  mount s
  = mkState (fst (patchAtMounting w1)) []
            (rebuild_all (drop n rebuilders) (snd (patchAtMounting w1)))
            (trace s ++ [Activated] ++ (Rebuilt <$> take n rebuilders)
               ++ [PatchedAtMounting] ++ (Rebuilt <$> drop n rebuilders)).
Proof.
  intros n rebuilders w1. subst n rebuilders w1. unfold mount.
  rewrite !forEach_rebuild_guard, !forEach_rebuild_spec.
  unfold Container.rebuild_all. simpl.
  match goal with |- context [patchAtMounting ?w] =>
    destruct (patchAtMounting w) as [freers w2] eqn:E end.
  unfold Container.rebuild_all. simpl.
  by rewrite <- !app_assoc.
Qed.

(** C3: [mount] activates the sandbox, runs the rebuilders of the
    bootstrapping patches (the first [length bootstrappingFreers] of the
    list, in order), installs the mounting patches, runs the remaining
    rebuilders, and empties the list; a second [mount] right after only
    activates and patches; and after [unmount] the two groups are the
    rebuilders answered by the bootstrapping freers and by the mounting
    freers, each in the order the freers were installed. *)
Theorem mount_runs_its_steps_in_order (s : St) :
  let n := length bootstrappingFreers in
  let rebuilders := sideEffectsRebuilders s in
  let w1 := rebuild_all (take n rebuilders) (sandbox_active (world s)) in
  (trace (mount s)
   = trace s ++ [Activated] ++ (Rebuilt <$> take n rebuilders)
       ++ [PatchedAtMounting] ++ (Rebuilt <$> drop n rebuilders)) /\
  world (mount s) = rebuild_all (drop n rebuilders) (snd (patchAtMounting w1)) /\
  mountingFreers (mount s) = fst (patchAtMounting w1) /\
  sideEffectsRebuilders (mount s) = [] /\
  trace (mount (mount s)) = trace (mount s) ++ [Activated; PatchedAtMounting] /\
  (let (atBootstrapping, s1) := map_free bootstrappingFreers s in
   let (atMounting, s2) := map_free (mountingFreers s) s1 in
   trace (unmount s)
   = trace s ++ (Freed <$> bootstrappingFreers ++ mountingFreers s) ++ [Deactivated] /\
   sideEffectsRebuilders (unmount s) = atBootstrapping ++ atMounting /\
   trace (mount (unmount s))
   = trace (unmount s) ++ [Activated] ++ (Rebuilt <$> atBootstrapping)
       ++ [PatchedAtMounting] ++ (Rebuilt <$> atMounting)).
Proof.
  intros n rebuilders w1.
  pose proof (mount_spec s) as Hm. cbv zeta in Hm. fold n rebuilders w1 in Hm.
  split; [by rewrite Hm|]. split; [by rewrite Hm|].
  split; [by rewrite Hm|]. split; [by rewrite Hm|]. split.
  - rewrite (mount_spec (mount s)). rewrite Hm. simpl.
    by rewrite take_nil, drop_nil.
  - pose proof (map_free_app bootstrappingFreers (mountingFreers s) s) as Happ.
    pose proof (map_free_spec (bootstrappingFreers ++ mountingFreers s) s) as Hall.
    pose proof (map_free_spec bootstrappingFreers s) as Hb.
    destruct (map_free bootstrappingFreers s) as [rb s1].
    destruct (map_free (mountingFreers s) s1) as [rm s2].
    assert (unmount s
            = mkState (mountingFreers s) (rb ++ rm) (sandbox_inactive (world s2))
                (trace s ++ (Freed <$> bootstrappingFreers ++ mountingFreers s)
                   ++ [Deactivated])) as Hun.
    { unfold Container.unmount. rewrite Happ in *. simpl in *.
      destruct Hall as (_ & Hfr & _ & Ht). unfold do_inactive. simpl.
      rewrite Hfr, Ht, <- app_assoc. done. }
    rewrite mount_spec, Hun. simpl. destruct Hb as (Hlen & _). simpl in Hlen.
    rewrite take_app_length', drop_app_length' by done. done.
Qed.

End Facts.
End ContainerFacts.

(** ** The window listener patcher *)

Module WindowListenerFacts.
Import Js WindowListener.

(** A triple found in the map is not registered again. *)
Lemma registered_triple_is_ignored s type callback rawOptions i :
  findListenerIndex (default [] (jsmap_get type (listenerMap s)))
    callback (normalizeOptions rawOptions) = Some i ->
  patched_addEventListener type callback rawOptions s = s.
Proof.
  intros H. unfold patched_addEventListener, addCacheListener. by rewrite H.
Qed.

(** C7 fails on the code in its second half.  Two listeners of one type
    are registered (a third call with a triple already present changes
    nothing).  [free] walks the array the map holds for the type while
    the patched [removeEventListener] splices that array, so the second
    entry is never visited: the map is emptied and the original
    functions are back, yet the second listener is still registered on
    the global. *)
Theorem free_skips_the_second_listener_of_a_type :
  let f : ObjRef := 1%nat in
  let g : ObjRef := 2%nat in
  let s := global_addEventListener "click" g RawUndefined
             (global_addEventListener "click" f RawUndefined (patch state0)) in
  eventListeners s = [("click", f, false); ("click", g, false)] /\
  global_addEventListener "click" g (RawBoolean false) s = s /\
  listenerMap (free s) = [] /\
  addEventListener (free s) = RawApi /\
  removeEventListener (free s) = RawApi /\
  eventListeners (free s) = [("click", g, false)].
Proof. vm_compute. repeat split. Qed.

Import JsFacts.

Lemma findListenerIndex_None l r o :
  findListenerIndex l r o = None <-> (r, capture o) ∉ (triple_of <$> l).
Proof.
  induction l as [|item l IH].
  - simpl. split; [intros _ ?%elem_of_nil; done|done].
  - rewrite fmap_cons, not_elem_of_cons. simpl.
    destruct (bool_decide (rawListener item = r)
              && bool_decide (capture (options item) = capture o)) eqn:E.
    + apply andb_true_iff in E as [E1%bool_decide_eq_true E2%bool_decide_eq_true].
      split; [done|]. intros [Hne _]. destruct Hne. unfold triple_of. by rewrite E1, E2.
    + rewrite fmap_None, IH. split; [|by intros [_ ?]].
      intros H. split; [|done]. unfold triple_of. intros [= Hr Hc].
      rewrite <- Hr, <- Hc in E. rewrite !bool_decide_eq_true_2 in E by done. done.
Qed.

Lemma findListenerIndex_app_new l r o :
  findListenerIndex l r o = None ->
  forall item, triple_of item = (r, capture o) ->
  findListenerIndex (l ++ [item]) r o = Some (length l).
Proof.
  induction l as [|x l IH]; simpl; intros Hn item Ht.
  - unfold triple_of in Ht. simplify_eq. by rewrite !bool_decide_eq_true_2.
  - destruct (bool_decide (rawListener x = r) && _); [done|].
    destruct (findListenerIndex l r o) eqn:F; [done|].
    by rewrite (IH eq_refl item Ht).
Qed.

Lemma delete_last {A} (l : list A) x : delete (length l) (l ++ [x]) = l.
Proof. induction l as [|y l IH]; simpl; [done|]. by rewrite IH. Qed.

Lemma filter_ne_app_new (l : list Registration) r :
  r ∉ l -> filter (fun x => x <> r) (l ++ [r]) = l.
Proof.
  intros Hr. rewrite filter_app. simpl.
  rewrite (filter_cons_False _ r) by (intros ?; done). rewrite filter_nil, app_nil_r.
  induction l as [|x l IH]; [done|].
  apply not_elem_of_cons in Hr as [Hne Hr].
  rewrite filter_cons_True by done. by rewrite IH.
Qed.

(** X10: a listener is added and then removed with the same arguments.
    If it was not yet in the map for its type and [capture], and the host
    did not yet hold, for that type and [capture], the function that is
    registered (the listener, or the new wrapper when [once] is set),
    then the host has the registrations it had before and every type has
    the listeners it had before. *)
Theorem add_then_remove_is_a_round_trip s type callback rawOptions :
  let options' := normalizeOptions rawOptions in
  findListenerIndex (listeners_of type s) callback options' = None ->
  (type, (if default false (once options') then nextRef s else callback), flatten options')
    ∉ eventListeners s ->
  let s' := patched_removeEventListener type callback rawOptions
              (patched_addEventListener type callback rawOptions s) in
  eventListeners s' = eventListeners s /\
  (forall type', listeners_of type' s' = listeners_of type' s).
Proof.
  intros options' Hnone Hreg s'. subst options' s'. unfold listeners_of in *.
  unfold patched_removeEventListener, patched_addEventListener, addCacheListener.
  rewrite Hnone.
  destruct (default false (once (normalizeOptions rawOptions))); simpl;
    unfold rawAddEventListener; simpl; rewrite bool_decide_eq_false_2 by done;
    unfold removeCacheListener; simpl; rewrite jsmap_get_set, decide_True by done; simpl;
    rewrite (findListenerIndex_app_new _ _ _ Hnone) by done;
    simpl; rewrite lookup_app_r, Nat.sub_diag by done; simpl;
    unfold rawRemoveEventListener; simpl; rewrite filter_ne_app_new by done;
    (split; [done|]); intros type'; rewrite !jsmap_get_set, delete_last;
    (case_decide; [|done]); subst; by destruct (jsmap_get type (listenerMap s)).
Qed.

Lemma add_then_remove_is_a_round_trip_witness :
  let s := patched_addEventListener "click" 1%nat RawUndefined (patch state0) in
  let o := RawObject (mkOptions (Some true) (Some true) None) in
  let s' := patched_removeEventListener "click" 2%nat o
              (patched_addEventListener "click" 2%nat o s) in
  findListenerIndex (listeners_of "click" s) 2%nat (normalizeOptions o) = None /\
  eventListeners s' = eventListeners s.
Proof.
  split; [by vm_compute|].
  apply (add_then_remove_is_a_round_trip
           (patched_addEventListener "click" 1%nat RawUndefined (patch state0))
           "click" 2%nat (RawObject (mkOptions (Some true) (Some true) None)));
    [by vm_compute|].
  vm_compute. intros H.
  by repeat (apply elem_of_cons in H as [H|H]; [done|]; try by apply elem_of_nil in H).
Defined.

Lemma patch_ok s : cache_ok (patch s).
Proof. split; simpl; try done; [apply NoDup_nil_2|intros ?; apply NoDup_nil_2]. Qed.

Lemma with_eventListeners_ok l s : cache_ok s -> cache_ok (with_eventListeners l s).
Proof. intros [Hk Ha Hr Ht]. by split. Qed.

Lemma removeCacheListener_ok type r o s :
  cache_ok s -> cache_ok (snd (removeCacheListener type r o s)).
Proof.
  intros [Hk Ha Hr Ht]. unfold removeCacheListener.
  destruct (findListenerIndex _ _ _) as [i|] eqn:F; simpl; [|done].
  split; simpl; auto using jsmap_set_NoDup.
  intros type'. unfold listeners_of. simpl. rewrite jsmap_get_set.
  case_decide; [|apply Ht]. subst. simpl.
  rewrite list_fmap_delete. eapply sublist_NoDup; [apply Ht|apply sublist_delete].
Qed.

Lemma addCacheListener_ok type r o s :
  cache_ok s -> cache_ok (snd (addCacheListener type r o s)).
Proof.
  intros [Hk Ha Hr Ht]. unfold addCacheListener.
  destruct (findListenerIndex _ _ _) eqn:F; simpl; [done|].
  apply findListenerIndex_None in F.
  destruct (default false _); simpl; (split; simpl; auto using jsmap_set_NoDup);
    intros type'; unfold listeners_of; simpl; rewrite jsmap_get_set;
    (case_decide; [|apply Ht]); subst; simpl;
    rewrite fmap_app; apply NoDup_app; (split; [apply Ht|]);
    (split; [|apply NoDup_singleton]);
    by intros x Hx ->%list_elem_of_singleton.
Qed.

Lemma rawAddEventListener_ok type c o s : cache_ok s -> cache_ok (rawAddEventListener type c o s).
Proof.
  intros H. unfold rawAddEventListener. case_bool_decide; [done|].
  by apply with_eventListeners_ok.
Qed.

Lemma rawRemoveEventListener_ok type c o s :
  cache_ok s -> cache_ok (rawRemoveEventListener type c o s).
Proof. intros H. by apply with_eventListeners_ok. Qed.

Lemma patched_addEventListener_ok type r o s :
  cache_ok s -> cache_ok (patched_addEventListener type r o s).
Proof.
  intros H. unfold patched_addEventListener.
  pose proof (addCacheListener_ok type r o s H) as H1.
  destruct (addCacheListener type r o s) as [[a|] s1]; simpl in H1; [|done].
  by apply rawAddEventListener_ok.
Qed.

Lemma patched_removeEventListener_ok type r o s :
  cache_ok s -> cache_ok (patched_removeEventListener type r o s).
Proof.
  intros H. unfold patched_removeEventListener.
  pose proof (removeCacheListener_ok type r o s H) as H1.
  destruct (removeCacheListener type r o s) as [a s1]; simpl in H1.
  by apply rawRemoveEventListener_ok.
Qed.

Lemma fire_once_ok closure s : cache_ok s -> cache_ok (fire_once closure s).
Proof.
  intros H. unfold fire_once.
  destruct (jsmap_get closure (onceClosures s)) as [[[type r] o]|]; [|done].
  pose proof (removeCacheListener_ok type r (RawObject o) s H) as H1.
  destruct (removeCacheListener type r (RawObject o) s) as [a s1]; simpl in H1.
  by apply rawRemoveEventListener_ok.
Qed.

Lemma listener_call_ok s c : cache_ok s -> cache_ok (listener_call s c).
Proof.
  intros H. destruct c; simpl.
  - unfold global_addEventListener. rewrite (ok_add _ H).
    by apply patched_addEventListener_ok.
  - unfold global_removeEventListener. rewrite (ok_remove _ H).
    by apply patched_removeEventListener_ok.
  - by apply fire_once_ok.
Qed.

Lemma listener_calls_ok calls : forall s, cache_ok s -> cache_ok (listener_calls calls s).
Proof.
  induction calls as [|c calls IH]; intros s H; simpl; [done|].
  apply IH. by apply listener_call_ok.
Qed.

(** X11: whatever calls of [addEventListener] and [removeEventListener]
    on [global] and firings of [once] wrappers follow [patch], no array
    of the map holds two entries with the same listener and the same
    [capture]. *)
Theorem cache_never_holds_a_triple_twice s0 calls type :
  NoDup (triple_of <$> listeners_of type (listener_calls calls (patch s0))).
Proof. apply ok_triples, listener_calls_ok, patch_ok. Qed.

Lemma findListenerIndex_self item l :
  findListenerIndex (item :: l) (rawListener item) (options item) = Some 0%nat.
Proof. simpl. by rewrite !bool_decide_eq_true_2. Qed.

Lemma findListenerIndex_at pre : forall item post,
  NoDup (triple_of <$> (pre ++ item :: post)) ->
  findListenerIndex (pre ++ item :: post) (rawListener item) (options item)
  = Some (length pre).
Proof.
  induction pre as [|x pre IH]; intros item post Hnd.
  - apply findListenerIndex_self.
  - csimpl in *. apply NoDup_cons in Hnd as [Hnin Hnd].
    destruct (bool_decide (rawListener x = rawListener item)
              && bool_decide (capture (options x) = capture (options item))) eqn:E.
    + apply andb_true_iff in E as [E1%bool_decide_eq_true E2%bool_decide_eq_true].
      destruct Hnin. rewrite fmap_app. apply elem_of_app. right.
      csimpl. apply elem_of_cons. left. unfold triple_of. by rewrite E1, E2.
    + by rewrite IH.
Qed.

Lemma filter_not_elem_of_nil_id (l : list Registration) :
  filter (fun r => r ∉ @nil Registration) l = l.
Proof.
  induction l as [|x l IH]; [done|].
  rewrite filter_cons_True; [by rewrite IH|]. by intros ?%elem_of_nil.
Qed.

Lemma default_Some {A} (d x : A) : default d (Some x) = x.
Proof. done. Qed.

Lemma forEach_listeners_past_the_end len type : forall k s,
  (length (listeners_of type s) <= k)%nat ->
  forEach_listeners len k type s = s.
Proof.
  induction len as [|len IH]; intros k s Hk; simpl; [done|].
  unfold listeners_of in Hk. rewrite lookup_ge_None_2 by done.
  apply IH. unfold listeners_of. lia.
Qed.

Lemma forEach_listeners_visits type len : forall rest pre s,
  removeEventListener s = PatchedApi ->
  jsmap_get type (listenerMap s) = Some (pre ++ rest) ->
  NoDup (triple_of <$> (pre ++ rest)) ->
  (length rest <= len)%nat ->
  let s' := forEach_listeners len (length pre) type s in
  eventListeners s'
  = filter (fun r => r ∉ (registration_of type <$> visited rest)) (eventListeners s) /\
  removeEventListener s' = PatchedApi /\
  (forall type', type' <> type ->
     jsmap_get type' (listenerMap s') = jsmap_get type' (listenerMap s)).
Proof.
  induction len as [|len IH]; intros rest pre s Hr Hget Hnd Hlen.
  - destruct rest; [|simpl in Hlen; lia]. simpl.
    by rewrite filter_not_elem_of_nil_id.
  - destruct rest as [|x [|y rest]].
    + rewrite forEach_listeners_past_the_end.
      * simpl. by rewrite filter_not_elem_of_nil_id.
      * unfold listeners_of. rewrite Hget. simpl. rewrite app_nil_r. lia.
    + cbn [forEach_listeners]. rewrite Hget. rewrite default_Some.
      rewrite list_lookup_middle by done.
      unfold global_removeEventListener. rewrite Hr.
      unfold patched_removeEventListener, removeCacheListener.
      cbn [normalizeOptions]. rewrite Hget. rewrite default_Some.
      rewrite findListenerIndex_at by done.
      rewrite list_lookup_middle by done. rewrite default_Some. cbn [listener options].
      rewrite forEach_listeners_past_the_end.
      * simpl. split; [|split; [done|]].
        -- apply list_filter_iff. intros r. rewrite list_elem_of_singleton. done.
        -- intros type' Hne. rewrite jsmap_get_set. by rewrite decide_False.
      * unfold listeners_of. simpl. rewrite jsmap_get_set, decide_True by done. simpl.
        rewrite delete_middle, app_nil_r. lia.
    + cbn [forEach_listeners]. rewrite Hget. rewrite default_Some.
      rewrite list_lookup_middle by done.
      unfold global_removeEventListener. rewrite Hr.
      unfold patched_removeEventListener, removeCacheListener.
      cbn [normalizeOptions]. rewrite Hget. rewrite default_Some.
      rewrite findListenerIndex_at by done.
      rewrite list_lookup_middle by done. rewrite default_Some. cbn [listener options].
      rewrite delete_middle.
      match goal with
      | |- context [forEach_listeners len (S (length pre)) type ?t] => set (s1 := t)
      end.
      assert (Hget1 : jsmap_get type (listenerMap s1) = Some ((pre ++ [y]) ++ rest)).
      { subst s1. simpl. rewrite jsmap_get_set, decide_True by done.
        by rewrite <- app_assoc. }
      assert (Hnd1 : NoDup (triple_of <$> ((pre ++ [y]) ++ rest))).
      { rewrite <- app_assoc. simpl.
        rewrite fmap_app in Hnd |- *. simpl in Hnd.
        apply NoDup_app in Hnd as (H1 & H2 & H3). apply NoDup_cons in H3 as [_ H3].
        apply NoDup_app. split; [done|]. split; [|done].
        intros t Ht Hin. apply (H2 t Ht). by right. }
      destruct (IH rest (pre ++ [y]) s1) as (E1 & E2 & E3); try done.
      { simpl in Hlen. lia. }
      rewrite length_app in E1, E2, E3. simpl in E1, E2, E3.
      rewrite Nat.add_1_r in E1, E2, E3.
      split; [|split; [done|]].
      * rewrite E1. subst s1. simpl. rewrite list_filter_filter.
        apply list_filter_iff. intros r. rewrite not_elem_of_cons. tauto.
      * intros type' Hne. rewrite E3 by done. subst s1. simpl.
        rewrite jsmap_get_set. by rewrite decide_False.
Qed.

Lemma free_loop_visited es : forall t,
  NoDup (fst <$> es) ->
  (forall type items, (type, items) ∈ es -> jsmap_get type (listenerMap t) = Some items) ->
  (forall type items, (type, items) ∈ es -> NoDup (triple_of <$> items)) ->
  removeEventListener t = PatchedApi ->
  eventListeners (foldl free_step t es)
  = filter (fun r => r ∉ flat_map (fun entry => registration_of (fst entry)
                                                 <$> visited (snd entry)) es)
           (eventListeners t).
Proof.
  induction es as [|[type items] es IH]; intros t Hk Hget Hnd Hr.
  - simpl. by rewrite filter_not_elem_of_nil_id.
  - csimpl in Hk. apply NoDup_cons in Hk as [Hnin Hk].
    assert (Hme : jsmap_get type (listenerMap t) = Some items) by (apply Hget; left).
    destruct (forEach_listeners_visits type (length items) items [] t)
      as (E1 & E2 & E3); try done.
    { apply (Hnd type). left. }
    cbn [foldl]. unfold free_step at 2. unfold listeners_of. cbn [fst].
    rewrite Hme, default_Some. simpl in E1, E2, E3.
    rewrite IH; try done.
    + rewrite E1, list_filter_filter. apply list_filter_iff. intros r.
      cbn [flat_map fst snd]. rewrite not_elem_of_app. tauto.
    + intros type' items' Hin. rewrite E3; [apply Hget; by right|].
      intros ->. apply Hnin, list_elem_of_fmap. by exists (type, items').
    + intros type' items' Hin. apply (Hnd type'). by right.
Qed.

Lemma visited_short {A} (l : list A) : (length l <= 1)%nat -> visited l = l.
Proof. destruct l as [|x [|y l]]; simpl; intros; [done|done|lia]. Qed.

(** X12: what [free] does, after whatever calls on [global]: in every
    array of the map it visits the first entry, the third, and so on
    (each visit removes the visited entry, so the next one moves into its
    place), and it removes from the host exactly the registrations of the
    visited entries; the map is emptied and the two functions of the
    browser are put back.  When no array holds more than one listener,
    every entry is visited and none is registered afterwards. *)
Theorem free_removes_the_listeners_it_visits s0 calls :
  let s := listener_calls calls (patch s0) in
  eventListeners (free s)
  = filter (fun r => r ∉ visited_registrations s) (eventListeners s) /\
  listenerMap (free s) = [] /\
  addEventListener (free s) = RawApi /\
  removeEventListener (free s) = RawApi /\
  (forallb (fun entry => (length (snd entry) <=? 1)%nat) (listenerMap s) = true ->
   visited_registrations s = cached_registrations s /\
   forall type item, item ∈ listeners_of type s ->
     registration_of type item ∉ eventListeners (free s)).
Proof.
  intros s.
  assert (Hok : cache_ok s) by apply listener_calls_ok, patch_ok.
  assert (Hev : eventListeners (free s)
                = filter (fun r => r ∉ visited_registrations s) (eventListeners s)).
  { unfold free. simpl. apply (free_loop_visited (listenerMap s) s).
    - apply Hok.
    - intros type items Hin. by apply jsmap_get_NoDup; [apply Hok|].
    - intros type items Hin. pose proof (ok_triples _ Hok type) as Ht.
      unfold listeners_of in Ht.
      by rewrite (jsmap_get_NoDup type items) in Ht; [|apply Hok|].
    - apply Hok. }
  split; [done|]. do 3 (split; [done|]).
  intros Hone.
  assert (Hvc : visited_registrations s = cached_registrations s).
  { unfold visited_registrations, cached_registrations.
    induction (listenerMap s) as [|[type items] m IHm]; [done|].
    simpl in Hone. apply andb_true_iff in Hone as [Hl%Nat.leb_le Hone].
    simpl. by rewrite IHm, visited_short. }
  split; [done|].
  intros type item Hin. rewrite Hev, Hvc. intros [Hn _]%list_elem_of_filter.
  apply Hn. unfold cached_registrations. apply list_elem_of_In, in_flat_map.
  unfold listeners_of in Hin.
  destruct (jsmap_get type (listenerMap s)) as [items|] eqn:G; simpl in Hin;
    [|by apply elem_of_nil in Hin].
  exists (type, items). split.
  - apply list_elem_of_In. by apply jsmap_get_elem_of.
  - apply list_elem_of_In. simpl. by apply list_elem_of_fmap_2.
Qed.

End WindowListenerFacts.

(** ** The interval patcher *)

Module IntervalFacts.
Import Interval.

Lemma patch_tracked s : ids_in_use s = true -> tracked (patch s) [].
Proof.
  unfold ids_in_use. rewrite forallb_forall. intros H.
  split; simpl; try done; try (by intros id ?%elem_of_nil).
  intros id Hin%list_elem_of_In. by apply Nat.ltb_lt, H.
Qed.

Lemma perform_tracked s handed c :
  tracked s handed -> tracked (fst (perform (s, handed) c)) (snd (perform (s, handed) c)).
Proof.
  intros [Ht Hh Hr Ho Hs Hc]. destruct c as [|x| |x]; simpl.
  - unfold global_setInterval. rewrite Hs. simpl. split; simpl; try done.
    + intros id [Hin| ->%list_elem_of_singleton]%elem_of_app; [|lia].
      apply Ht in Hin. lia.
    + intros id [Hin| ->%list_elem_of_singleton]%elem_of_app; [|lia].
      apply Hh in Hin. lia.
    + intros id [Hid| ->%list_elem_of_singleton]%elem_of_app Hrun;
        apply elem_of_app; [|right; by apply list_elem_of_singleton].
      left. apply Hr; [done|].
      apply elem_of_app in Hrun as [?|Heq%list_elem_of_singleton]; [done|].
      specialize (Hh id Hid). lia.
    + intros id [?|?]%elem_of_app; apply elem_of_app; [left; by apply Ho|by right].
  - unfold global_clearInterval. rewrite Hc. split; simpl; try done.
    + intros id [_ ?]%list_elem_of_filter. by apply Ht.
    + intros id Hid [Hne Hin]%list_elem_of_filter. apply list_elem_of_filter.
      split; [done|]. by apply Hr.
    + intros id [_ ?]%list_elem_of_filter. by apply Ho.
  - split; simpl; try done.
    + intros id [Hin| ->%list_elem_of_singleton]%elem_of_app; [|lia].
      apply Ht in Hin. lia.
    + intros id Hid. specialize (Hh id Hid). lia.
    + intros id Hid [?|Heq%list_elem_of_singleton]%elem_of_app; [by apply Hr|].
      specialize (Hh id Hid). lia.
  - split; simpl; try done.
    + intros id [_ ?]%list_elem_of_filter. by apply Ht.
    + intros id Hid [_ ?]%list_elem_of_filter. by apply Hr.
Qed.

Lemma perform_all_tracked calls : forall s handed,
  tracked s handed ->
  tracked (fst (foldl perform (s, handed) calls)) (snd (foldl perform (s, handed) calls)).
Proof.
  induction calls as [|c calls IH]; intros s handed H; cbn [foldl]; [done|].
  pose proof (perform_tracked s handed c H) as H1.
  destruct (perform (s, handed) c) as [s1 handed1]. by apply IH.
Qed.

Lemma clear_loop ids : forall s,
  clearInterval s = PatchedApi ->
  let s1 := foldl (fun s id => global_clearInterval id s) s ids in
  timers s1 = filter (fun id => id ∉ ids) (timers s) /\
  intervals s1 = filter (fun id => id ∉ ids) (intervals s).
Proof.
  induction ids as [|x ids IH]; intros s Hc; simpl.
  - split; symmetry.
    + induction (timers s) as [|y l IHl]; [done|].
      rewrite filter_cons_True; [by rewrite IHl|]. by intros ?%elem_of_nil.
    + induction (intervals s) as [|y l IHl]; [done|].
      rewrite filter_cons_True; [by rewrite IHl|]. by intros ?%elem_of_nil.
  - unfold global_clearInterval at 2 4. rewrite Hc.
    destruct (IH (patched_clearInterval x s) Hc) as [-> ->]. simpl.
    rewrite !list_filter_filter.
    split; apply list_filter_iff; intros y; rewrite not_elem_of_cons; tauto.
Qed.

Lemma filter_not_elem_of_nil (ids l : list nat) :
  (forall x, x ∈ l -> x ∈ ids) -> filter (fun id => id ∉ ids) l = [].
Proof.
  induction l as [|y l IH]; intros H; [done|].
  rewrite filter_cons_False; [|intros Hn; apply Hn, H; left].
  apply IH. intros x Hx. apply H. by right.
Qed.

Lemma free_timers s :
  clearInterval s = PatchedApi ->
  timers (free s) = filter (fun id => id ∉ intervals s) (timers s) /\
  intervals (free s) = [].
Proof.
  intros Hc. unfold free. simpl.
  destruct (clear_loop (intervals s) s Hc) as [-> ->]. split; [done|].
  by apply filter_not_elem_of_nil.
Qed.

(** X13: whatever the guest (through [global]) and the code outside
    (through [window]) set and clear between [patch] and [free]: after
    [free] no interval handed to the guest is running, every running
    interval that was not handed to the guest still runs, the list of
    the closure is empty and the two functions of the browser are back. *)
Theorem free_clears_the_intervals_of_the_sandbox_only s0 calls :
  ids_in_use s0 = true ->
  let s := fst (perform_all calls (patch s0)) in
  let handed := snd (perform_all calls (patch s0)) in
  (forall id, id ∈ handed -> id ∉ timers (free s)) /\
  (forall id, id ∈ timers s -> id ∉ handed -> id ∈ timers (free s)) /\
  intervals (free s) = [] /\
  setInterval (free s) = RawApi /\ clearInterval (free s) = RawApi.
Proof.
  intros H0 s handed.
  assert (Htr : tracked s handed)
    by (apply perform_all_tracked, patch_tracked, H0).
  destruct (free_timers s (tk_clear _ _ Htr)) as [Ht Hi].
  split; [|split; [|split; [done|done]]].
  - intros id Hid. rewrite Ht. intros [Hn Hrun]%list_elem_of_filter.
    apply Hn. by apply (tk_running _ _ Htr).
  - intros id Hrun Hid. rewrite Ht. apply list_elem_of_filter. split; [|done].
    intros Hown. apply Hid. by apply (tk_own _ _ Htr).
Qed.

Lemma free_clears_the_intervals_of_the_sandbox_only_witness :
  let s0 := mkState [] [3; 5]%nat 7%nat RawApi RawApi in
  let calls := [GuestSetInterval; HostSetInterval; GuestSetInterval;
                GuestClearInterval 7%nat; HostClearInterval 3%nat] in
  ids_in_use s0 = true /\
  forall id, id ∈ snd (perform_all calls (patch s0)) ->
             id ∉ timers (free (fst (perform_all calls (patch s0)))).
Proof.
  split; [reflexivity|].
  apply (free_clears_the_intervals_of_the_sandbox_only
           (mkState [] [3; 5]%nat 7%nat RawApi RawApi)
           [GuestSetInterval; HostSetInterval; GuestSetInterval;
            GuestClearInterval 7%nat; HostClearInterval 3%nat]).
  reflexivity.
Defined.

End IntervalFacts.

(** ** The CSS scoping engine *)

Module CssFacts.
Import RegExp Css.

(** C8: a rule whose selector is a root selector has the selector
    replaced by the prefix; a rule with an ordinary selector has the
    prefix put in front of it. *)
Theorem root_selector_is_replaced_ordinary_selector_is_prefixed :
  let prefix := scope_prefix "div" "data-ns" "a" in
  ruleStyle "body" "body { margin: 0; }" prefix = prefix +:+ " { margin: 0; }" /\
  ruleStyle "html" "html { margin: 0; }" prefix = prefix +:+ " { margin: 0; }" /\
  ruleStyle ":root" ":root { margin: 0; }" prefix = prefix +:+ " { margin: 0; }" /\
  ruleStyle ".title" ".title { color: red; }" prefix
  = prefix +:+ " .title { color: red; }" /\
  rewrite [CSSStyleRule "body" "body { margin: 0; }";
           CSSStyleRule ".title" ".title { color: red; }"] prefix
  = prefix +:+ " { margin: 0; }" +:+ prefix +:+ " .title { color: red; }".
Proof. vm_compute. repeat split. Qed.

(** C9: once [process] has tagged a style element, a further call with
    whatever prefix answers the element as it is; its text is the same. *)
Theorem process_is_idempotent cssRules_of styleNode prefix prefix' :
  modified (process cssRules_of styleNode prefix) = true ->
  process cssRules_of (process cssRules_of styleNode prefix) prefix'
  = process cssRules_of styleNode prefix /\
  textContent (process cssRules_of (process cssRules_of styleNode prefix) prefix')
  = textContent (process cssRules_of styleNode prefix).
Proof.
  intros Htag.
  assert (process cssRules_of (process cssRules_of styleNode prefix) prefix'
          = process cssRules_of styleNode prefix) as E.
  { unfold process at 1. by rewrite Htag. }
  by rewrite E.
Qed.

Lemma process_is_idempotent_witness :
  let cssRules_of := fun _ : string => [CSSStyleRule ".title" ".title { color: red; }"] in
  let styleNode := mkStyle ".title { color: red; }" false [] in
  let once := process cssRules_of styleNode (scope_prefix "div" "data-qiankun" "a") in
  modified once = true /\
  textContent once = scope_prefix "div" "data-qiankun" "a" +:+ " .title { color: red; }" /\
  textContent (process cssRules_of once (scope_prefix "span" "data-qiankun" "b"))
  = textContent once.
Proof.
  split; [by vm_compute|]. split; [by vm_compute|].
  apply (process_is_idempotent
           (fun _ : string => [CSSStyleRule ".title" ".title { color: red; }"])
           (mkStyle ".title { color: red; }" false [])
           (scope_prefix "div" "data-qiankun" "a") (scope_prefix "span" "data-qiankun" "b")).
  by vm_compute.
Defined.

Lemma mutator_modified prefix sheet mutations styleNode :
  modified styleNode = true -> mutator prefix sheet mutations styleNode = styleNode.
Proof. intros H. destruct mutations; simpl; [done|]. by rewrite H. Qed.

Lemma mutator_spec prefix sheet mutations styleNode :
  modified styleNode = false ->
  mutator prefix sheet mutations styleNode
  = if existsb is_childList mutations
    then mkStyle (rewrite sheet prefix) true (observers styleNode)
    else styleNode.
Proof.
  intros H. induction mutations as [|m ms IH]; simpl; [done|].
  rewrite H. destruct m; simpl; try done.
  by rewrite mutator_modified.
Qed.

(** X17: [process] on an empty, untagged style element only registers
    an observer; the first [childList] mutation of a batch then rewrites
    the rules of the sheet with the prefix of that call and tags the
    element, and no later mutation and no later [process] changes it. *)
Theorem empty_style_element_is_rewritten_once_when_filled
  cssRules_of styleNode prefix sheet mutations :
  modified styleNode = false ->
  textContent styleNode = "" ->
  existsb is_childList mutations = true ->
  let observed := process cssRules_of styleNode prefix in
  let filled := mutator prefix sheet mutations observed in
  observed = mkStyle "" false (observers styleNode ++ [prefix]) /\
  filled = mkStyle (rewrite sheet prefix) true (observers styleNode ++ [prefix]) /\
  (forall prefix' sheet' mutations', mutator prefix' sheet' mutations' filled = filled) /\
  (forall prefix', process cssRules_of filled prefix' = filled).
Proof.
  intros Hm Ht Hc observed filled.
  assert (Ho : observed = mkStyle "" false (observers styleNode ++ [prefix])).
  { subst observed. unfold process. rewrite Hm, Ht. simpl. done. }
  assert (Hf : filled = mkStyle (rewrite sheet prefix) true (observers styleNode ++ [prefix])).
  { subst filled. rewrite Ho, mutator_spec by done. by rewrite Hc. }
  split; [done|]. split; [done|]. rewrite Hf. split.
  - intros. by apply mutator_modified.
  - intros. done.
Qed.

Lemma empty_style_element_is_rewritten_once_when_filled_witness :
  let cssRules_of := fun _ : string => [] in
  let sheet := [CSSStyleRule ".title" ".title { color: red; }"] in
  let prefix := scope_prefix "div" "data-qiankun" "a" in
  let observed := process cssRules_of (mkStyle "" false []) prefix in
  mutator prefix sheet [attributes; childList; childList] observed
  = mkStyle (rewrite sheet prefix) true [prefix].
Proof.
  apply (proj1 (proj2 (empty_style_element_is_rewritten_once_when_filled
                (fun _ : string => []) (mkStyle "" false [])
                (scope_prefix "div" "data-qiankun" "a")
                [CSSStyleRule ".title" ".title { color: red; }"]
                [attributes; childList; childList]
                eq_refl eq_refl eq_refl))).
Defined.

Lemma rewrite_rule_no_style prefix1 prefix2 :
  forall rule, has_style_rule rule = false ->
  rewrite_rule prefix1 rule = rewrite_rule prefix2 rule.
Proof.
  fix IH 1. intros [sel css|c m rules|c t rules|t]; simpl; intros H; try done.
  - f_equal. induction rules as [|r rules IHr]; simpl; [done|].
    simpl in H. apply orb_false_iff in H as [Hr Hrs].
    by rewrite (IH r Hr), (IHr Hrs).
  - f_equal. induction rules as [|r rules IHr]; simpl; [done|].
    simpl in H. apply orb_false_iff in H as [Hr Hrs].
    by rewrite (IH r Hr), (IHr Hrs).
Qed.

(** X18: rules among which no style rule stands, at whatever depth
    inside [@media] and [@supports], are written out the same whatever
    the prefix. *)
Theorem rules_without_style_rules_ignore_the_prefix rules prefix1 prefix2 :
  existsb has_style_rule rules = false ->
  rewrite rules prefix1 = rewrite rules prefix2.
Proof.
  unfold rewrite. induction rules as [|r rules IH]; simpl; [done|].
  intros [Hr Hrs]%orb_false_iff.
  by rewrite (rewrite_rule_no_style prefix1 prefix2 r Hr), (IH Hrs).
Qed.

Lemma rules_without_style_rules_ignore_the_prefix_witness :
  let rules := [CSSOtherRule "@font-face { font-family: x; }";
                CSSMediaRule (Some "print") "print"
                  [CSSOtherRule "@page { margin: 1cm; }"]] in
  rewrite rules (scope_prefix "div" "data-qiankun" "a") = rewrite rules "".
Proof.
  apply (rules_without_style_rules_ignore_the_prefix
           [CSSOtherRule "@font-face { font-family: x; }";
            CSSMediaRule (Some "print") "print" [CSSOtherRule "@page { margin: 1cm; }"]]).
  reflexivity.
Defined.

Lemma greedy_brace_none b : forall p cs,
  forallb (fun c => negb (Ascii.eqb c "{")) b = true ->
  greedy (fun _ => true) p b cs (fun st' => rmatch false (Chr "{") st' Some) = None.
Proof.
  induction b as [|x b IH]; intros p cs H; simpl; [done|].
  simpl in H. apply andb_true_iff in H as [Hx Hb].
  rewrite IH by done. by destruct (Ascii.eqb x "{").
Qed.

Lemma greedy_last_brace a : forall p cs b,
  forallb (fun c => negb (Ascii.eqb c "{")) b = true ->
  greedy (fun _ => true) p (a ++ "{"%char :: b) cs (fun st' => rmatch false (Chr "{") st' Some)
  = Some (mkM (Some "{"%char) b cs).
Proof.
  induction a as [|x a IH]; intros p cs b H; simpl.
  - by rewrite greedy_brace_none.
  - by rewrite IH.
Qed.

Lemma take_minus_suffix (l b : list ascii) :
  take (length (l ++ b) - length b) (l ++ b) = l.
Proof.
  rewrite length_app. replace (length l + length b - length b)%nat with (length l) by lia.
  apply take_app_length.
Qed.

Lemma search_selectors x a b :
  forallb (fun c => negb (Ascii.eqb c "{")) b = true ->
  search false selectorsRE None (x :: a ++ "{"%char :: b) []
  = Some (mkFound [] (x :: a ++ ["{"%char]) [] (mkM (Some "{"%char) b [])).
Proof.
  intros H. unfold search, selectorsRE. simpl.
  rewrite greedy_last_brace by done. simpl. f_equal. f_equal.
  pose proof (take_minus_suffix (x :: a ++ ["{"%char]) b) as E.
  simpl in E. rewrite <- app_assoc in E. simpl in E. exact E.
Qed.

Lemma greedy_all f l : forall p cs k r,
  forallb f l = true ->
  k (mkM (last_char p l) [] cs) = Some r ->
  greedy f p l cs k = Some r.
Proof.
  induction l as [|x l IH]; intros p cs k r H Hk; simpl in *; [done|].
  apply andb_true_iff in H as [Hx Hl]. rewrite Hx.
  by rewrite (IH (Some x) cs k r).
Qed.

Lemma greedy_spaces l : forall p cs,
  exists p', greedy (fun c => Ascii.eqb c " ") p l cs Some
             = Some (mkM p' (drop_spaces l) cs).
Proof.
  induction l as [|x l IH]; intros p cs; simpl; [by eexists|].
  destruct (Ascii.eqb x " "); [|by eexists].
  destruct (IH (Some x) cs) as [p' ->]. by eexists.
Qed.

Lemma strip_leading_spaces (l : list ascii) :
  replace_first_with false leadingSpacesRE (fun _ => "") (str l) = str (drop_spaces l).
Proof.
  unfold replace_first_with, str. rewrite String.list_ascii_of_string_of_list_ascii.
  destruct l as [|x l]; [done|].
  unfold search, leadingSpacesRE. cbn [rmatch at_bol prev rest caps].
  destruct (greedy_spaces (x :: l) None []) as [p' ->]. cbn [rest skipped after]. done.
Qed.

Lemma last_char_Some l : forall c, exists c', last_char (Some c) l = Some c'.
Proof. induction l as [|x l IH]; intros c; simpl; [by eexists|apply IH]. Qed.

Lemma search_selector_item x l :
  forallb (fun c => negb (Ascii.eqb c ",")) (x :: l) = true ->
  search false selectorItemRE None (x :: l) []
  = Some (mkFound [] (x :: l) [(2%nat, x :: l); (1%nat, [])]
            (mkM (last_char None (x :: l)) [] [(2%nat, x :: l); (1%nat, [])])).
Proof.
  intros H. simpl in H. apply andb_true_iff in H as [Hx Hl].
  unfold search, selectorItemRE. cbn [rmatch at_bol prev rest caps].
  rewrite Hx, Nat.sub_diag.
  erewrite greedy_all; [|exact Hl|reflexivity].
  cbn [rest caps prev length last_char rev take]. rewrite Nat.sub_0_r.
  cbn [take]. by rewrite !take_ge by lia.
Qed.

Lemma search_selector_item_end c :
  search false selectorItemRE (Some c) [] [] = None.
Proof. reflexivity. Qed.

Lemma replace_selector_item (replacement : found -> string) x l :
  forallb (fun c => negb (Ascii.eqb c ",")) (x :: l) = true ->
  replace_all_with false selectorItemRE replacement (str (x :: l))
  = replacement (mkFound [] (x :: l) [(2%nat, x :: l); (1%nat, [])]
                   (mkM (last_char None (x :: l)) [] [(2%nat, x :: l); (1%nat, [])])).
Proof.
  intros H. unfold replace_all_with, str.
  rewrite String.list_ascii_of_string_of_list_ascii.
  cbn [replace_loop length]. rewrite search_selector_item by done.
  cbn [skipped matched after rest prev app].
  destruct (last_char_Some l x) as [c Hc]. cbn [last_char]. rewrite Hc.
  destruct (length l); cbn [replace_loop]; rewrite ?search_selector_item_end;
    by rewrite app_nil_r, String.string_of_list_ascii_of_string.
Qed.

Lemma str_app l1 l2 : str (l1 ++ l2) = str l1 +:+ str l2.
Proof.
  unfold str. induction l1 as [|x l1 IH]; [done|].
  change (String x (String.string_of_list_ascii (l1 ++ l2))
          = String x (String.string_of_list_ascii l1 +:+ String.string_of_list_ascii l2)).
  by rewrite IH.
Qed.

Lemma str_of_string s : str (String.list_ascii_of_string s) = s.
Proof. apply String.string_of_list_ascii_of_string. Qed.

Lemma append_assoc' (a b c : string) : (a +:+ b) +:+ c = a +:+ (b +:+ c).
Proof.
  induction a as [|x a IH]; [done|].
  change (String x ((a +:+ b) +:+ c) = String x (a +:+ (b +:+ c))). by rewrite IH.
Qed.

Lemma drop_spaces_app l b :
  existsb (fun c => negb (Ascii.eqb c " ")) l = true ->
  drop_spaces (l ++ b) = drop_spaces l ++ b.
Proof.
  induction l as [|x l IH]; simpl; [done|].
  destruct (Ascii.eqb x " "); simpl; [apply IH|done].
Qed.

(** X20: a rule whose selector is not a root selector and has no
    [html] combination, and whose text is one selector without a comma and
    without a root selector in it, a brace, and declarations without a
    further opening brace: [ruleStyle] answers the prefix, a space, and
    the text without its leading spaces. *)
Theorem single_ordinary_selector_gets_the_prefix selectorText sel body prefix :
  is_root_selector (trim selectorText) = false ->
  test true rootCombinationRE selectorText = false ->
  sel <> [] ->
  forallb (fun c => negb (Ascii.eqb c ",")) sel = true ->
  forallb (fun c => negb (Ascii.eqb c "{")) body = true ->
  test true rootSelectorRE (str (sel ++ ["{"%char])) = false ->
  ruleStyle selectorText (str (sel ++ "{"%char :: body)) prefix
  = prefix +:+ " " +:+ str (drop_spaces (sel ++ "{"%char :: body)).
Proof.
  intros Hroot Hcomb Hne Hsel Hbody Htest.
  destruct sel as [|x a]; [done|]. clear Hne.
  unfold ruleStyle. unfold is_root_selector in Hroot. rewrite Hroot, Hcomb.
  unfold replace_first_with at 1.
  unfold str at 1. rewrite String.list_ascii_of_string_of_list_ascii.
  change ((x :: a) ++ "{"%char :: body) with (x :: a ++ "{"%char :: body).
  rewrite search_selectors by done. cbn [skipped matched after rest].
  rewrite replace_selector_item.
  2:{ change (x :: a ++ ["{"%char]) with ((x :: a) ++ ["{"%char]).
      rewrite forallb_app, Hsel. reflexivity. }
  cbn [matched group groups Js.jsmap_get].
  change (x :: a ++ ["{"%char]) with ((x :: a) ++ ["{"%char]) in *.
  rewrite Htest.
  assert (G2 : default [] (Js.jsmap_get 2%nat
                 [(2%nat, (x :: a) ++ ["{"%char]); (1%nat, [])])
               = (x :: a) ++ ["{"%char]) by reflexivity.
  assert (G1 : default [] (Js.jsmap_get 1%nat
                 [(2%nat, (x :: a) ++ ["{"%char]); (1%nat, [])]) = [])
    by reflexivity.
  unfold group. cbn [groups]. rewrite G1, G2.
  rewrite strip_leading_spaces.
  change (str []) with "". cbn [String.append app].
  rewrite <- (str_of_string (prefix +:+ " " +:+ str (drop_spaces ((x :: a) ++ ["{"%char])))) at 1.
  rewrite String.list_ascii_of_string_of_list_ascii.
  rewrite str_app, str_of_string, !append_assoc', <- str_app.
  rewrite <- drop_spaces_app.
  - by rewrite <- app_assoc.
  - rewrite existsb_app. apply orb_true_iff. by right.
Qed.

Lemma single_ordinary_selector_gets_the_prefix_witness :
  let prefix := scope_prefix "div" "data-qiankun" "app" in
  ruleStyle "ul > li.item:hover"
    (str (String.list_ascii_of_string "ul > li.item:hover "
          ++ "{"%char :: String.list_ascii_of_string " color: red; }")) prefix
  = prefix +:+ " ul > li.item:hover { color: red; }".
Proof.
  apply (single_ordinary_selector_gets_the_prefix "ul > li.item:hover"
           (String.list_ascii_of_string "ul > li.item:hover ")
           (String.list_ascii_of_string " color: red; }")
           (scope_prefix "div" "data-qiankun" "app")); by vm_compute.
Defined.

Lemma substitute_plain ngroups template preceding m :
  forallb (fun c => negb (Ascii.eqb c "$")) template = true ->
  substitute ngroups template preceding m = template.
Proof.
  induction template as [|c t IH]; simpl; [done|].
  intros [Hc Ht]%andb_true_iff. rewrite Hc. simpl. by rewrite IH.
Qed.

Lemma search_root_word root rest :
  is_root_selector root = true ->
  exists cs,
    search true rootSelectorRE None (String.list_ascii_of_string root ++ rest) []
    = Some (mkFound [] (String.list_ascii_of_string root) cs
              (mkM (last_char None (String.list_ascii_of_string root)) rest cs)).
Proof.
  unfold is_root_selector.
  intros [[->%bool_decide_eq_true| ->%bool_decide_eq_true]%orb_true_iff
         | ->%bool_decide_eq_true]%orb_true_iff;
    eexists; unfold search, rootSelectorRE; simpl.
  - pose proof (take_minus_suffix (String.list_ascii_of_string "html") rest) as E.
    simpl in E. rewrite E. reflexivity.
  - pose proof (take_minus_suffix (String.list_ascii_of_string "body") rest) as E.
    simpl in E. rewrite E. reflexivity.
  - pose proof (take_minus_suffix (String.list_ascii_of_string ":root") rest) as E.
    simpl in E. rewrite E. reflexivity.
Qed.

(** X19: a rule whose selector is a root selector and whose text is a
    root selector followed by a text in which the root selector
    expression finds nothing more: [ruleStyle] answers the prefix followed
    by that text, for a prefix without a dollar sign (the prefix is used
    as a replacement pattern). *)
Theorem root_selector_is_replaced_by_the_prefix selectorText root text prefix :
  is_root_selector (trim selectorText) = true ->
  is_root_selector root = true ->
  search true rootSelectorRE (last_char None (String.list_ascii_of_string root)) text [] = None ->
  forallb (fun c => negb (Ascii.eqb c "$")) (String.list_ascii_of_string prefix) = true ->
  ruleStyle selectorText (root +:+ str text) prefix = prefix +:+ str text.
Proof.
  intros Hsel Hroot Hrest Hplain.
  unfold ruleStyle. unfold is_root_selector in Hsel. rewrite Hsel.
  unfold replace_all.
  assert (Hin : String.list_ascii_of_string (root +:+ str text)
                = String.list_ascii_of_string root ++ text).
  { rewrite <- (str_of_string root) at 1. rewrite <- str_app.
    apply String.list_ascii_of_string_of_list_ascii. }
  rewrite Hin.
  destruct (search_root_word root text Hroot) as [cs Hs].
  cbn [replace_loop]. rewrite Hs. cbn [skipped matched after rest prev app].
  rewrite substitute_plain by done.
  assert (Hm : String.list_ascii_of_string root <> []).
  { unfold is_root_selector in Hroot.
    apply orb_true_iff in Hroot as [[->%bool_decide_eq_true| ->%bool_decide_eq_true]%orb_true_iff
                                   | ->%bool_decide_eq_true]; done. }
  destruct (String.list_ascii_of_string root) as [|c0 l0] eqn:El; [done|].
  destruct (length ((c0 :: l0) ++ text)) as [|n] eqn:Len; [done|].
  cbn [replace_loop]. rewrite Hrest.
  change (String.string_of_list_ascii (String.list_ascii_of_string prefix ++ text))
    with (str (String.list_ascii_of_string prefix ++ text)).
  by rewrite str_app, str_of_string.
Qed.

Lemma root_selector_is_replaced_by_the_prefix_witness :
  let prefix := scope_prefix "div" "data-qiankun" "app" in
  ruleStyle " :root " (":root" +:+ str (String.list_ascii_of_string " { --gap: 4px; }")) prefix
  = prefix +:+ " { --gap: 4px; }".
Proof.
  apply (root_selector_is_replaced_by_the_prefix " :root " ":root"
           (String.list_ascii_of_string " { --gap: 4px; }")
           (scope_prefix "div" "data-qiankun" "app")); by vm_compute.
Defined.

End CssFacts.

(** ** The configuration and the registry *)

Module ApisFacts.
Import Apis.

Section Configuration.
Context {Others : Type}.
Implicit Types configuration : FrameworkConfiguration Others.

(** X21: [autoDowngradeForLowVersionBrowser] applied to its own result,
    in the same browser, changes nothing. *)
Theorem downgrade_is_idempotent browser configuration :
  autoDowngradeForLowVersionBrowser browser
    (autoDowngradeForLowVersionBrowser browser configuration)
  = autoDowngradeForLowVersionBrowser browser configuration.
Proof.
  destruct browser as [[] []], configuration as [[[[]|[? ? ? [[]|]]]|] ? ?];
    reflexivity.
Qed.

(** X22: when a downgraded configuration leads loadApp to make a
    sandbox: without [window.Proxy] it is the snapshot sandbox and the
    loose patchers are used; a speedy proxy sandbox is made only in a
    browser with [window.Proxy] and const destructuring; and the
    configuration asked for a sandbox before it was downgraded. *)
Theorem downgraded_configuration_fits_the_browser browser configuration kind :
  sandbox_of browser (autoDowngradeForLowVersionBrowser browser configuration) = Some kind ->
  (hasProxy browser = false ->
     kind = SnapshotSandbox /\
     useLooseSandbox (autoDowngradeForLowVersionBrowser browser configuration) = true) /\
  (kind = ProxySandbox true ->
     hasProxy browser = true /\ constDestructAssignmentSupported browser = true) /\
  sandbox_of browser configuration <> None.
Proof.
  destruct browser as [[] []],
    configuration as [[[[]|[? ? [[]|] [[]|]]]|] ? ?]; cbn;
    intros [= <-]; repeat split; try done; intros; simplify_eq.
Qed.

End Configuration.

Lemma downgraded_configuration_fits_the_browser_witness :
  let browser := mkBrowser false true in
  let configuration :=
    mkConfiguration (Others:=unit)
      (Some (SandboxObject (mkSandboxOptions None (Some true) None None))) None tt in
  useLooseSandbox (autoDowngradeForLowVersionBrowser browser configuration) = true.
Proof.
  apply (proj1 (downgraded_configuration_fits_the_browser
                  (mkBrowser false true)
                  (mkConfiguration (Others:=unit)
                     (Some (SandboxObject (mkSandboxOptions None (Some true) None None)))
                     None tt)
                  SnapshotSandbox eq_refl)).
  reflexivity.
Defined.

Section Register.
Context {AppConfig : Type}.
Implicit Types s : Registry AppConfig.
Implicit Types apps : list (RegistrableApp AppConfig).

Lemma existsb_name_spec (n : string) (l : list (RegistrableApp AppConfig)) :
  existsb (fun r => bool_decide (name r = n)) l = true <-> n ∈ (name <$> l).
Proof.
  rewrite existsb_exists, list_elem_of_fmap. split.
  - intros (r & Hin%list_elem_of_In & ?%bool_decide_eq_true). by exists r.
  - intros (r & -> & Hin%list_elem_of_In). exists r. split; [done|].
    by apply bool_decide_eq_true.
Qed.

Lemma filter_all_False {A} (P : A -> Prop) `{!forall x, Decision (P x)} (l : list A) :
  (forall x, x ∈ l -> ~ P x) -> filter P l = [].
Proof.
  induction l as [|x l IH]; intros Hall; [done|].
  rewrite filter_cons_False by (apply Hall; left).
  apply IH. intros y Hy. apply Hall. by right.
Qed.

(** X23: a second [registerMicroApps] with the same applications
    registers nothing. *)
Theorem registering_again_changes_nothing apps s :
  registerMicroApps apps (registerMicroApps apps s) = registerMicroApps apps s.
Proof.
  unfold registerMicroApps at 1.
  rewrite (filter_all_False _ apps).
  - simpl. by rewrite !app_nil_r.
  - intros app Hin. rewrite negb_true_iff, not_false_iff_true, existsb_name_spec.
    unfold registerMicroApps. simpl. rewrite fmap_app, elem_of_app.
    destruct (decide (name app ∈ name <$> microApps s)) as [?|Hn]; [by left|].
    right. apply list_elem_of_fmap. exists app. split; [done|].
    apply list_elem_of_filter. split; [|done].
    apply negb_true_iff, not_true_iff_false. by rewrite existsb_name_spec.
Qed.

Lemma registerMicroApps_NoDup apps s :
  NoDup (name <$> apps) ->
  NoDup (names_of s) /\ registered s = names_of s ->
  NoDup (names_of (registerMicroApps apps s)) /\
  registered (registerMicroApps apps s) = names_of (registerMicroApps apps s).
Proof.
  intros Ha [Hs Hr]. unfold names_of, registerMicroApps in *. simpl.
  rewrite fmap_app. split; [|by rewrite Hr].
  apply NoDup_app. split; [done|]. split.
  - intros n Hn (app & -> & [Hf _]%list_elem_of_filter)%list_elem_of_fmap.
    apply negb_true_iff, not_true_iff_false in Hf. apply Hf.
    by apply existsb_name_spec.
  - eapply sublist_NoDup; [exact Ha|]. apply fmap_sublist, sublist_filter.
Qed.

(** X24: when no call of [registerMicroApps] is given a name twice, no
    name is ever registered twice, and [registerApplication] was called
    once for each registered application, in order. *)
Theorem registered_names_stay_distinct (batches : list (list (RegistrableApp AppConfig))) :
  forallb distinct_names batches = true ->
  let s := register_all batches (mkRegistry [] []) in
  NoDup (names_of s) /\ registered s = names_of s.
Proof.
  intros H. unfold register_all.
  assert (G : forall s, NoDup (names_of s) /\ registered s = names_of s ->
    NoDup (names_of (foldl (fun s apps => registerMicroApps apps s) s batches)) /\
    registered (foldl (fun s apps => registerMicroApps apps s) s batches)
    = names_of (foldl (fun s apps => registerMicroApps apps s) s batches)).
  { induction batches as [|apps batches IH]; intros s Hs; [done|].
    simpl in H. apply andb_true_iff in H as [Ha%bool_decide_eq_true Hb].
    cbn [foldl]. apply IH; [done|]. by apply registerMicroApps_NoDup. }
  apply G. split; [apply NoDup_nil_2|done].
Qed.

End Register.

Lemma registered_names_stay_distinct_witness :
  let a := mkApp (AppConfig:=unit) "react" tt in
  let b := mkApp (AppConfig:=unit) "vue" tt in
  NoDup (names_of (register_all [[a; b]; [b]; [a]] (mkRegistry [] []))).
Proof.
  apply (registered_names_stay_distinct
           [[mkApp (AppConfig:=unit) "react" tt; mkApp "vue" tt];
            [mkApp "vue" tt]; [mkApp "react" tt]]).
  by vm_compute.
Defined.

End ApisFacts.
